(** * Roobet scraper: a shallow embedding of the two batch stages

    The development follows the two source files:

    - [url_quality_fixer.py]: the URL normaliser [fix_image_url_quality],
      [sanitize_filename], [download_and_convert_image] and the per-provider
      loop [process_provider_with_fixed_urls];
    - [clean_multi_provider_scraper.py]: [close_all_chrome],
      [scrape_single_provider], [save_provider_data] and the checkpointed
      loop of [main].

    Python [str] values are lists of characters, Python exceptions are an
    explicit [Raise] outcome, and everything outside the process (browser,
    HTTP server, clock, disk) is an explicit argument or an explicit piece of
    state that the functions thread through. *)

From Stdlib Require Import List Bool Arith Lia Ascii String.
From Stdlib Require Import DecimalString Sorted.
From Stdlib Require DecimalNat DecimalFacts.
Import ListNotations.

Set Implicit Arguments.

(** ** Python strings *)

Definition str := list ascii.

Definition lit (s : string) : str := list_ascii_of_string s.

Module Str.

(** [p] is a prefix of [s] ([s.startswith(p)]). *)
Fixpoint is_prefix (p s : str) : bool :=
  match p, s with
  | [], _ => true
  | _ :: _, [] => false
  | a :: p', b :: s' => Ascii.eqb a b && is_prefix p' s'
  end.

(** [p in s] for strings: [p] occurs somewhere in [s]. *)
Fixpoint contains (p s : str) : bool :=
  match s with
  | [] => is_prefix p []
  | _ :: s' => is_prefix p s || contains p s'
  end.

Fixpoint eqb (a b : str) : bool :=
  match a, b with
  | [], [] => true
  | x :: a', y :: b' => Ascii.eqb x y && eqb a' b'
  | _, _ => false
  end.

(** The scan of [str.replace] for a non-empty [old]: left to right, a match
    at the current position emits [new] and skips the rest of the match
    ([skip] characters still to be dropped), anything else is copied. *)
Fixpoint replace_from (old new : str) (skip : nat) (s : str) : str :=
  match s with
  | [] => []
  | c :: s' =>
      match skip with
      | S k => replace_from old new k s'
      | O =>
          if is_prefix old s
          then new ++ replace_from old new (List.length old - 1) s'
          else c :: replace_from old new 0 s'
      end
  end.

(** [s.replace(old, new)]: every non-overlapping occurrence, leftmost
    first.  With an empty [old] Python inserts [new] before every character
    and at the end. *)
Definition replace (old new s : str) : str :=
  match old with
  | [] => new ++ flat_map (fun c => c :: new) s
  | _ :: _ => replace_from old new 0 s
  end.

(** [occ q i t]: [q] occurs in [t] at offset [i]. *)
Definition occ (q : str) (i : nat) (t : str) : Prop :=
  is_prefix q (skipn i t) = true.

(** [clash q t]: a match of [q] may start where the text begins with [t]
    (one is a prefix of the other). *)
Definition clash (q t : str) : bool := is_prefix q t || is_prefix t q.

(** No match of [q] can start inside a copy of [r] ... *)
Definition inner_free (q r : str) : bool :=
  forallb (fun k => negb (clash q (skipn k r))) (seq 0 (List.length r)).

(** ... and none can start before a copy of [r] and run into it. *)
Definition border_free (q r : str) : bool :=
  forallb (fun k => negb (clash (skipn k q) r)) (seq 1 (List.length q - 1)).

End Str.

(** ** Exceptions *)

(** The outcome of a call that may raise: its value, or the exception. *)
Inductive outcome (A : Type) : Type :=
| Ok (a : A)
| Raise (e : str).
Arguments Ok {A} a.
Arguments Raise {A} e.

Definition bind {A B : Type} (x : outcome A) (k : A -> outcome B) : outcome B :=
  match x with
  | Ok a => k a
  | Raise e => Raise e
  end.

Notation "x <- c ;; k" := (bind c (fun x => k))
  (at level 61, c at next level, right associativity).

(** [f"{n}"] for a non-negative integer. *)
Definition str_of_nat (n : nat) : str :=
  lit (NilEmpty.string_of_uint (Nat.to_uint n)).

(** [v or default] where [v] is [None] or a string. *)
Definition py_or (v : option str) (default : str) : str :=
  match v with
  | Some (c :: s) => c :: s
  | _ => default
  end.

(** ** url_quality_fixer.py *)

Module Fixer.

Definition bad_quality : str := lit "quality=20,blur=150".
Definition good_quality : str := lit "quality=90,blur=0".
Definition good_pattern : str :=
  lit "width=195,height=260,quality=90,blur=0,fit=cover".
Definition best_pattern : str :=
  lit "width=400,height=600,quality=95,blur=0,fit=contain".

(** The two statements of [fix_image_url_quality], in source order:
    [url.replace("quality=20,blur=150", "quality=90,blur=0")] and
    [url.replace("width=195,...,fit=cover", "width=400,...,fit=contain")]. *)
Definition rule1 (url : str) : str :=
  Str.replace bad_quality good_quality url.
Definition rule2 (url : str) : str :=
  Str.replace good_pattern best_pattern url.

(** [fix_image_url_quality(url)]. *)
Definition fix_image_url_quality (url : str) : str :=
  match url with
  | [] => url
  | _ :: _ =>
      let url := rule1 url in
      let url := rule2 url in
      url
  end.

(** *** [sanitize_filename] *)

Definition double_quote : ascii := ascii_of_nat 34.

Definition invalid_chars : str := lit "<>:" ++ [double_quote] ++ lit "/\|?*".

(** Whitespace as [\s] and [str.strip()] see it, among the first 256 code
    points. *)
Definition is_space (c : ascii) : bool :=
  let n := nat_of_ascii c in
  ((9 <=? n) && (n <=? 13)) || ((28 <=? n) && (n <=? 32))
  || (n =? 133) || (n =? 160).

(** [re.sub(r'\s+', ' ', s)]: [in_run] says the previous character was
    whitespace already. *)
Fixpoint collapse_spaces (in_run : bool) (s : str) : str :=
  match s with
  | [] => []
  | c :: s' =>
      if is_space c
      then (if in_run then collapse_spaces true s'
            else " "%char :: collapse_spaces true s')
      else c :: collapse_spaces false s'
  end.

Fixpoint lstrip (f : ascii -> bool) (s : str) : str :=
  match s with
  | c :: s' => if f c then lstrip f s' else s
  | [] => []
  end.

Definition strip (f : ascii -> bool) (s : str) : str :=
  List.rev (lstrip f (List.rev (lstrip f s))).

Definition sanitize_filename (filename : str) : str :=
  let filename :=
    map (fun c => if existsb (Ascii.eqb c) invalid_chars then "_"%char else c)
        filename in
  let filename := strip is_space (collapse_spaces false filename) in
  strip (Ascii.eqb "."%char) filename.

(** [os.path.join(a, b)], POSIX flavour. *)
Definition path_join (a b : str) : str :=
  match b with
  | "/"%char :: _ => b
  | _ =>
      match List.rev a with
      | [] => b
      | "/"%char :: _ => a ++ b
      | _ => a ++ lit "/" ++ b
      end
  end.

(** *** The outside world of the asset stage

    [disk] lists the paths that exist; [requests] logs every HTTP GET that
    was issued, oldest first.  [Web] answers a download attempt (fetch,
    decode, re-encode, save): [Ok] when every step went through, [Raise]
    when any of them raised, the save included.  The answer may depend on
    what was requested before and on the URL, not on the output path. *)
Record World := {
  disk : list str;
  requests : list str
}.

Definition Web := list str -> str -> outcome unit.

Definition path_exists (w : World) (path : str) : bool :=
  existsb (Str.eqb path) (disk w).

(** [download_and_convert_image(image_url, output_path)]: the whole body is
    under [try]; it returns [True] after [image.save], [False] from the
    handler. *)
Definition download_and_convert_image (web : Web)
    (image_url output_path : str) (w : World) : bool * World :=
  let w' := {| disk := disk w; requests := requests w ++ [image_url] |} in
  match web (requests w) image_url with
  | Ok _ => (true, {| disk := output_path :: disk w';
                      requests := requests w' |})
  | Raise _ => (false, w')
  end.

(** One entry of the ["games"] list of a provider file, for the files the
    listing stage writes: the value under each of the three keys is a
    string; [None] is an absent key.  An entry with another value under
    [name] or [image_url] ([null], a number, a list) is not covered: on such
    an entry [sanitize_filename] or [fix_image_url_quality] raises, outside
    any [try]. *)
Record GameEntry := {
  entry_name : option str;
  entry_image_url : option str;
  entry_game_link : option str
}.

Record FetchedAsset := {
  file_name : str;
  game_title : str;
  game_provider : str;
  game_url : str;
  original_url : str;
  fixed_url : str;
  local_path : str
}.

(** The variables of the loop of [process_provider_with_fixed_urls]. *)
Record Progress := {
  successful_downloads : nat;
  processed_games : list FetchedAsset;
  bad_quality_fixed : nat;
  world : World
}.

Definition get (v : option str) (default : str) : str :=
  match v with
  | Some s => s
  | None => default
  end.

Definition file_name_for (provider_name game_name : str) : str :=
  sanitize_filename provider_name ++ lit " - "
    ++ sanitize_filename game_name ++ lit ".webp".

Definition asset_for (provider_name provider_dir : str) (i : nat)
    (game : GameEntry) : FetchedAsset :=
  let game_name := get (entry_name game) (lit "Game " ++ str_of_nat i) in
  let original_image_url := get (entry_image_url game) [] in
  let filename := file_name_for provider_name game_name in
  {| file_name := filename;
     game_title := game_name;
     game_provider := provider_name;
     game_url := get (entry_game_link game) [];
     original_url := original_image_url;
     fixed_url := fix_image_url_quality original_image_url;
     local_path := path_join provider_dir filename |}.

(** The body of [for i, game in enumerate(games, 1)]. *)
Definition process_game (web : Web) (provider_name provider_dir : str)
    (i : nat) (game : GameEntry) (p : Progress) : Progress :=
  let original_image_url := get (entry_image_url game) [] in
  match original_image_url with
  | [] => p                                   (* continue *)
  | _ :: _ =>
      let asset := asset_for provider_name provider_dir i game in
      let bad :=
        if Str.contains bad_quality original_image_url
        then S (bad_quality_fixed p) else bad_quality_fixed p in
      let '(successful, w) :=
        if path_exists (world p) (local_path asset)
        then (S (successful_downloads p), world p)
        else
          let '(ok, w) :=
            download_and_convert_image web (fixed_url asset)
                                       (local_path asset) (world p) in
          ((if ok then S (successful_downloads p)
            else successful_downloads p), w) in
      {| successful_downloads := successful;
         processed_games := processed_games p ++ [asset];
         bad_quality_fixed := bad;
         world := w |}
  end.

Fixpoint process_games (web : Web) (provider_name provider_dir : str)
    (i : nat) (games : list GameEntry) (p : Progress) : Progress :=
  match games with
  | [] => p
  | game :: rest =>
      process_games web provider_name provider_dir (S i) rest
        (process_game web provider_name provider_dir i game p)
  end.

(** [process_provider_with_fixed_urls(provider_name, json_file_path)].
    [file] is what reading and parsing the provider file gives: the value
    of [data.get('games', [])], or the exception of [open]/[json.load].
    The function returns [processed_games]; the counters it prints and the
    world it leaves are returned with it. *)
Definition initial_progress (w : World) : Progress :=
  {| successful_downloads := 0; processed_games := [];
     bad_quality_fixed := 0; world := w |}.

Definition makedirs (path : str) (w : World) : World :=
  {| disk := path :: disk w; requests := requests w |}.

Definition process_provider_with_fixed_urls (web : Web)
    (provider_name : str) (file : outcome (list GameEntry)) (w : World)
    : Progress :=
  match file with
  | Raise _ => initial_progress w                 (* return [] *)
  | Ok [] => initial_progress w                   (* return [] *)
  | Ok games =>
      let provider_dir := path_join (lit "Final_Quality_Fixed") provider_name in
      let w := makedirs provider_dir w in
      process_games web provider_name provider_dir 1 games (initial_progress w)
  end.

Definition has_image_url (game : GameEntry) : bool :=
  match get (entry_image_url game) [] with
  | [] => false
  | _ :: _ => true
  end.

(** Sample inputs: a server that answers nothing, and one record. *)
Definition dead_web : Web := fun _ _ => Raise (lit "ConnectionError").

Definition live_web : Web := fun _ _ => Ok tt.

Definition no_files : World := {| disk := []; requests := [] |}.

Definition fetched_world : World :=
  {| disk := [lit "Final_Quality_Fixed/Acme/Acme - Big Bass.webp"];
     requests := [] |}.

Definition sample_game : GameEntry :=
  {| entry_name := Some (lit "Big Bass");
     entry_image_url := Some (lit "https://cdn/i/quality=20,blur=150/bass.png");
     entry_game_link := Some (lit "/game/big-bass") |}.

(** Reading a sanitised name: no two whitespace characters in a row. *)
Fixpoint no_space_run (s : str) : bool :=
  match s with
  | a :: (b :: _) as rest => negb (is_space a && is_space b) && no_space_run rest
  | _ => true
  end.

(** *** [create_metadata_files] and [main] *)

Definition str_eq_dec : forall a b : str, {a = b} + {a <> b} :=
  list_eq_dec ascii_dec.

(** [s.endswith(suffix)]. *)
Definition ends_with (suffix s : str) : bool :=
  Str.is_prefix (List.rev suffix) (List.rev s).

(** The two files [create_metadata_files] writes: the rows handed to the
    CSV writer (header first, one row per entry, fields in the order of
    [fieldnames]) and the members of the JSON document that depend on the
    data. *)
Record MetadataFiles := {
  csv_rows : list (list str);
  extraction_date : str;
  total_games : nat;
  total_providers : nat;
  metadata_games : list FetchedAsset
}.

Definition fieldnames : list str :=
  [lit "file_name"; lit "game_title"; lit "game_provider"; lit "game_url";
   lit "original_url"; lit "fixed_url"; lit "local_path"].

Definition csv_row (game : FetchedAsset) : list str :=
  [file_name game; game_title game; game_provider game; game_url game;
   original_url game; fixed_url game; local_path game].

(** [create_metadata_files(all_games_data)], at time [now]. *)
Definition create_metadata_files (now : str) (all_games_data : list FetchedAsset)
    : MetadataFiles :=
  {| csv_rows := fieldnames :: map csv_row all_games_data;
     extraction_date := now;
     total_games := List.length all_games_data;
     total_providers :=
       List.length (nodup str_eq_dec (map game_provider all_games_data));
     metadata_games := all_games_data |}.

(** One entry of [os.listdir("New_Providers_data")]: its name, whether it is
    a directory, and the files in it, each with what reading it as a
    provider file gives. *)
Record DirItem := {
  item_name : str;
  item_is_dir : bool;
  item_files : list (str * outcome (list GameEntry))
}.

(** The [providers] list of [main]: for every directory, the first file
    whose name ends in [_games_data.json]. *)
Definition find_providers (items : list DirItem)
    : list (str * outcome (list GameEntry)) :=
  flat_map
    (fun item =>
       if item_is_dir item then
         match filter (fun f => ends_with (lit "_games_data.json") (fst f))
                      (item_files item) with
         | json_file :: _ => [(item_name item, snd json_file)]
         | [] => []
         end
       else [])
    items.

(** [for provider_name, json_file_path in providers: ... extend]. *)
Fixpoint process_providers (web : Web)
    (providers : list (str * outcome (list GameEntry)))
    (all_games_data : list FetchedAsset) (w : World)
    : list FetchedAsset * World :=
  match providers with
  | [] => (all_games_data, w)
  | (provider_name, file) :: rest =>
      let p := process_provider_with_fixed_urls web provider_name file w in
      process_providers web rest (all_games_data ++ processed_games p) (world p)
  end.

Definition write_file (path : str) (w : World) : World :=
  {| disk := path :: disk w; requests := requests w |}.

(** [main()] of the asset stage.  [listing] is [None] when
    [New_Providers_data] does not exist.  The result is what was written as
    metadata ([None]: the early return) and the world afterwards. *)
Definition main (web : Web) (now : str) (listing : option (list DirItem))
    (w : World) : option MetadataFiles * World :=
  match listing with
  | None => (None, w)
  | Some items =>
      let w := makedirs (lit "Final_Quality_Fixed") w in
      let '(all_games_data, w) :=
        process_providers web (find_providers items) [] w in
      let w := write_file (lit "Final_Quality_Fixed/games_metadata.csv") w in
      let w := write_file (lit "Final_Quality_Fixed/games_metadata.json") w in
      (Some (create_metadata_files now all_games_data), w)
  end.

(** The entries a provider file gives rise to, whatever the web and the
    disk do. *)
Definition entries_of (provider : str * outcome (list GameEntry))
    : list FetchedAsset :=
  match snd provider with
  | Raise _ => []
  | Ok games =>
      let provider_dir :=
        path_join (lit "Final_Quality_Fixed") (fst provider) in
      map (fun ig => asset_for (fst provider) provider_dir (fst ig) (snd ig))
        (filter (fun ig => has_image_url (snd ig))
                (combine (seq 1 (List.length games)) games))
  end.

(** A URL that neither rule of [fix_image_url_quality] would change. *)
Definition normalised (url : str) : Prop :=
  Str.contains bad_quality url = false /\
  Str.contains good_pattern url = false.

(** The provider contributes at least one entry. *)
Definition has_entries (provider : str * outcome (list GameEntry)) : bool :=
  match entries_of provider with
  | [] => false
  | _ :: _ => true
  end.

End Fixer.

(** ** The [json] module, as far as the scraper uses it

    [json.dump(obj, f, indent=2)] and [json.load(f)] over the values the
    checkpoint holds.  Numbers are the non-negative integers (the counters);
    a text with any other number is not read.  Characters are the first 256
    code points. *)

Module Json.

#[warnings="-register-all"]
Inductive json : Type :=
| JNull
| JBool (b : bool)
| JNum (n : nat)
| JStr (s : str)
| JArr (items : list json)
| JObj (members : list (str * json)).

Definition double_quote : ascii := ascii_of_nat 34.
Definition backslash : ascii := ascii_of_nat 92.
Definition newline : ascii := ascii_of_nat 10.

(** *** Writing *)

Definition hex_digit (n : nat) : ascii :=
  nth n (lit "0123456789abcdef") "0"%char.

(** One character inside a string literal, [ensure_ascii] on. *)
Definition escape_char (c : ascii) : str :=
  let n := nat_of_ascii c in
  if n =? 34 then [backslash; double_quote]
  else if n =? 92 then [backslash; backslash]
  else if n =? 10 then [backslash; "n"%char]
  else if n =? 13 then [backslash; "r"%char]
  else if n =? 9 then [backslash; "t"%char]
  else if n =? 8 then [backslash; "b"%char]
  else if n =? 12 then [backslash; "f"%char]
  else if (n <? 32) || (126 <? n)
       then [backslash; "u"%char; "0"%char; "0"%char;
             hex_digit (n / 16); hex_digit (n mod 16)]
  else [c].

Definition encode_string (s : str) : str :=
  double_quote :: flat_map escape_char s ++ [double_quote].

(** A line break followed by the indentation of nesting level [level]. *)
Definition break (level : nat) : str :=
  newline :: repeat " "%char (2 * level).

Fixpoint encode (level : nat) (v : json) : str :=
  match v with
  | JNull => lit "null"
  | JBool true => lit "true"
  | JBool false => lit "false"
  | JNum n => str_of_nat n
  | JStr s => encode_string s
  | JArr [] => lit "[]"
  | JArr (first :: rest) =>
      lit "[" ++ (break (S level) ++ encode (S level) first
        ++ flat_map (fun x => lit "," ++ break (S level) ++ encode (S level) x)
             rest
        ++ break level) ++ lit "]"
  | JObj [] => lit "{}"
  | JObj ((key, first) :: rest) =>
      lit "{" ++ (break (S level) ++ encode_string key ++ lit ": "
        ++ encode (S level) first
        ++ flat_map (fun m => lit "," ++ break (S level)
                                ++ encode_string (fst m) ++ lit ": "
                                ++ encode (S level) (snd m))
             rest
        ++ break level) ++ lit "}"
  end.

(** [json.dumps(obj, indent=2)]. *)
Definition dumps (v : json) : str := encode 0 v.

(** *** Reading *)

Definition is_ws (c : ascii) : bool :=
  let n := nat_of_ascii c in
  (n =? 32) || (n =? 9) || (n =? 10) || (n =? 13).

Fixpoint skip_ws (s : str) : str :=
  match s with
  | c :: s' => if is_ws c then skip_ws s' else s
  | [] => []
  end.

Definition digit_value (c : ascii) : option nat :=
  let n := nat_of_ascii c in
  if (48 <=? n) && (n <=? 57) then Some (n - 48) else None.

Definition hex_value (c : ascii) : option nat :=
  let n := nat_of_ascii c in
  if (48 <=? n) && (n <=? 57) then Some (n - 48)
  else if (97 <=? n) && (n <=? 102) then Some (n - 87)
  else if (65 <=? n) && (n <=? 70) then Some (n - 55)
  else None.

(** The character a backslash escape stands for ([\uXXXX] apart). *)
Definition unescape (e : ascii) : option ascii :=
  if Ascii.eqb e double_quote then Some double_quote
  else if Ascii.eqb e backslash then Some backslash
  else if Ascii.eqb e "/"%char then Some "/"%char
  else if Ascii.eqb e "n"%char then Some newline
  else if Ascii.eqb e "r"%char then Some (ascii_of_nat 13)
  else if Ascii.eqb e "t"%char then Some (ascii_of_nat 9)
  else if Ascii.eqb e "b"%char then Some (ascii_of_nat 8)
  else if Ascii.eqb e "f"%char then Some (ascii_of_nat 12)
  else None.

Definition unicode_escape (h1 h2 h3 h4 : ascii) : option ascii :=
  match hex_value h1, hex_value h2, hex_value h3, hex_value h4 with
  | Some a, Some b, Some c, Some d =>
      let n := ((a * 16 + b) * 16 + c) * 16 + d in
      if n <? 256 then Some (ascii_of_nat n) else None
  | _, _, _, _ => None
  end.

Definition cons_char (c : option ascii) (r : option (str * str))
    : option (str * str) :=
  match c, r with
  | Some x, Some (t, rest) => Some (x :: t, rest)
  | _, _ => None
  end.

(** The characters of a string literal after its opening quote. *)
Fixpoint read_string (s : str) : option (str * str) :=
  match s with
  | [] => None
  | c :: s1 =>
      if Ascii.eqb c double_quote then Some ([], s1)
      else if Ascii.eqb c backslash then
        match s1 with
        | e :: s2 =>
            if Ascii.eqb e "u"%char then
              match s2 with
              | h1 :: h2 :: h3 :: h4 :: s6 =>
                  cons_char (unicode_escape h1 h2 h3 h4) (read_string s6)
              | _ => None
              end
            else cons_char (unescape e) (read_string s2)
        | [] => None
        end
      else if nat_of_ascii c <? 32 then None
      else cons_char (Some c) (read_string s1)
  end.

(** The digits that follow, with the value read so far. *)
Fixpoint read_digits (acc : nat) (s : str) : nat * str :=
  match s with
  | c :: s' =>
      match digit_value c with
      | Some d => read_digits (10 * acc + d) s'
      | None => (acc, s)
      end
  | [] => (acc, [])
  end.

Definition starts_fraction (s : str) : bool :=
  match s with
  | c :: _ => Ascii.eqb c "."%char || Ascii.eqb c "e"%char || Ascii.eqb c "E"%char
  | [] => false
  end.

Definition read_number (s : str) : option (nat * str) :=
  match s with
  | c :: s' =>
      match digit_value c with
      | Some 0 =>
          match s' with
          | c' :: _ =>
              match digit_value c' with
              | Some _ => None
              | None => if starts_fraction s' then None else Some (0, s')
              end
          | [] => Some (0, [])
          end
      | Some d =>
          let '(n, rest) := read_digits d s' in
          if starts_fraction rest then None else Some (n, rest)
      | None => None
      end
  | [] => None
  end.

Definition expect (word : str) (s : str) : option str :=
  if Str.is_prefix word s then Some (skipn (List.length word) s) else None.

(** Recursive descent; [fuel] bounds the nesting and the number of items. *)
Fixpoint read_value (fuel : nat) (s : str) : option (json * str) :=
  match fuel with
  | O => None
  | S fuel' =>
      match skip_ws s with
      | [] => None
      | c :: s' =>
          if Ascii.eqb c "n"%char then
            match expect (lit "ull") s' with
            | Some rest => Some (JNull, rest) | None => None end
          else if Ascii.eqb c "t"%char then
            match expect (lit "rue") s' with
            | Some rest => Some (JBool true, rest) | None => None end
          else if Ascii.eqb c "f"%char then
            match expect (lit "alse") s' with
            | Some rest => Some (JBool false, rest) | None => None end
          else if Ascii.eqb c double_quote then
            match read_string s' with
            | Some (t, rest) => Some (JStr t, rest) | None => None end
          else if Ascii.eqb c "["%char then
            match skip_ws s' with
            | c' :: rest =>
                if Ascii.eqb c' "]"%char then Some (JArr [], rest)
                else
                  match read_items fuel' s' with
                  | Some (l, rest') => Some (JArr l, rest') | None => None end
            | [] => None
            end
          else if Ascii.eqb c "{"%char then
            match skip_ws s' with
            | c' :: rest =>
                if Ascii.eqb c' "}"%char then Some (JObj [], rest)
                else
                  match read_members fuel' s' with
                  | Some (l, rest') => Some (JObj l, rest') | None => None end
            | [] => None
            end
          else
            match read_number (c :: s') with
            | Some (n, rest) => Some (JNum n, rest) | None => None end
      end
  end

(** [value ("," value)* "]"], the opening bracket already read. *)
with read_items (fuel : nat) (s : str) : option (list json * str) :=
  match fuel with
  | O => None
  | S fuel' =>
      match read_value fuel' s with
      | Some (v, rest) =>
          match skip_ws rest with
          | c :: rest' =>
              if Ascii.eqb c "]"%char then Some ([v], rest')
              else if Ascii.eqb c ","%char then
                match read_items fuel' rest' with
                | Some (l, rest'') => Some (v :: l, rest'') | None => None end
              else None
          | [] => None
          end
      | None => None
      end
  end

(** [string ":" value ("," string ":" value)* "}"], the brace already read. *)
with read_members (fuel : nat) (s : str)
    : option (list (str * json) * str) :=
  match fuel with
  | O => None
  | S fuel' =>
      match skip_ws s with
      | q :: s1 =>
          if Ascii.eqb q double_quote then
            match read_string s1 with
            | Some (key, s2) =>
                match skip_ws s2 with
                | colon :: s3 =>
                    if Ascii.eqb colon ":"%char then
                      match read_value fuel' s3 with
                      | Some (v, rest) =>
                          match skip_ws rest with
                          | c :: rest' =>
                              if Ascii.eqb c "}"%char
                              then Some ([(key, v)], rest')
                              else if Ascii.eqb c ","%char then
                                match read_members fuel' rest' with
                                | Some (l, rest'') =>
                                    Some ((key, v) :: l, rest'')
                                | None => None
                                end
                              else None
                          | [] => None
                          end
                      | None => None
                      end
                    else None
                | [] => None
                end
            | None => None
            end
          else None
      | [] => None
      end
  end.

(** The bracket scan: nesting depth, and whether the text is inside a string
    literal (and there right after a backslash). *)
Record scan_state := {
  depth : nat;
  in_string : bool;
  escaped : bool
}.

Definition scan_start : scan_state :=
  {| depth := 0; in_string := false; escaped := false |}.

Definition scan_char (st : scan_state) (c : ascii) : scan_state :=
  if in_string st then
    if escaped st then {| depth := depth st; in_string := true; escaped := false |}
    else if Ascii.eqb c backslash
         then {| depth := depth st; in_string := true; escaped := true |}
    else if Ascii.eqb c double_quote
         then {| depth := depth st; in_string := false; escaped := false |}
    else st
  else if Ascii.eqb c double_quote
       then {| depth := depth st; in_string := true; escaped := false |}
  else if Ascii.eqb c "{"%char || Ascii.eqb c "["%char
       then {| depth := S (depth st); in_string := false; escaped := false |}
  else if Ascii.eqb c "}"%char || Ascii.eqb c "]"%char
       then {| depth := depth st - 1; in_string := false; escaped := false |}
  else st.

Definition scan (st : scan_state) (s : str) : scan_state :=
  fold_left scan_char s st.

(** The scan states outside and inside a string literal at nesting depth
    [d]. *)
Definition outside (d : nat) : scan_state :=
  {| depth := d; in_string := false; escaped := false |}.

Definition inside (d : nat) : scan_state :=
  {| depth := d; in_string := true; escaped := false |}.

(** [s] takes the scan from [st] to [st'] without ever going below depth
    [d] on the way. *)
Definition passage (d : nat) (st : scan_state) (s : str) (st' : scan_state)
    : Prop :=
  scan st s = st' /\ forall k, d <= depth (scan st (firstn k s)).

(** A piece of text that closes what it opens. *)
Definition neutral (s : str) : Prop :=
  forall d, passage d (outside d) s (outside d).

(** The inside of a bracketed value never comes back down to the level of
    the bracket. *)
Definition bracketed (opening closing : ascii) (inner : str) : Prop :=
  forall d,
    passage (S d) (outside (S d)) inner (outside (S d)) /\
    passage d (outside d) (opening :: inner ++ [closing]) (outside d).

(** A character that means nothing to the scan. *)
Definition plain (c : ascii) : bool :=
  negb (existsb (Ascii.eqb c)
          (double_quote :: backslash :: lit "{}[]")).

(** Something is still open: a bracket or a string literal. *)
Definition unfinished (st : scan_state) : bool :=
  (0 <? depth st) || in_string st.

(** [json.loads(text)]; [None] is a [JSONDecodeError].  A text that ends
    with a bracket or a string still open is rejected before it is read. *)
Definition loads (text : str) : option json :=
  if unfinished (scan scan_start text) then None
  else
    match read_value (S (List.length text)) text with
    | Some (v, rest) =>
        match skip_ws rest with
        | [] => Some v
        | _ :: _ => None                           (* extra data *)
        end
    | None => None
    end.

(** What may follow a number. *)
Definition delimited (rest : str) : Prop :=
  match rest with
  | [] => True
  | c :: _ => digit_value c = None /\ starts_fraction rest = false
  end.

(** The first character of a value: not blank, not a closing bracket. *)
Definition value_start (s : str) : Prop :=
  match s with
  | c :: _ => is_ws c = false /\ Ascii.eqb c "]" = false /\ Ascii.eqb c "}" = false
  | [] => False
  end.

(** A value is read back from its text. *)
Definition reads_back (v : json) : Prop :=
  forall level rest fuel,
    List.length (encode level v) < fuel ->
    delimited rest ->
    read_value fuel (encode level v ++ rest) = Some (v, rest).

Definition item_text (level : nat) (x : json) : str :=
  lit "," ++ break level ++ encode level x.

Definition member_text (level : nat) (m : str * json) : str :=
  lit "," ++ break level ++ encode_string (fst m) ++ lit ": "
    ++ encode level (snd m).

(** [d.get(key)] on the dict an object is read into (a repeated key keeps
    its last value). *)
Fixpoint lookup (key : str) (members : list (str * json)) : option json :=
  match members with
  | [] => None
  | (k, v) :: rest =>
      match lookup key rest with
      | Some v' => Some v'
      | None => if Str.eqb key k then Some v else None
      end
  end.

End Json.

(** ** clean_multi_provider_scraper.py *)

Module Scraper.

(** *** The browser session

    What a session answers to the calls [scrape_single_provider] makes, in
    the order it makes them.  An element is the data its queries return. *)

Record Img := {
  alt : outcome (option str);           (* img.get_attribute("alt") *)
  src : outcome (option str)            (* img.get_attribute("src") *)
}.

Record Anchor := {
  img : outcome Img;                    (* anchor.find_element(TAG_NAME, "img") *)
  href : outcome (option str)           (* anchor.get_attribute("href") *)
}.

Record Session := {
  (* driver.get(provider_url) *)
  navigate : outcome unit;
  (* [load_more n]: on the iteration entered with [click_count = n],
     find_element(button_xpath) and button.click() both go through *)
  load_more : nat -> bool;
  (* the ul, its first div and find_elements(TAG_NAME, "a") *)
  find_anchors : outcome (list Anchor);
  (* driver.page_source *)
  page_source : outcome str
}.

Record Game := {
  index : nat;
  name : str;
  image_url : str;
  game_link : str
}.

Record ScrapeResult := {
  success : bool;
  error : option str;
  games : list Game;
  click_count : nat;
  html : str
}.

Definition SAFETY_LIMIT : nat := 50.

(** [while click_count < 50: try: find; click; click_count += 1 except: break].
    [budget] bounds the number of times the body may run; [None] means the
    body would have to run once more. *)
Fixpoint load_more_loop (budget : nat) (button : nat -> bool)
    (click_count : nat) : option nat :=
  if click_count <? SAFETY_LIMIT then
    match budget with
    | O => None
    | S budget' =>
        if button click_count
        then load_more_loop budget' button (S click_count)
        else Some click_count                       (* break *)
    end
  else Some click_count.

(** The value of [click_count] after the loop; fifty runs of the body are
    always enough ([load_more_loop_total]). *)
Definition click_load_more (button : nat -> bool) : nat :=
  match load_more_loop SAFETY_LIMIT button 0 with
  | Some click_count => click_count
  | None => 0
  end.

(** The body of the inner [try] for anchor number [i]. *)
Definition extract_game (i : nat) (anchor : Anchor) : outcome Game :=
  im <- img anchor ;;
  a <- alt im ;;
  s <- src im ;;
  h <- href anchor ;;
  Ok {| index := i;
        name := py_or a (lit "Game " ++ str_of_nat i);
        image_url := py_or s [];
        game_link := py_or h [] |}.

(** [for i, anchor in enumerate(anchors, i)]: an anchor whose extraction
    raises is logged and left out. *)
Fixpoint extract_games (i : nat) (anchors : list Anchor) : list Game :=
  match anchors with
  | [] => []
  | anchor :: rest =>
      match extract_game i anchor with
      | Ok game_data => game_data :: extract_games (S i) rest
      | Raise _ => extract_games (S i) rest
      end
  end.

(** The [try]/[except] part of
    [scrape_single_provider(provider_url, provider_name)], against the
    session the fresh driver turns out to be: what the function returns
    when the driver starts and quits.  The call as a whole, where starting
    or quitting the driver may raise, is [scrape_single_provider_call]
    below. *)
Definition scrape_single_provider (session : Session) : ScrapeResult :=
  let body :=
    _ <- navigate session ;;
    let click_count := click_load_more (load_more session) in
    anchors <- find_anchors session ;;
    let games := extract_games 1 anchors in
    html <- page_source session ;;
    Ok {| success := true; error := None; games := games;
          click_count := click_count; html := html |} in
  match body with
  | Ok result => result
  | Raise e => {| success := false; error := Some e; games := [];
                  click_count := 0; html := [] |}
  end.

(** A page whose load-more control never goes away. *)
Definition stuck_page : Session :=
  {| navigate := Ok tt;
     load_more := fun _ => true;
     find_anchors := Ok [];
     page_source := Ok [] |}.

(** A three-anchor listing whose second anchor has no image. *)
Definition tile (title image link : string) : Anchor :=
  {| img := Ok {| alt := Ok (Some (lit title)); src := Ok (Some (lit image)) |};
     href := Ok (Some (lit link)) |}.

Definition broken_tile : Anchor :=
  {| img := Raise (lit "NoSuchElementException");
     href := Ok (Some (lit "/game/broken")) |}.

Definition sample_page : Session :=
  {| navigate := Ok tt;
     load_more := fun n => n <? 2;
     find_anchors :=
       Ok [tile "Alpha" "https://cdn/a.png" "/game/alpha";
           broken_tile;
           tile "" "https://cdn/c.png" "/game/gamma"];
     page_source := Ok (lit "<html></html>") |}.

(** Whether the extraction of an anchor goes through (the index plays no
    part in that). *)
Definition anchor_ok (anchor : Anchor) : bool :=
  match extract_game 0 anchor with
  | Ok _ => true
  | Raise _ => false
  end.

(** *** The checkpoint *)

(** The dict [main] dumps after every successful provider.  A loaded list
    may hold any JSON values, so [completed_providers] is a list of them. *)
Record CheckpointData := {
  cp_completed_providers : list Json.json;
  cp_last_updated : str;
  cp_total_games_so_far : nat;
  cp_successful_providers : nat
}.

Definition checkpoint_json (d : CheckpointData) : Json.json :=
  Json.JObj
    [(lit "completed_providers", Json.JArr (cp_completed_providers d));
     (lit "last_updated", Json.JStr (cp_last_updated d));
     (lit "total_games_so_far", Json.JNum (cp_total_games_so_far d));
     (lit "successful_providers", Json.JNum (cp_successful_providers d))].

(** The text [json.dump(checkpoint_data, f, indent=2)] writes. *)
Definition checkpoint_text (d : CheckpointData) : str :=
  Json.dumps (checkpoint_json d).
Arguments checkpoint_text : simpl never.

(** The disk under [New_Providers_data/]: the content of [checkpoint.json]
    ([None]: no such file) and the paths of the provider files written. *)
Record Disk := {
  checkpoint_file : option str;
  provider_files : list str
}.

(** [with open(checkpoint_file, 'w') as f: json.dump(checkpoint_data, f)]
    that is cut short after [flushed] characters reached the disk: opening
    for writing has emptied the file, and the text goes into the same file
    front to back.  With [flushed] the length of the text (or more) the
    write is complete. *)
Definition write_checkpoint (text : str) (flushed : nat) (disk : Disk) : Disk :=
  {| checkpoint_file := Some (firstn flushed text);
     provider_files := provider_files disk |}.

(** The checkpoint block at the start of [main]: the value of
    [completed_providers] after it.  A file that is missing, does not parse,
    or is not an object leaves the empty list; so does, in this model, an
    object whose [completed_providers] is not a list, and a file with a
    negative or fractional number.  [main] writes no such file: for the
    files it does write ([own_checkpoint] below) this is what the code
    loads. *)
Definition load_checkpoint (disk : Disk) : list Json.json :=
  match checkpoint_file disk with
  | None => []
  | Some text =>
      match Json.loads text with
      | Some (Json.JObj members) =>
          match Json.lookup (lit "completed_providers") members with
          | Some (Json.JArr items) => items
          | Some _ => []
          | None => []                              (* the default of .get *)
          end
      | Some _ => []                                (* .get raises *)
      | None => []                                  (* json.load raises *)
      end
  end.

(** [provider_name in completed_providers]. *)
Definition is_completed (provider_name : str) (completed : list Json.json)
    : bool :=
  existsb (fun item => match item with
                       | Json.JStr s => Str.eqb provider_name s
                       | _ => false
                       end) completed.

(** *** The batch loop *)

(** What the orchestrator does that can be seen from outside, in order.
    [CloseAllChrome] is the call of [close_all_chrome]; what each call
    found and left is in the [sweeps] of a [Run] below. *)
Inductive Event : Type :=
| Skipped (provider_name : str)
| CloseAllChrome
| Scrape (provider_url provider_name : str)
| SaveProviderData (provider_name : str) (result : ScrapeResult)
| CheckpointSaved (data : CheckpointData)
| Sleep (seconds : nat).

(** The outside world of a run: the session the fresh browser of iteration
    [i] turns out to be, and the clock. *)
Record Env := {
  browser : nat -> str -> Session;
  now : nat -> str
}.

(** The variables of [main] that the loop changes. *)
Record RunState := {
  completed_providers : list Json.json;
  total_games : nat;
  successful_providers : nat;
  disk : Disk;
  trace : list Event
}.

Definition log (events : list Event) (st : RunState) : RunState :=
  {| completed_providers := completed_providers st;
     total_games := total_games st;
     successful_providers := successful_providers st;
     disk := disk st;
     trace := trace st ++ events |}.

(** The three files of [save_provider_data]. *)
Definition provider_paths (provider_name : str) : list str :=
  let provider_dir := lit "New_Providers_data/" ++ provider_name in
  [provider_dir ++ lit "/" ++ provider_name ++ lit "_games_data.txt";
   provider_dir ++ lit "/" ++ provider_name ++ lit "_games_data.json";
   provider_dir ++ lit "/" ++ provider_name ++ lit "_complete.html"].

(** The success branch: save, update the totals, append, rewrite the
    checkpoint. *)
Definition record_completion (env : Env) (i : nat) (provider_name : str)
    (result : ScrapeResult) (st : RunState) : RunState :=
  let total_games := total_games st + List.length (games result) in
  let successful_providers := S (successful_providers st) in
  let completed_providers :=
    completed_providers st ++ [Json.JStr provider_name] in
  let checkpoint_data :=
    {| cp_completed_providers := completed_providers;
       cp_last_updated := now env i;
       cp_total_games_so_far := total_games;
       cp_successful_providers := successful_providers |} in
  let text := checkpoint_text checkpoint_data in
  {| completed_providers := completed_providers;
     total_games := total_games;
     successful_providers := successful_providers;
     disk := write_checkpoint text (List.length text)
               {| checkpoint_file := checkpoint_file (disk st);
                  provider_files :=
                    provider_files (disk st) ++ provider_paths provider_name |};
     trace := trace st ++ [SaveProviderData provider_name result;
                           CheckpointSaved checkpoint_data] |}.

(** The body of [for i, (provider_url, provider_name) in enumerate(...)]. *)
Definition visit (env : Env) (i : nat) (target : str * str) (st : RunState)
    : RunState :=
  let '(provider_url, provider_name) := target in
  if is_completed provider_name (completed_providers st)
  then log [Skipped provider_name] st               (* continue *)
  else
    let st := log [CloseAllChrome; Scrape provider_url provider_name] st in
    let result := scrape_single_provider (browser env i provider_url) in
    let st :=
      if success result
      then record_completion env i provider_name result st
      else st in
    log [Sleep 5] st.

Fixpoint visit_all (env : Env) (i : nat) (targets : list (str * str))
    (st : RunState) : RunState :=
  match targets with
  | [] => st
  | target :: rest => visit_all env (S i) rest (visit env i target st)
  end.

(** The state the loop starts from: the completed list comes from the
    checkpoint, the counters start at zero. *)
Definition start (disk : Disk) : RunState :=
  {| completed_providers := load_checkpoint disk;
     total_games := 0;
     successful_providers := 0;
     disk := disk;
     trace := [] |}.

(** [main()] over a list of providers. *)
Definition run_batch (env : Env) (providers : list (str * str)) (disk : Disk)
    : RunState :=
  visit_all env 1 providers (start disk).

Definition provider (name query : string) : str * str :=
  (lit "https://roobet.com/casino/category/slots?providers=" ++ lit query
     ++ lit "&sort=pop_desc",
   lit name).

Definition providers : list (str * str) :=
  [provider "Ace Roll" "Ace+Roll";
   provider "Alchemy Gaming" "Alchemy+Gaming";
   provider "All41" "All41";
   provider "Bitpunch" "Bitpunch";
   provider "Boomerang Studios" "Boomerang+Studios";
   provider "Buck Stakes Entertainment" "Buck+Stakes+Entertainment";
   provider "Clawbuster" "Clawbuster";
   provider "Degen Studios" "Degen+Studios";
   provider "Electric Elephant" "Electric+Elephant";
   provider "Four Leaf Gaming" "Four+Leaf+Gaming";
   provider "Foxium" "Foxium";
   provider "Gameburger" "Gameburger";
   provider "Gaming Corps" "Gaming+Corps";
   provider "Iron Dog Studio" "Iron+Dog+Studio";
   provider "irondogstudio" "irondogstudio";
   provider "Just For The Win" "Just+For+The+Win";
   provider "Kalamba Games" "Kalamba+Games";
   provider "Kitsune Gaming Studios" "Kitsune+Gaming+Studios";
   provider "Microgaming" "Microgaming";
   provider "Neon Valley Studios" "Neon+Valley+Studios";
   provider "Northern Lights Gaming" "Northern+Lights+Gaming";
   provider "NowNow Gaming" "NowNow+Gaming";
   provider "Old Skool" "Old+Skool";
   provider "Reelplay" "Reelplay";
   provider "Slingshot Studios" "Slingshot+Studios";
   provider "SpinOn" "SpinOn";
   provider "SpinPlay Games" "SpinPlay+Games";
   provider "Stormcraft" "Stormcraft";
   provider "Triple Edge" "Triple+Edge";
   provider "Trusty Gaming" "Trusty+Gaming";
   provider "Yggdrasil" "Yggdrasil"].

(** [main()]. *)
Definition main (env : Env) (disk : Disk) : RunState :=
  run_batch env providers disk.

(** *** Reading a trace *)

(** The JSON value is the string [provider_name]. *)
Definition is_name (provider_name : str) (item : Json.json) : bool :=
  match item with
  | Json.JStr s => Str.eqb provider_name s
  | _ => false
  end.

(** The event is the extraction or the saving of [provider_name]. *)
Definition processes (provider_name : str) (ev : Event) : bool :=
  match ev with
  | Scrape _ n => Str.eqb provider_name n
  | SaveProviderData n _ => Str.eqb provider_name n
  | _ => false
  end.

(** The checkpoints a trace wrote, oldest first. *)
Fixpoint checkpoints (events : list Event) : list CheckpointData :=
  match events with
  | [] => []
  | CheckpointSaved d :: rest => d :: checkpoints rest
  | _ :: rest => checkpoints rest
  end.

(** What the checkpoints of a trace must hold if the counters count the
    providers saved in that trace, from [total] and [successful] on: one
    triple (completed list, total games, successful providers) per save. *)
Fixpoint tally (completed : list Json.json) (total successful : nat)
    (events : list Event) : list (list Json.json * nat * nat) :=
  match events with
  | [] => []
  | SaveProviderData n r :: rest =>
      let completed := completed ++ [Json.JStr n] in
      let total := total + List.length (games r) in
      let successful := S successful in
      (completed, total, successful) :: tally completed total successful rest
  | _ :: rest => tally completed total successful rest
  end.

(** The completed list and the counters after the saves of a trace. *)
Fixpoint counted (completed : list Json.json) (total successful : nat)
    (events : list Event) : list Json.json * nat * nat :=
  match events with
  | [] => (completed, total, successful)
  | SaveProviderData n r :: rest =>
      counted (completed ++ [Json.JStr n]) (total + List.length (games r))
              (S successful) rest
  | _ :: rest => counted completed total successful rest
  end.

Definition summary (d : CheckpointData) : list Json.json * nat * nat :=
  (cp_completed_providers d, cp_total_games_so_far d, cp_successful_providers d).

(** Sample inputs: a checkpoint left by an earlier run that completed one
    provider with ten games, and a web where every page is [sample_page]. *)
Definition earlier_checkpoint : CheckpointData :=
  {| cp_completed_providers := [Json.JStr (lit "Ace Roll")];
     cp_last_updated := lit "2025-01-01T10:00:00";
     cp_total_games_so_far := 10;
     cp_successful_providers := 1 |}.

Definition resumed_disk : Disk :=
  {| checkpoint_file := Some (checkpoint_text earlier_checkpoint);
     provider_files := provider_paths (lit "Ace Roll") |}.

Definition sample_env : Env :=
  {| browser := fun _ _ => sample_page;
     now := fun _ => lit "2025-01-02T09:30:00" |}.

Definition two_providers : list (str * str) :=
  [provider "Ace Roll" "Ace+Roll"; provider "All41" "All41"].

(** The providers a trace saved, oldest first. *)
Fixpoint saved_names (events : list Event) : list str :=
  match events with
  | [] => []
  | SaveProviderData n _ :: rest => n :: saved_names rest
  | _ :: rest => saved_names rest
  end.

(** Counting the events of one kind. *)
Definition is_skip (ev : Event) : bool :=
  match ev with Skipped _ => true | _ => false end.
Definition is_sweep (ev : Event) : bool :=
  match ev with CloseAllChrome => true | _ => false end.
Definition is_scrape (ev : Event) : bool :=
  match ev with Scrape _ _ => true | _ => false end.
Definition is_save (ev : Event) : bool :=
  match ev with SaveProviderData _ _ => true | _ => false end.
Definition is_checkpoint (ev : Event) : bool :=
  match ev with CheckpointSaved _ => true | _ => false end.
Definition is_sleep (ev : Event) : bool :=
  match ev with Sleep _ => true | _ => false end.

Definition count (kind : Event -> bool) (events : list Event) : nat :=
  List.length (filter kind events).

(** The events of a target in a run where no extraction succeeds. *)
Definition failed_attempt (loaded : list Json.json) (target : str * str)
    : list Event :=
  if is_completed (snd target) loaded
  then [Skipped (snd target)]
  else [CloseAllChrome; Scrape (fst target) (snd target); Sleep 5].

(** *** [close_all_chrome]

    A process as [psutil.process_iter(['pid', 'name'])] shows it: its name
    ([None] when the name could not be read) and whether [proc.kill()]
    raises for it. *)
Record Process := {
  pid : nat;
  process_name : option str;
  kill_raises : bool
}.

(** [c.lower()] for one of the first 256 code points. *)
Definition lower_char (c : ascii) : ascii :=
  let n := nat_of_ascii c in
  if ((65 <=? n) && (n <=? 90))
     || ((192 <=? n) && (n <=? 222) && negb (n =? 215))
  then ascii_of_nat (n + 32)
  else c.

Definition lower (s : str) : str := map lower_char s.

(** ['chrome' in proc.info['name'].lower()]; [None] when it raises. *)
Definition names_chrome (proc : Process) : option bool :=
  match process_name proc with
  | Some n => Some (Str.contains (lit "chrome") (lower n))
  | None => None
  end.

(** [close_all_chrome()]: the processes still there afterwards, and whether
    the two-second sleep was reached.  The first exception ends the loop
    (the handler is [pass]); what was not looked at yet stays. *)
Fixpoint close_all_chrome (procs : list Process) : list Process * bool :=
  match procs with
  | [] => ([], true)
  | proc :: rest =>
      match names_chrome proc with
      | None => (proc :: rest, false)
      | Some true =>
          if kill_raises proc then (proc :: rest, false)
          else close_all_chrome rest
      | Some false =>
          let '(others, slept) := close_all_chrome rest in
          (proc :: others, slept)
      end
  end.

(** The process is one the sweep leaves alone: its name was read and does
    not hold [chrome], or looking at it raises before any [kill]. *)
Definition spared (proc : Process) : bool :=
  match names_chrome proc with
  | Some true => false
  | _ => true
  end.

(** Looking at the process raises: its name cannot be read, or it names
    chrome and [proc.kill()] raises. *)
Definition raises (proc : Process) : bool :=
  match names_chrome proc with
  | None => true
  | Some true => kill_raises proc
  | Some false => false
  end.

(** The names of the three files of [save_provider_data] inside the
    directory of the provider. *)
Definition provider_file_names (provider_name : str) : list str :=
  [provider_name ++ lit "_games_data.txt";
   provider_name ++ lit "_games_data.json";
   provider_name ++ lit "_complete.html"].

(** Sample inputs: a page that does not load, and a web made of it. *)
Definition dead_page : Session :=
  {| navigate := Raise (lit "TimeoutException");
     load_more := fun _ => false;
     find_anchors := Ok [];
     page_source := Ok [] |}.

Definition dead_env : Env :=
  {| browser := fun _ _ => dead_page;
     now := fun _ => lit "2025-01-02T09:30:00" |}.

(** *** The whole call and the whole loop

    [scrape_single_provider] above is the [try]/[except] part of the
    function: what it returns once the driver exists.  The function itself
    creates the driver before the [try] and quits it in the [finally];
    either may raise, and then the call raises, and so does [main], which
    has no handler around it.  Writing the provider files and the
    checkpoint is taken to go through, as everywhere in this model. *)

(** [scrape_single_provider(provider_url, provider_name)] as a call:
    [started] is what [webdriver.Chrome()] does, [quit] what
    [driver.quit()] does. *)
Definition scrape_single_provider_call (started : outcome unit)
    (session : Session) (quit : outcome unit) : outcome ScrapeResult :=
  _ <- started ;;
  let result := scrape_single_provider session in
  _ <- quit ;;
  Ok result.

(** One call of [close_all_chrome]: the processes it found, those still
    there afterwards, and whether it got to its sleep. *)
Record Sweep := {
  seen : list Process;
  survivors : list Process;
  reached_sleep : bool
}.

Definition sweep (procs : list Process) : Sweep :=
  let '(after, slept) := close_all_chrome procs in
  {| seen := procs; survivors := after; reached_sleep := slept |}.

(** The machine a run is on: sessions and clock as in [Env], what starting
    and quitting the driver of iteration [i] does, and the processes
    [psutil.process_iter] shows to the sweep of iteration [i]. *)
Record Host := {
  sessions : Env;
  chrome_starts : nat -> str -> outcome unit;
  chrome_quits : nat -> str -> outcome unit;
  process_table : nat -> list Process
}.

Definition scrape_call (host : Host) (i : nat) (provider_url : str)
    : outcome ScrapeResult :=
  scrape_single_provider_call (chrome_starts host i provider_url)
    (browser (sessions host) i provider_url)
    (chrome_quits host i provider_url).

(** How [main] ends: it returns, or an exception leaves it. *)
Inductive Ending : Type :=
| Finished
| Uncaught (e : str).

Record Run := {
  state : RunState;
  sweeps : list Sweep;
  ending : Ending
}.

(** The loop of [main], with the sweeps it makes and the exception that may
    end it. *)
Fixpoint main_loop (host : Host) (i : nat) (targets : list (str * str))
    (st : RunState) (swept : list Sweep) : Run :=
  match targets with
  | [] => {| state := st; sweeps := swept; ending := Finished |}
  | (provider_url, provider_name) :: rest =>
      if is_completed provider_name (completed_providers st)
      then main_loop host (S i) rest (log [Skipped provider_name] st) swept
      else
        let swept := swept ++ [sweep (process_table host i)] in
        let st := log [CloseAllChrome; Scrape provider_url provider_name] st in
        match scrape_call host i provider_url with
        | Raise e => {| state := st; sweeps := swept; ending := Uncaught e |}
        | Ok result =>
            let st :=
              if success result
              then record_completion (sessions host) i provider_name result st
              else st in
            main_loop host (S i) rest (log [Sleep 5] st) swept
        end
  end.

Definition main_run (host : Host) (providers : list (str * str))
    (disk : Disk) : Run :=
  main_loop host 1 providers (start disk) [].

(** [main()] on a host. *)
Definition main_call (host : Host) (disk : Disk) : Run :=
  main_run host providers disk.

(** A checkpoint file that only runs of this program wrote: there is none,
    or it holds what a write of a checkpoint left, complete or cut short. *)
Definition own_checkpoint (disk : Disk) : Prop :=
  checkpoint_file disk = None \/
  exists data flushed,
    checkpoint_file disk = Some (firstn flushed (checkpoint_text data)).


(** Sample hosts: one where everything works and a chrome process is left
    from before; one where a process without a readable name comes first
    in the process list; one whose driver does not start. *)
Definition leftover_chrome : Process :=
  {| pid := 4242; process_name := Some (lit "chrome.exe");
     kill_raises := false |}.


Definition sample_host : Host :=
  {| sessions := sample_env;
     chrome_starts := fun _ _ => Ok tt;
     chrome_quits := fun _ _ => Ok tt;
     process_table := fun _ => [leftover_chrome] |}.


Definition no_driver_host : Host :=
  {| sessions := sample_env;
     chrome_starts := fun _ _ => Raise (lit "WebDriverException");
     chrome_quits := fun _ _ => Ok tt;
     process_table := fun _ => [] |}.

(** A listing with one broken anchor whose page source cannot be read. *)
Definition unreadable_page : Session :=
  {| navigate := Ok tt;
     load_more := fun n => n <? 2;
     find_anchors :=
       Ok [tile "Alpha" "https://cdn/a.png" "/game/alpha";
           broken_tile;
           tile "" "https://cdn/c.png" "/game/gamma"];
     page_source := Raise (lit "WebDriverException") |}.

End Scraper.

(* ================================================================== *)
(** * Properties *)
(* ================================================================== *)

(** ** Facts about [str.replace] *)

Module StrFacts.
Import Str.

Lemma is_prefix_app (p t : str) : is_prefix p (p ++ t) = true.
Proof.
  induction p as [|a p IH]; simpl; [reflexivity|].
  now rewrite Ascii.eqb_refl, IH.
Qed.

Lemma is_prefix_true (p s : str) :
  is_prefix p s = true -> s = p ++ skipn (List.length p) s.
Proof.
  revert s; induction p as [|a p IH]; intros [|b s] H; simpl in *;
    try reflexivity; try discriminate.
  apply andb_true_iff in H as [Hab Hp].
  apply Ascii.eqb_eq in Hab; subst b.
  now rewrite <- (IH _ Hp).
Qed.

Lemma is_prefix_iff (p s : str) :
  is_prefix p s = true <-> exists t, s = p ++ t.
Proof.
  split.
  - intros H. eexists. now apply is_prefix_true.
  - intros [t ->]. apply is_prefix_app.
Qed.

(** A match against [a ++ b] either lies inside [a] or runs over its end. *)
Lemma is_prefix_split (q a b : str) :
  is_prefix q (a ++ b) = true ->
  is_prefix q a = true \/
  (List.length a < List.length q /\
   q = a ++ skipn (List.length a) q /\
   is_prefix (skipn (List.length a) q) b = true).
Proof.
  revert a; induction q as [|x q IH]; intros a H.
  - now left.
  - destruct a as [|y a].
    + right. simpl. repeat split; [lia | exact H].
    + simpl in H. apply andb_true_iff in H as [Hxy Hq].
      apply Ascii.eqb_eq in Hxy; subst y.
      destruct (IH _ Hq) as [Hin | (Hlen & Heq & Hrest)].
      * left. simpl. now rewrite Ascii.eqb_refl.
      * right. simpl. repeat split; [lia | now rewrite <- Heq | exact Hrest].
Qed.

Lemma is_prefix_weaken (q a b : str) :
  is_prefix q a = true -> is_prefix q (a ++ b) = true.
Proof.
  intros H. apply is_prefix_iff in H as [t ->].
  rewrite <- app_assoc. apply is_prefix_app.
Qed.

(** Skipping is the same as restarting the scan further on. *)
Lemma replace_from_skip (old new : str) (k : nat) (s : str) :
  replace_from old new k s = replace_from old new 0 (skipn k s).
Proof.
  revert k; induction s as [|c s IH]; intros [|k]; simpl; try reflexivity.
  apply IH.
Qed.

Section NonEmptyPattern.
Variables old new : str.
Hypothesis old_nonempty : old <> [].

Lemma replace_nil : replace old new [] = [].
Proof. unfold replace. destruct old; [contradiction|reflexivity]. Qed.

Lemma replace_match (t : str) :
  replace old new (old ++ t) = new ++ replace old new t.
Proof.
  unfold replace. destruct old as [|a o]; [contradiction|].
  pose proof (is_prefix_app (a :: o) t) as Hp.
  rewrite <- app_comm_cons in *. cbn [replace_from]. rewrite Hp. f_equal.
  rewrite replace_from_skip. f_equal.
  replace (List.length (a :: o) - 1) with (List.length o)
    by (cbn [List.length]; lia).
  rewrite skipn_app, skipn_all, Nat.sub_diag. reflexivity.
Qed.

Lemma replace_nomatch (c : ascii) (s : str) :
  is_prefix old (c :: s) = false ->
  replace old new (c :: s) = c :: replace old new s.
Proof.
  unfold replace. destruct old as [|a o]; [contradiction|].
  intros H. cbn [replace_from]. now rewrite H.
Qed.

(** The scan, one step at a time. *)
Lemma replace_step (s : str) :
  (s = [] /\ replace old new s = []) \/
  (exists t, s = old ++ t /\ replace old new s = new ++ replace old new t) \/
  (exists c s', s = c :: s' /\ is_prefix old s = false /\
                replace old new s = c :: replace old new s').
Proof.
  destruct s as [|c s'].
  - left. split; [reflexivity | apply replace_nil].
  - destruct (is_prefix old (c :: s')) eqn:E.
    + right; left. apply is_prefix_iff in E as [t Ht].
      exists t. split; [exact Ht|]. rewrite Ht. apply replace_match.
    + right; right. exists c, s'.
      split; [reflexivity | split; [reflexivity | now apply replace_nomatch]].
Qed.

End NonEmptyPattern.

Lemma contains_cons_false (p : str) (c : ascii) (s : str) :
  contains p (c :: s) = false ->
  is_prefix p (c :: s) = false /\ contains p s = false.
Proof. simpl. intros H. now apply orb_false_iff in H. Qed.

(** No occurrence, no change. *)
Lemma replace_absent (old new s : str) :
  old <> [] -> contains old s = false -> replace old new s = s.
Proof.
  intros Hne. induction s as [|c s IH]; intros H.
  - now apply replace_nil.
  - apply contains_cons_false in H as [H1 H2].
    rewrite replace_nomatch by assumption. now rewrite IH.
Qed.

Lemma contains_occ (q t : str) :
  contains q t = true -> exists i, occ q i t.
Proof.
  induction t as [|c t IH]; simpl; intros H.
  - now exists 0.
  - apply orb_true_iff in H as [H|H].
    + now exists 0.
    + destruct (IH H) as [i Hi]. now exists (S i).
Qed.

Lemma occ_contains (q t : str) (i : nat) : occ q i t -> contains q t = true.
Proof.
  unfold occ. revert i; induction t as [|c t IH]; intros i H.
  - rewrite skipn_nil in H. exact H.
  - destruct i as [|i]; simpl in *.
    + now rewrite H.
    + rewrite (IH _ H). apply orb_true_r.
Qed.

Lemma occ_lt (q t : str) (i : nat) :
  q <> [] -> occ q i t -> i < List.length t.
Proof.
  unfold occ. intros Hq H.
  destruct (Nat.lt_ge_cases i (List.length t)) as [Hlt|Hge]; [exact Hlt|].
  rewrite skipn_all2 in H by exact Hge.
  destruct q; [contradiction | discriminate].
Qed.

Lemma not_occ_contains (q t : str) :
  (forall i, ~ occ q i t) -> contains q t = false.
Proof.
  intros H. destruct (contains q t) eqn:E; [|reflexivity].
  apply contains_occ in E as [i Hi]. now destruct (H i).
Qed.

Lemma is_prefix_clash (q a b : str) :
  is_prefix q (a ++ b) = true -> clash q a = true.
Proof.
  intros H. unfold clash.
  destruct (is_prefix_split q a b H) as [Hin | (_ & Heq & _)].
  - now rewrite Hin.
  - rewrite Heq at 2. rewrite is_prefix_app. apply orb_true_r.
Qed.

(** A match of [q] that starts before an inserted [r] ends before it. *)
Lemma occ_border (q r x y : str) (i : nat) :
  border_free q r = true ->
  i < List.length x ->
  occ q i (x ++ r ++ y) ->
  is_prefix q (skipn i x) = true.
Proof.
  unfold occ. intros border Hlt H.
  rewrite skipn_app in H.
  replace (i - List.length x) with 0 in H by lia. cbn [skipn] in H.
  destruct (is_prefix_split _ _ _ H) as [Hin | (Hlen & _ & Hrest)];
    [exact Hin|].
  exfalso.
  apply is_prefix_clash in Hrest.
  unfold border_free in border. rewrite forallb_forall in border.
  specialize (border (List.length (skipn i x))).
  rewrite Hrest in border.
  assert (Hin : In (List.length (skipn i x)) (seq 1 (List.length q - 1))).
  { apply in_seq. rewrite length_skipn in *. lia. }
  now specialize (border Hin).
Qed.

(** No match of [q] starts inside an inserted [r]. *)
Lemma occ_inner (q r y : str) (i : nat) :
  inner_free q r = true ->
  i < List.length r ->
  ~ occ q i (r ++ y).
Proof.
  unfold occ. intros inner Hlt H.
  rewrite skipn_app in H.
  replace (i - List.length r) with 0 in H by lia.
  cbn [skipn] in H. apply is_prefix_clash in H.
  unfold inner_free in inner. rewrite forallb_forall in inner.
  specialize (inner i). rewrite H in inner.
  assert (Hin : In i (seq 0 (List.length r))) by (apply in_seq; lia).
  now specialize (inner Hin).
Qed.

Lemma skipn_past (a t : str) (i : nat) :
  skipn (List.length a + i) (a ++ t) = skipn i t.
Proof.
  rewrite skipn_app, skipn_all2, app_nil_l by lia. f_equal. lia.
Qed.

(** Where no match straddles the seam, [replace] distributes over [++]. *)
Lemma replace_app (p r : str) (n : nat) : forall (x y : str),
  p <> [] ->
  List.length x <= n ->
  (forall i, i < List.length x -> occ p i (x ++ y) ->
             is_prefix p (skipn i x) = true) ->
  replace p r (x ++ y) = replace p r x ++ replace p r y.
Proof.
  induction n as [|n IH]; intros x y Hp Hn Hseam.
  - destruct x; [|simpl in Hn; lia]. now rewrite replace_nil.
  - destruct (replace_step r Hp x)
      as [[-> Hr] | [(t & -> & Hr) | (c & x' & -> & Hno & Hr)]];
      rewrite Hr.
    + reflexivity.
    + rewrite <- !app_assoc, replace_match by assumption. f_equal.
      apply IH; [assumption | |].
      * rewrite length_app in Hn. destruct p; [contradiction|].
        simpl in Hn. lia.
      * intros i Hi Hocc.
        specialize (Hseam (List.length p + i)).
        rewrite length_app in Hseam. unfold occ in *.
        rewrite <- app_assoc, !skipn_past in Hseam.
        apply Hseam; [lia | exact Hocc].
    + simpl. rewrite replace_nomatch; [|assumption|].
      * f_equal. apply IH; [assumption | simpl in Hn; lia |].
        intros i Hi Hocc. apply (Hseam (S i)); [simpl; lia | exact Hocc].
      * destruct (is_prefix p (c :: x' ++ y)) eqn:E; [|reflexivity].
        rewrite <- Hno. symmetry. apply (Hseam 0); [simpl; lia | exact E].
Qed.

(** A copy of [p] that cannot overlap itself is replaced on its own. *)
Lemma replace_occurrence (p r x y : str) :
  p <> [] ->
  border_free p p = true ->
  replace p r (x ++ p ++ y) = replace p r x ++ r ++ replace p r y.
Proof.
  intros Hp Hb.
  rewrite (@replace_app p r (List.length x)); [|assumption|lia|].
  - now rewrite replace_match.
  - intros i Hi Hocc. exact (occ_border _ _ _ Hb Hi Hocc).
Qed.

Section Insertion.
Variables q r : str.
Hypothesis inner : inner_free q r = true.
Hypothesis border : border_free q r = true.

(** A match of [q] that starts before the end of an inserted [r] lies
    wholly in the text before it. *)
Lemma occ_before_insert (x y : str) (i : nat) :
  i < List.length x + List.length r ->
  occ q i (x ++ r ++ y) ->
  i < List.length x /\ is_prefix q (skipn i x) = true.
Proof.
  intros Hi H.
  destruct (Nat.lt_ge_cases i (List.length x)) as [Hlt|Hge].
  - split; [exact Hlt | exact (occ_border _ _ _ border Hlt H)].
  - exfalso. apply (@occ_inner q r y (i - List.length x) inner); [lia|].
    unfold occ in *.
    now rewrite skipn_app, skipn_all2, app_nil_l in H by exact Hge.
Qed.

Variable p : str.
Hypothesis p_nonempty : p <> [].
Hypothesis q_nonempty : q <> [].

(** The scan of [replace p r] never lets a match of [q] appear in its
    output, as long as every match of [q] in the input is a match of [p]
    (so: [q = p], or an input free of [q]). *)
Lemma scan_invariant (n : nat) : forall (s pre : str),
  List.length s <= n ->
  (forall i, i < List.length pre -> ~ occ q i (pre ++ s)) ->
  (forall i, occ q i s -> occ p i s) ->
  contains q (pre ++ replace p r s) = false.
Proof.
  induction n as [|n IH]; intros s pre Hn Hpre Hsub.
  - destruct s; [|simpl in Hn; lia].
    rewrite replace_nil by assumption.
    apply not_occ_contains. intros i Hi.
    apply (Hpre i); [|exact Hi].
    rewrite app_nil_r in Hi. rewrite <- (app_nil_r pre).
    rewrite app_nil_r. now apply (occ_lt q_nonempty) in Hi.
  - destruct (replace_step r p_nonempty s)
      as [[-> Hr] | [(t & -> & Hr) | (c & s' & -> & Hno & Hr)]];
      rewrite Hr.
    + apply not_occ_contains. intros i Hi.
      pose proof (occ_lt q_nonempty Hi) as Hlt.
      rewrite app_nil_r in Hlt. now apply (Hpre i).
    + rewrite app_assoc. apply IH.
      * rewrite length_app in Hn. destruct p; [contradiction|].
        simpl in Hn. lia.
      * intros i Hi Hocc. rewrite length_app in Hi.
        rewrite <- app_assoc in Hocc.
        apply occ_before_insert in Hocc as [Hlt Hin]; [|exact Hi].
        apply (Hpre i Hlt). unfold occ.
        rewrite skipn_app. now apply is_prefix_weaken.
      * intros i Hi. unfold occ in *.
        specialize (Hsub (List.length p + i)).
        rewrite !skipn_app, !skipn_all2 in Hsub by lia.
        replace (List.length p + i - List.length p) with i in Hsub by lia.
        now apply Hsub.
    + change (pre ++ c :: replace p r s')
        with (pre ++ [c] ++ replace p r s').
      rewrite app_assoc. apply IH.
      * simpl in Hn. lia.
      * intros i Hi Hocc. rewrite length_app in Hi. simpl in Hi.
        rewrite <- app_assoc in Hocc. simpl in Hocc.
        destruct (Nat.eq_dec i (List.length pre)) as [->|Hne].
        -- unfold occ in Hocc.
           rewrite skipn_app, skipn_all, Nat.sub_diag in Hocc.
           simpl in Hocc.
           specialize (Hsub 0 Hocc). unfold occ in Hsub. simpl in Hsub.
           congruence.
        -- apply (Hpre i); [lia | exact Hocc].
      * intros i Hi. apply (Hsub (S i) Hi).
Qed.

Lemma replace_free (s : str) :
  (forall i, occ q i s -> occ p i s) ->
  contains q (replace p r s) = false.
Proof.
  intros H.
  apply (@scan_invariant (List.length s) s []); [lia | | exact H].
  simpl. intros i Hi. lia.
Qed.

End Insertion.

End StrFacts.

(** ** UrlNormalizer: [fix_image_url_quality] *)

Section UrlNormalizer.
Import Str StrFacts Fixer.

Lemma bad_quality_nonempty : bad_quality <> [].
Proof. discriminate. Qed.

Lemma good_pattern_nonempty : good_pattern <> [].
Proof. discriminate. Qed.

Example fix_bad_only :
  fix_image_url_quality (lit "https://x/cdn-cgi/image/quality=20,blur=150/a.png")
  = lit "https://x/cdn-cgi/image/quality=90,blur=0/a.png".
Proof. reflexivity. Qed.

Example fix_bad_chain :
  fix_image_url_quality (lit "width=195,height=260,quality=20,blur=150,fit=cover")
  = lit "width=400,height=600,quality=95,blur=0,fit=contain".
Proof. reflexivity. Qed.

(** The guard on the empty string changes nothing: the function is the
    two rules in sequence. *)
Lemma fix_image_url_quality_rules (url : str) :
  fix_image_url_quality url = rule2 (rule1 url).
Proof. destruct url; reflexivity. Qed.

Lemma rule1_removes_bad (u : str) : contains bad_quality (rule1 u) = false.
Proof.
  apply replace_free; try reflexivity; try discriminate. auto.
Qed.

Lemma rule2_removes_good_pattern (u : str) :
  contains good_pattern (rule2 u) = false.
Proof.
  apply replace_free; try reflexivity; try discriminate. auto.
Qed.

Lemma rule2_keeps_bad_out (u : str) :
  contains bad_quality u = false -> contains bad_quality (rule2 u) = false.
Proof.
  intros H. apply replace_free; try reflexivity; try discriminate.
  intros i Hi. apply occ_contains in Hi. congruence.
Qed.

Lemma fix_removes_bad (u : str) :
  contains bad_quality (fix_image_url_quality u) = false.
Proof.
  rewrite fix_image_url_quality_rules.
  apply rule2_keeps_bad_out, rule1_removes_bad.
Qed.

Lemma fix_removes_good_pattern (u : str) :
  contains good_pattern (fix_image_url_quality u) = false.
Proof.
  rewrite fix_image_url_quality_rules. apply rule2_removes_good_pattern.
Qed.

Lemma rule1_bad_occurrence (pre post : str) :
  rule1 (pre ++ bad_quality ++ post) = rule1 pre ++ good_quality ++ rule1 post.
Proof. apply replace_occurrence; [discriminate | reflexivity]. Qed.

Lemma rule1_good_pattern_occurrence (pre post : str) :
  rule1 (pre ++ good_pattern ++ post)
  = rule1 pre ++ good_pattern ++ rule1 post.
Proof.
  unfold rule1.
  rewrite (@replace_app _ _ (List.length pre));
    [| discriminate | lia |].
  - (* the scan runs through the literal without a match *)
    f_equal.
  - intros i Hi Hocc.
    apply (@occ_border bad_quality good_pattern pre post i);
      [reflexivity | exact Hi | exact Hocc].
Qed.

Lemma rule2_good_pattern_occurrence (pre post : str) :
  rule2 (pre ++ good_pattern ++ post) = rule2 pre ++ best_pattern ++ rule2 post.
Proof. apply replace_occurrence; [discriminate | reflexivity]. Qed.

(** C4 as written fails: a low-quality URL of the site's usual shape
    contains the bad pattern, yet its output holds no
    ["quality=90,blur=0"] at all, because the second rule rewrites the
    result of the first. *)
Lemma fix_image_url_quality_bad_becomes_best :
  let url := lit "width=195,height=260,quality=20,blur=150,fit=cover" in
  contains bad_quality url = true /\
  contains good_quality (fix_image_url_quality url) = false /\
  fix_image_url_quality url
  = lit "width=400,height=600,quality=95,blur=0,fit=contain".
Proof. repeat split. Qed.

(** C4 (amended): [fix_image_url_quality] is the function "rule 1, then
    rule 2".  Rule 1 rewrites an occurrence of ["quality=20,blur=150"] to
    ["quality=90,blur=0"]; the output is rule 2 applied to that, so the
    rewritten text is still ["quality=90,blur=0"] in the output when rule 1
    leaves no high-fidelity pattern behind, and the bad pattern never
    survives.  An occurrence of the high-fidelity pattern is upgraded to
    the 400x600, quality 95 pattern, a URL matching no rule is returned
    unchanged, and so is the empty string. *)
Theorem fix_image_url_quality_spec (pre post u : str) :
  let mid := rule1 pre ++ good_quality ++ rule1 post in
  fix_image_url_quality u = rule2 (rule1 u) /\
  rule1 (pre ++ bad_quality ++ post) = mid /\
  fix_image_url_quality (pre ++ bad_quality ++ post) = rule2 mid /\
  (contains good_pattern mid = false ->
   fix_image_url_quality (pre ++ bad_quality ++ post) = mid) /\
  contains bad_quality (fix_image_url_quality u) = false /\
  fix_image_url_quality (pre ++ good_pattern ++ post)
  = fix_image_url_quality pre ++ best_pattern ++ fix_image_url_quality post /\
  (contains bad_quality u = false -> contains good_pattern u = false ->
   fix_image_url_quality u = u) /\
  fix_image_url_quality [] = [].
Proof.
  intros mid.
  assert (Hmid : fix_image_url_quality (pre ++ bad_quality ++ post) = rule2 mid).
  { rewrite fix_image_url_quality_rules. f_equal. apply rule1_bad_occurrence. }
  split; [apply fix_image_url_quality_rules|].
  split; [apply rule1_bad_occurrence|].
  split; [exact Hmid|].
  split.
  { intros H. rewrite Hmid. apply replace_absent; [discriminate | exact H]. }
  split; [apply fix_removes_bad|].
  split.
  { rewrite !fix_image_url_quality_rules.
    rewrite rule1_good_pattern_occurrence.
    apply rule2_good_pattern_occurrence. }
  split; [|reflexivity].
  intros Hbad Hgood. rewrite fix_image_url_quality_rules.
  unfold rule1, rule2.
  rewrite (@replace_absent bad_quality good_quality u);
    [|discriminate|exact Hbad].
  apply replace_absent; [discriminate | exact Hgood].
Qed.

Lemma fix_image_url_quality_spec_witness :
  fix_image_url_quality (lit "https://cdn/i/quality=20,blur=150/a.png")
  = lit "https://cdn/i/quality=90,blur=0/a.png" /\
  fix_image_url_quality (lit "https://cdn/i/plain.png")
  = lit "https://cdn/i/plain.png".
Proof.
  destruct (fix_image_url_quality_spec
              (lit "https://cdn/i/") (lit "/a.png")
              (lit "https://cdn/i/plain.png"))
    as (_ & _ & _ & Hkeep & _ & _ & Hsame & _).
  split.
  - exact (Hkeep eq_refl).
  - exact (Hsame eq_refl eq_refl).
Defined.

(** C10: [fix_image_url_quality] is idempotent; its output holds neither
    search pattern, so a second pass finds nothing to rewrite. *)
Theorem fix_image_url_quality_idempotent (u : str) :
  contains bad_quality (fix_image_url_quality u) = false /\
  contains good_pattern (fix_image_url_quality u) = false /\
  fix_image_url_quality (fix_image_url_quality u) = fix_image_url_quality u.
Proof.
  pose proof (fix_removes_bad u) as Hbad.
  pose proof (fix_removes_good_pattern u) as Hgood.
  repeat split; try assumption.
  rewrite (fix_image_url_quality_rules (fix_image_url_quality u)).
  unfold rule1, rule2.
  rewrite (@replace_absent bad_quality good_quality (fix_image_url_quality u));
    [|discriminate|exact Hbad].
  apply replace_absent; [discriminate | exact Hgood].
Qed.

End UrlNormalizer.

(** ** PageExtractor: [scrape_single_provider] *)

Section PageExtractor.
Import Scraper.

Lemma load_more_loop_eq (budget : nat) (button : nat -> bool) (c : nat) :
  load_more_loop budget button c =
  if c <? SAFETY_LIMIT then
    match budget with
    | O => None
    | S budget' =>
        if button c then load_more_loop budget' button (S c) else Some c
    end
  else Some c.
Proof. destruct budget; reflexivity. Qed.

(** The counter only grows, and never past the limit. *)
Lemma load_more_loop_bound (button : nat -> bool) (budget : nat) :
  forall c n, load_more_loop budget button c = Some n ->
              c <= n /\ (n <= SAFETY_LIMIT \/ n = c).
Proof.
  induction budget as [|budget IH]; intros c n H;
    rewrite load_more_loop_eq in H;
    destruct (Nat.ltb_spec c SAFETY_LIMIT) as [Hlt|Hge];
    try discriminate;
    try (injection H as <-; split; [lia | now right]).
  destruct (button c).
  - apply IH in H as [Hle [Hn | ->]]; split; lia.
  - injection H as <-. split; [lia | now right].
Qed.

(** A budget that covers the distance to the limit is never exhausted. *)
Lemma load_more_loop_total (button : nat -> bool) (budget : nat) :
  forall c, SAFETY_LIMIT - c <= budget ->
            exists n, load_more_loop budget button c = Some n.
Proof.
  induction budget as [|budget IH]; intros c Hc;
    rewrite load_more_loop_eq;
    destruct (Nat.ltb_spec c SAFETY_LIMIT) as [Hlt|Hge];
    try (now eexists); try lia.
  destruct (button c); [|now eexists].
  apply IH. lia.
Qed.

(** With a button that is always there, the loop needs every one of the
    runs up to the limit. *)
Lemma load_more_loop_always (button : nat -> bool) (budget : nat) :
  (forall k, button k = true) ->
  forall c, c <= SAFETY_LIMIT ->
    load_more_loop budget button c =
    if SAFETY_LIMIT - c <=? budget then Some SAFETY_LIMIT else None.
Proof.
  intros Hb. induction budget as [|budget IH]; intros c Hc;
    rewrite load_more_loop_eq;
    destruct (Nat.ltb_spec c SAFETY_LIMIT) as [Hlt|Hge].
  - destruct (Nat.leb_spec (SAFETY_LIMIT - c) 0); [lia | reflexivity].
  - assert (c = SAFETY_LIMIT) as -> by lia. reflexivity.
  - rewrite Hb, IH by lia.
    destruct (Nat.leb_spec (SAFETY_LIMIT - S c) budget),
             (Nat.leb_spec (SAFETY_LIMIT - c) (S budget));
      try reflexivity; lia.
  - assert (c = SAFETY_LIMIT) as -> by lia.
    now rewrite Nat.sub_diag.
Qed.

Lemma click_load_more_spec (button : nat -> bool) :
  load_more_loop SAFETY_LIMIT button 0 = Some (click_load_more button) /\
  click_load_more button <= SAFETY_LIMIT.
Proof.
  unfold click_load_more.
  destruct (@load_more_loop_total button SAFETY_LIMIT 0) as [n Hn]; [lia|].
  rewrite Hn. split; [reflexivity|].
  apply load_more_loop_bound in Hn. lia.
Qed.

(** C3: the expansion loop ends within 50 runs of its body whatever the
    page does; when the control is found every time it clicks exactly 50
    times (49 runs are not enough, 50 are); and the [click_count] of the
    returned result lies between 0 and 50. *)
Theorem expansion_bound (session : Session) :
  (exists n, load_more_loop 50 (load_more session) 0 = Some n /\ n <= 50) /\
  ((forall k, load_more session k = true) ->
   load_more_loop 50 (load_more session) 0 = Some 50 /\
   load_more_loop 49 (load_more session) 0 = None /\
   click_load_more (load_more session) = 50) /\
  0 <= click_count (scrape_single_provider session) <= 50.
Proof.
  pose proof (click_load_more_spec (load_more session)) as [Hrun Hle].
  split; [|split].
  - exists (click_load_more (load_more session)). now split.
  - intros Hb.
    assert (H0 : 0 <= SAFETY_LIMIT) by apply Nat.le_0_l.
    pose proof (@load_more_loop_always _ 50 Hb 0 H0) as H50.
    pose proof (@load_more_loop_always _ 49 Hb 0 H0) as H49.
    unfold click_load_more. change SAFETY_LIMIT with 50 in *.
    rewrite H50, H49. repeat split.
  - split; [lia|].
    unfold scrape_single_provider.
    destruct (navigate session); [|simpl; lia].
    destruct (find_anchors session); [|simpl; lia].
    destruct (page_source session); simpl; [exact Hle | lia].
Qed.

Lemma expansion_bound_witness :
  load_more_loop 50 (load_more stuck_page) 0 = Some 50 /\
  load_more_loop 49 (load_more stuck_page) 0 = None /\
  click_load_more (load_more stuck_page) = 50.
Proof.
  apply (expansion_bound stuck_page). reflexivity.
Defined.

(** *** The harvest *)

Lemma extract_game_ok (i : nat) (a : Anchor) (g : Game) :
  extract_game i a = Ok g -> index g = i /\ anchor_ok a = true.
Proof.
  unfold anchor_ok, extract_game, bind.
  destruct (img a) as [im|]; [|discriminate].
  destruct (alt im); [|discriminate].
  destruct (src im); [|discriminate].
  destruct (href a); [|discriminate].
  intros H. injection H as <-. now split.
Qed.

Lemma extract_game_raise (i : nat) (a : Anchor) (e : str) :
  extract_game i a = Raise e -> anchor_ok a = false.
Proof.
  unfold anchor_ok, extract_game, bind.
  destruct (img a) as [im|]; [|reflexivity].
  destruct (alt im); [|reflexivity].
  destruct (src im); [|reflexivity].
  destruct (href a); [discriminate | reflexivity].
Qed.

Lemma extract_games_app (l1 l2 : list Anchor) :
  forall i, extract_games i (l1 ++ l2)
            = extract_games i l1 ++ extract_games (i + List.length l1) l2.
Proof.
  induction l1 as [|a l1 IH]; intros i; simpl.
  - now rewrite Nat.add_0_r.
  - rewrite IH, <- Nat.add_succ_comm.
    now destruct (extract_game i a).
Qed.

Lemma extract_games_all_ok (l : list Anchor) :
  forallb anchor_ok l = true ->
  forall i, map index (extract_games i l) = seq i (List.length l).
Proof.
  induction l as [|a l IH]; intros Hok i; simpl in *; [reflexivity|].
  apply andb_true_iff in Hok as [Ha Hl].
  destruct (extract_game i a) as [g|e] eqn:E.
  - apply extract_game_ok in E as [E _]. simpl. now rewrite E, IH.
  - apply extract_game_raise in E. congruence.
Qed.

(** Every record that is returned is the extraction of the anchor at the
    position its index names. *)
Lemma extract_games_sound (l : list Anchor) :
  forall i g, In g (extract_games i l) ->
    i <= index g /\
    exists a, nth_error l (index g - i) = Some a /\
              extract_game (index g) a = Ok g.
Proof.
  induction l as [|a l IH]; intros i g Hin; simpl in Hin; [contradiction|].
  assert (Hrest : In g (extract_games (S i) l) ->
                  i <= index g /\
                  exists a0, nth_error (a :: l) (index g - i) = Some a0 /\
                             extract_game (index g) a0 = Ok g).
  { intros H. apply IH in H as (Hle & a0 & Hnth & Hex).
    split; [lia|]. exists a0. split; [|exact Hex].
    replace (index g - i) with (S (index g - S i)) by lia. exact Hnth. }
  destruct (extract_game i a) as [g0|e] eqn:E; [|now apply Hrest].
  destruct Hin as [Heq | Hin]; [subst g0|now apply Hrest].
  pose proof (extract_game_ok _ _ E) as [Hi _].
  rewrite Hi, Nat.sub_diag. split; [lia|]. exists a. now split.
Qed.

(** C6 as written fails: two of the three anchors are extracted and the one
    in the middle raises, yet the result holds no record and [success] is
    false, because reading the page source after the harvest raises and the
    outer handler returns the failure result. *)
Lemma harvest_lost_with_page_source :
  let result := scrape_single_provider unreadable_page in
  navigate unreadable_page = Ok tt /\
  (exists anchors, find_anchors unreadable_page = Ok anchors /\
                   map anchor_ok anchors = [true; false; true]) /\
  success result = false /\
  games result = [] /\
  error result = Some (lit "WebDriverException").
Proof.
  repeat split. eexists. split; reflexivity.
Qed.

(** C6 (amended): when the page loads, the container is found and exactly
    one anchor (number [M], counting from 1) raises during its extraction,
    the harvest holds the other [N - 1] anchors' records, in order, each
    under its own 1-based position.  The result carries this harvest with
    [success] true if the read of the page source that follows also goes
    through; if that read raises, the outer handler drops the harvest: the
    result has [success] false and no record.  Either way this result is
    what the call returns, whenever it returns. *)
Theorem partial_harvest (session : Session)
    (before after : list Anchor) (failing : Anchor) :
  let anchors := before ++ failing :: after in
  let N := List.length anchors in
  let M := S (List.length before) in
  let result := scrape_single_provider session in
  navigate session = Ok tt ->
  find_anchors session = Ok anchors ->
  forallb anchor_ok before = true ->
  anchor_ok failing = false ->
  forallb anchor_ok after = true ->
  (forall snapshot,
     page_source session = Ok snapshot ->
     success result = true /\
     List.length (games result) = N - 1 /\
     map index (games result) = seq 1 (M - 1) ++ seq (S M) (N - M) /\
     (forall g, In g (games result) ->
        index g <> M /\
        exists a, nth_error anchors (index g - 1) = Some a /\
                  extract_game (index g) a = Ok g)) /\
  (forall e,
     page_source session = Raise e ->
     success result = false /\
     error result = Some e /\
     games result = []) /\
  (forall started quit returned,
     scrape_single_provider_call started session quit = Ok returned ->
     returned = result).
Proof.
  intros anchors N M result Hnav Hfind Hb Hf Ha.
  split; [|split].
  - intros snapshot Hsrc.
    assert (Hgames : games result = extract_games 1 anchors
                     /\ success result = true).
    { unfold result, scrape_single_provider. now rewrite Hnav, Hfind, Hsrc. }
    destruct Hgames as [Hgames Hsucc].
    assert (Hidx : map index (games result)
                   = seq 1 (M - 1) ++ seq (S M) (N - M)).
    { rewrite Hgames. unfold anchors. rewrite extract_games_app. simpl.
      destruct (extract_game (S (List.length before)) failing) as [g|e] eqn:E.
      - apply extract_game_ok in E as [_ E]. congruence.
      - rewrite map_app, !extract_games_all_ok by assumption.
        unfold N, M, anchors. rewrite length_app. simpl.
        f_equal; f_equal; lia. }
    split; [exact Hsucc|]. split; [|split; [exact Hidx|]].
    + rewrite <- (length_map index), Hidx, length_app, !length_seq.
      unfold N, M, anchors. rewrite length_app. simpl. lia.
    + intros g Hg. split.
      * apply (in_map index) in Hg. rewrite Hidx in Hg.
        apply in_app_or in Hg as [Hg|Hg]; apply in_seq in Hg; unfold M in *; lia.
      * rewrite Hgames in Hg. now apply extract_games_sound in Hg.
  - intros e Hsrc. unfold result, scrape_single_provider.
    rewrite Hnav, Hfind, Hsrc. now repeat split.
  - intros started quit returned H.
    unfold scrape_single_provider_call, bind in H.
    destruct started; [|discriminate]. destruct quit; [|discriminate].
    now injection H as <-.
Qed.

Lemma partial_harvest_witness :
  success (scrape_single_provider sample_page) = true /\
  List.length (games (scrape_single_provider sample_page)) = 2 /\
  map index (games (scrape_single_provider sample_page)) = [1; 3].
Proof.
  destruct (@partial_harvest sample_page
              [tile "Alpha" "https://cdn/a.png" "/game/alpha"]
              [tile "" "https://cdn/c.png" "/game/gamma"]
              broken_tile
              eq_refl eq_refl eq_refl eq_refl eq_refl)
    as (Hok & _).
  destruct (Hok (lit "<html></html>") eq_refl) as (Hsuccess & Hlen & Hidx & _).
  exact (conj Hsuccess (conj Hlen Hidx)).
Defined.

Example sample_page_games :
  map name (games (scrape_single_provider sample_page))
  = [lit "Alpha"; lit "Game 3"] /\
  click_count (scrape_single_provider sample_page) = 2.
Proof. split; reflexivity. Qed.

End PageExtractor.

(** ** AssetFetchPipeline: [process_provider_with_fixed_urls] *)

Section AssetFetchPipeline.
Import Fixer.

Variable web : Web.
Variables provider_name provider_dir : str.

Let step := process_game web provider_name provider_dir.
Let run := process_games web provider_name provider_dir.

Lemma process_games_app (l1 l2 : list GameEntry) :
  forall i p, run i (l1 ++ l2) p = run (i + List.length l1) l2 (run i l1 p).
Proof.
  induction l1 as [|g l1 IH]; intros i p; simpl.
  - now rewrite Nat.add_0_r.
  - unfold run in *. simpl. now rewrite IH, Nat.add_succ_comm.
Qed.

(** A record without an image URL leaves every loop variable alone. *)
Lemma process_game_no_url (i : nat) (game : GameEntry) (p : Progress) :
  has_image_url game = false -> step i game p = p.
Proof.
  unfold step, process_game, has_image_url.
  now destruct (get (entry_image_url game) []).
Qed.

(** A record with an image URL is appended whatever the download did. *)
Lemma process_game_appends (i : nat) (game : GameEntry) (p : Progress) :
  has_image_url game = true ->
  processed_games (step i game p)
  = processed_games p ++ [asset_for provider_name provider_dir i game].
Proof.
  unfold step, process_game, has_image_url.
  destruct (get (entry_image_url game) []) eqn:E; [discriminate|]. intros _.
  destruct (path_exists _ _); [reflexivity|].
  unfold download_and_convert_image. now destruct (web _ _).
Qed.

Lemma process_games_processed (games : list GameEntry) :
  forall i p,
    processed_games (run i games p)
    = processed_games p
      ++ map (fun ig => asset_for provider_name provider_dir (fst ig) (snd ig))
           (filter (fun ig => has_image_url (snd ig))
                   (combine (seq i (List.length games)) games)).
Proof.
  induction games as [|g games IH]; intros i p; simpl.
  - now rewrite app_nil_r.
  - unfold run in *. simpl. rewrite IH.
    destruct (has_image_url g) eqn:E.
    + fold step. rewrite process_game_appends by exact E.
      now rewrite <- app_assoc.
    + fold step. now rewrite process_game_no_url by exact E.
Qed.

(** The step for a record whose file is already there. *)
Lemma process_game_existing (i : nat) (game : GameEntry) (p : Progress) :
  has_image_url game = true ->
  path_exists (world p)
    (local_path (asset_for provider_name provider_dir i game)) = true ->
  world (step i game p) = world p /\
  successful_downloads (step i game p) = S (successful_downloads p) /\
  processed_games (step i game p)
  = processed_games p ++ [asset_for provider_name provider_dir i game].
Proof.
  unfold step, process_game, has_image_url.
  destruct (get (entry_image_url game) []) eqn:E; [discriminate|].
  intros _ Hex. now rewrite Hex.
Qed.

(** The step for a record whose download raises. *)
Lemma process_game_failed (i : nat) (game : GameEntry) (p : Progress) (e : str) :
  let asset := asset_for provider_name provider_dir i game in
  has_image_url game = true ->
  path_exists (world p) (local_path asset) = false ->
  web (requests (world p)) (fixed_url asset) = Raise e ->
  requests (world (step i game p)) = requests (world p) ++ [fixed_url asset] /\
  disk (world (step i game p)) = disk (world p) /\
  successful_downloads (step i game p) = successful_downloads p /\
  processed_games (step i game p) = processed_games p ++ [asset].
Proof.
  intros asset. unfold step, process_game, has_image_url.
  destruct (get (entry_image_url game) []) eqn:E; [discriminate|].
  intros _ Hex Hweb. fold asset. rewrite Hex.
  unfold download_and_convert_image. now rewrite Hweb.
Qed.

(** The step for a record whose download goes through. *)
Lemma process_game_fetched (i : nat) (game : GameEntry) (p : Progress) :
  let asset := asset_for provider_name provider_dir i game in
  has_image_url game = true ->
  path_exists (world p) (local_path asset) = false ->
  web (requests (world p)) (fixed_url asset) = Ok tt ->
  requests (world (step i game p)) = requests (world p) ++ [fixed_url asset] /\
  disk (world (step i game p)) = local_path asset :: disk (world p) /\
  successful_downloads (step i game p) = S (successful_downloads p) /\
  processed_games (step i game p) = processed_games p ++ [asset].
Proof.
  intros asset. unfold step, process_game, has_image_url.
  destruct (get (entry_image_url game) []) eqn:E; [discriminate|].
  intros _ Hex Hweb. fold asset. rewrite Hex.
  unfold download_and_convert_image. now rewrite Hweb.
Qed.

End AssetFetchPipeline.

Section AssetFetchClaims.
Import Fixer.

Lemma process_provider_unfold (web : Web) (provider_name : str)
    (games : list GameEntry) (w : World) :
  games <> [] ->
  let provider_dir := path_join (lit "Final_Quality_Fixed") provider_name in
  process_provider_with_fixed_urls web provider_name (Ok games) w
  = process_games web provider_name provider_dir 1 games
      (initial_progress (makedirs provider_dir w)).
Proof. destruct games; [contradiction | reflexivity]. Qed.

(** C5: a record with an image URL whose derived path exists when its turn
    comes costs no HTTP request (the request log and the disk are the same
    after its step as before), is counted as successful, and gets its
    [FetchedAsset] entry appended; the loop then goes on with the next
    record. *)
Theorem fetch_idempotence (web : Web) (provider_name : str)
    (before after : list GameEntry) (game : GameEntry) (w : World) :
  let provider_dir := path_join (lit "Final_Quality_Fixed") provider_name in
  let i := S (List.length before) in
  let asset := asset_for provider_name provider_dir i game in
  let p1 := process_games web provider_name provider_dir 1 before
              (initial_progress (makedirs provider_dir w)) in
  let p2 := process_game web provider_name provider_dir i game p1 in
  has_image_url game = true ->
  path_exists (world p1) (local_path asset) = true ->
  process_provider_with_fixed_urls web provider_name
    (Ok (before ++ game :: after)) w
  = process_games web provider_name provider_dir (S i) after p2 /\
  requests (world p2) = requests (world p1) /\
  disk (world p2) = disk (world p1) /\
  successful_downloads p2 = S (successful_downloads p1) /\
  processed_games p2 = processed_games p1 ++ [asset] /\
  In asset
     (processed_games
        (process_provider_with_fixed_urls web provider_name
           (Ok (before ++ game :: after)) w)).
Proof.
  intros provider_dir i asset p1 p2 Hurl Hex.
  assert (Hrun : process_provider_with_fixed_urls web provider_name
                   (Ok (before ++ game :: after)) w
                 = process_games web provider_name provider_dir (S i) after p2).
  { rewrite process_provider_unfold by (now destruct before).
    fold provider_dir. rewrite process_games_app. reflexivity. }
  destruct (process_game_existing web provider_name provider_dir i game p1
              Hurl Hex) as (Hworld & Hcount & Hlist).
  fold p2 in Hworld, Hcount, Hlist.
  split; [exact Hrun|].
  split; [now rewrite Hworld|].
  split; [now rewrite Hworld|].
  split; [exact Hcount|].
  split; [exact Hlist|].
  rewrite Hrun, process_games_processed, Hlist.
  apply in_or_app. left. apply in_or_app. right. now left.
Qed.

Lemma fetch_idempotence_witness :
  let p := process_provider_with_fixed_urls live_web (lit "Acme")
             (Ok [sample_game]) fetched_world in
  requests (world p) = [] /\
  successful_downloads p = 1 /\
  map local_path (processed_games p)
  = [lit "Final_Quality_Fixed/Acme/Acme - Big Bass.webp"].
Proof.
  destruct (@fetch_idempotence live_web (lit "Acme") [] [] sample_game
              fetched_world eq_refl eq_refl)
    as (_ & Hreq & _ & Hcount & Hlist & _).
  split; [exact Hreq | split; [exact Hcount|]].
  exact (f_equal (map local_path) Hlist).
Defined.

(** C7 as written fails: with a server that answers nothing the download
    of the only record raises, the request was made, nothing is counted as
    successful, and the record's entry is in the returned list all the
    same. *)
Lemma failed_download_still_listed :
  let p := process_provider_with_fixed_urls dead_web (lit "Acme")
             (Ok [sample_game]) no_files in
  requests (world p) = [lit "https://cdn/i/quality=90,blur=0/bass.png"] /\
  successful_downloads p = 0 /\
  map game_title (processed_games p) = [lit "Big Bass"].
Proof. repeat split. Qed.

(** C7 (amended): an exception during the fetch, decode or encode of a
    record's image is caught inside [download_and_convert_image]; the record
    is not counted as successful, and its [FetchedAsset] entry is appended
    like everyone else's.  The returned list holds exactly one entry for
    every record with a non-empty image URL, in order, whatever the server
    and the disk do. *)
Theorem asset_records_always_appended (web : Web) (provider_name : str)
    (games : list GameEntry) (w : World) :
  let provider_dir := path_join (lit "Final_Quality_Fixed") provider_name in
  processed_games
    (process_provider_with_fixed_urls web provider_name (Ok games) w)
  = map (fun ig => asset_for provider_name provider_dir (fst ig) (snd ig))
      (filter (fun ig => has_image_url (snd ig))
              (combine (seq 1 (List.length games)) games)) /\
  (forall (i : nat) (game : GameEntry) (p : Progress) (e : str),
     let asset := asset_for provider_name provider_dir i game in
     let p' := process_game web provider_name provider_dir i game p in
     has_image_url game = true ->
     path_exists (world p) (local_path asset) = false ->
     web (requests (world p)) (fixed_url asset) = Raise e ->
     successful_downloads p' = successful_downloads p /\
     processed_games p' = processed_games p ++ [asset]).
Proof.
  intros provider_dir. split.
  - destruct games as [|g games]; [reflexivity|].
    rewrite process_provider_unfold by discriminate.
    now rewrite process_games_processed.
  - intros i game p e asset p' Hurl Hex Hweb.
    destruct (@process_game_failed web provider_name provider_dir i game p e
                Hurl Hex Hweb) as (_ & _ & Hcount & Hlist).
    now split.
Qed.

Lemma asset_records_always_appended_witness :
  let p := process_game dead_web (lit "Acme") (lit "Final_Quality_Fixed/Acme")
             1 sample_game (initial_progress no_files) in
  successful_downloads p = 0 /\
  map game_title (processed_games p) = [lit "Big Bass"].
Proof.
  destruct (asset_records_always_appended dead_web (lit "Acme")
              [sample_game] no_files) as [_ Hstep].
  destruct (Hstep 1 sample_game (initial_progress no_files)
              (lit "ConnectionError") eq_refl eq_refl eq_refl)
    as [Hcount Hlist].
  split; [exact Hcount | exact (f_equal (map game_title) Hlist)].
Defined.

End AssetFetchClaims.

(** ** Running the model *)

Section Runs.
Import Scraper.

Example sanitize_filename_sample :
  Fixer.sanitize_filename (lit "  Big   Bass: Bonanza?. ")
  = lit "Big Bass_ Bonanza_".
Proof. reflexivity. Qed.

Example path_join_sample :
  Fixer.path_join (Fixer.path_join (lit "Final_Quality_Fixed") (lit "Acme"))
                  (Fixer.file_name_for (lit "Acme") (lit "Big Bass"))
  = lit "Final_Quality_Fixed/Acme/Acme - Big Bass.webp".
Proof. reflexivity. Qed.

Example run_sample :
  trace (run_batch sample_env two_providers resumed_disk)
  = [Skipped (lit "Ace Roll");
     CloseAllChrome;
     Scrape (fst (provider "All41" "All41")) (lit "All41");
     SaveProviderData (lit "All41") (scrape_single_provider sample_page);
     CheckpointSaved
       {| cp_completed_providers :=
            [Json.JStr (lit "Ace Roll"); Json.JStr (lit "All41")];
          cp_last_updated := lit "2025-01-02T09:30:00";
          cp_total_games_so_far := 2;
          cp_successful_providers := 1 |};
     Sleep 5].
Proof. vm_compute. reflexivity. Qed.

Example earlier_checkpoint_reads_back :
  Json.loads (checkpoint_text earlier_checkpoint)
  = Some (checkpoint_json earlier_checkpoint).
Proof. vm_compute. reflexivity. Qed.

Example load_earlier : load_checkpoint resumed_disk = [Json.JStr (lit "Ace Roll")].
Proof. vm_compute. reflexivity. Qed.

End Runs.

(** ** BatchOrchestrator: the loop of [main] *)

Section BatchOrchestrator.
Import Scraper.

Lemma str_eqb_eq (a b : str) : Str.eqb a b = true <-> a = b.
Proof.
  revert b; induction a as [|x a IH]; intros [|y b]; simpl;
    try (split; [discriminate | discriminate]); [tauto|].
  rewrite andb_true_iff, Ascii.eqb_eq, IH.
  split; [intros [-> ->]; reflexivity | intros H; injection H; auto].
Qed.

Lemma str_eqb_refl (a : str) : Str.eqb a a = true.
Proof. now apply str_eqb_eq. Qed.

Variable env : Env.

(** The three ways through the loop body. *)
Lemma visit_cases (i : nat) (url name : str) (st : RunState) :
  let result := scrape_single_provider (browser env i url) in
  let attempted := log [CloseAllChrome; Scrape url name] st in
  (is_completed name (completed_providers st) = true /\
   visit env i (url, name) st = log [Skipped name] st) \/
  (is_completed name (completed_providers st) = false /\
   success result = false /\
   visit env i (url, name) st = log [Sleep 5] attempted) \/
  (is_completed name (completed_providers st) = false /\
   success result = true /\
   visit env i (url, name) st
   = log [Sleep 5] (record_completion env i name result attempted)).
Proof.
  intros result attempted. unfold visit.
  destruct (is_completed name (completed_providers st)); [now left|].
  right. fold result. destruct (success result); [right | left]; now split.
Qed.

Lemma visit_all_app (l1 l2 : list (str * str)) :
  forall i st, visit_all env i (l1 ++ l2) st
               = visit_all env (i + List.length l1) l2 (visit_all env i l1 st).
Proof.
  induction l1 as [|t l1 IH]; intros i st; simpl.
  - now rewrite Nat.add_0_r.
  - now rewrite IH, Nat.add_succ_comm.
Qed.

(** Nothing is ever removed from the trace. *)
Lemma visit_trace_grows (i : nat) (target : str * str) (st : RunState) :
  exists events, trace (visit env i target st) = trace st ++ events.
Proof.
  destruct target as [url name].
  destruct (visit_cases i url name st) as [[_ ->] | [(_ & _ & ->) | (_ & _ & ->)]];
    simpl; rewrite <- ?app_assoc; eexists; reflexivity.
Qed.

Lemma visit_all_trace_grows (targets : list (str * str)) :
  forall i st, exists events,
    trace (visit_all env i targets st) = trace st ++ events.
Proof.
  induction targets as [|t targets IH]; intros i st; simpl.
  - exists []. now rewrite app_nil_r.
  - destruct (IH (S i) (visit env i t st)) as [ev2 ->].
    destruct (visit_trace_grows i t st) as [ev1 ->].
    exists (ev1 ++ ev2). now rewrite app_assoc.
Qed.

(** *** Resume *)

Section Resume.
Variable name : str.

(** One target, seen from a provider that is already completed. *)
Lemma visit_completed (i : nat) (target : str * str) (st : RunState) :
  is_completed name (completed_providers st) = true ->
  let st' := visit env i target st in
  is_completed name (completed_providers st') = true /\
  filter (processes name) (trace st') = filter (processes name) (trace st) /\
  filter (is_name name) (completed_providers st')
  = filter (is_name name) (completed_providers st) /\
  (snd target = name -> trace st' = trace st ++ [Skipped name]).
Proof.
  intros Hdone st'. subst st'. destruct target as [url n].
  assert (Hother : is_completed n (completed_providers st) = false ->
                   Str.eqb name n = false).
  { intros Hn. destruct (Str.eqb name n) eqn:E; [|reflexivity].
    apply str_eqb_eq in E. subst n. congruence. }
  destruct (visit_cases i url n st)
    as [[Hn ->] | [(Hn & _ & ->) | (Hn & _ & ->)]]; simpl.
  - repeat split; try assumption.
    + rewrite filter_app. simpl. now rewrite app_nil_r.
    + now intros <-.
  - specialize (Hother Hn).
    repeat split; try assumption.
    + rewrite <- app_assoc, filter_app. simpl. rewrite Hother.
      now rewrite app_nil_r.
    + intros <-. now rewrite str_eqb_refl in Hother.
  - specialize (Hother Hn).
    repeat split.
    + unfold is_completed in *. rewrite existsb_app, Hdone. reflexivity.
    + rewrite <- !app_assoc, filter_app. simpl. rewrite Hother.
      now rewrite app_nil_r.
    + rewrite filter_app. simpl. rewrite Hother. now rewrite app_nil_r.
    + intros <-. now rewrite str_eqb_refl in Hother.
Qed.

Lemma visit_all_completed (targets : list (str * str)) :
  forall i st,
    is_completed name (completed_providers st) = true ->
    let st' := visit_all env i targets st in
    is_completed name (completed_providers st') = true /\
    filter (processes name) (trace st') = filter (processes name) (trace st) /\
    filter (is_name name) (completed_providers st')
    = filter (is_name name) (completed_providers st) /\
    (forall url, In (url, name) targets -> In (Skipped name) (trace st')).
Proof.
  induction targets as [|t targets IH]; intros i st Hdone; simpl.
  - repeat split; try assumption. intros url [].
  - destruct (visit_completed i t st Hdone) as (Hdone1 & Htr1 & Hcp1 & Hskip1).
    destruct (IH (S i) _ Hdone1) as (Hdone2 & Htr2 & Hcp2 & Hskip2).
    repeat split; try congruence.
    intros url [-> | Hin]; [|now apply (Hskip2 url)].
    destruct (visit_all_trace_grows targets (S i) (visit env i (url, name) st))
      as [events ->].
    rewrite (Hskip1 eq_refl). apply in_or_app. left.
    apply in_or_app. right. now left.
Qed.

End Resume.


(** *** Counters *)

Lemma counted_app (a b : list Event) :
  forall c t s,
    counted c t s (a ++ b)
    = let '(c', t', s') := counted c t s a in counted c' t' s' b.
Proof.
  induction a as [|ev a IH]; intros c t s; simpl; [reflexivity|].
  destruct ev; apply IH.
Qed.

Lemma tally_app (a b : list Event) :
  forall c t s,
    tally c t s (a ++ b)
    = tally c t s a ++ let '(c', t', s') := counted c t s a in tally c' t' s' b.
Proof.
  induction a as [|ev a IH]; intros c t s; simpl; [reflexivity|].
  destruct ev; simpl; try apply IH. now rewrite IH.
Qed.

Lemma checkpoints_app (a b : list Event) :
  checkpoints (a ++ b) = checkpoints a ++ checkpoints b.
Proof.
  induction a as [|ev a IH]; simpl; [reflexivity|].
  destruct ev; simpl; now rewrite ?IH.
Qed.

Section Counters.
Variable loaded : list Json.json.
Variable file0 : option str.

(** What stays true of the loop variables, the trace and the checkpoint
    file all along a run. *)
Let consistent (st : RunState) : Prop :=
  counted loaded 0 0 (trace st)
  = (completed_providers st, total_games st, successful_providers st) /\
  map summary (checkpoints (trace st)) = tally loaded 0 0 (trace st) /\
  checkpoint_file (disk st)
  = match List.rev (checkpoints (trace st)) with
    | [] => file0
    | latest :: _ => Some (checkpoint_text latest)
    end.

Lemma visit_consistent (i : nat) (target : str * str) (st : RunState) :
  consistent st -> consistent (visit env i target st).
Proof.
  intros (Hc & Ht & Hf). destruct target as [url name].
  destruct (visit_cases i url name st)
    as [[_ ->] | [(_ & _ & ->) | (_ & _ & ->)]];
    unfold consistent; cbn -[checkpoint_text firstn List.length];
    rewrite <- ?app_assoc, ?counted_app, ?tally_app, ?checkpoints_app, ?Hc;
    cbn -[checkpoint_text firstn List.length]; rewrite ?app_nil_r.
  - now repeat split.
  - now repeat split.
  - repeat split.
    + rewrite map_app, Ht. reflexivity.
    + rewrite rev_app_distr. cbn -[checkpoint_text firstn List.length].
      now rewrite firstn_all.
Qed.

Lemma visit_all_consistent (targets : list (str * str)) :
  forall i st, consistent st -> consistent (visit_all env i targets st).
Proof.
  induction targets as [|t targets IH]; intros i st H; simpl; [exact H|].
  apply IH. now apply visit_consistent.
Qed.

End Counters.

(** C9 (amended): the counters of the checkpoint are not read back; every
    run starts them at zero.  The checkpoint written after a run's k-th
    successful target holds the completed list loaded at the start plus the
    k names of this run, the record count of these k targets alone, and k;
    the file on disk is the latest of these checkpoints, or the old file
    when the run saved nothing. *)
Theorem checkpoint_counters_per_run (targets : list (str * str)) (disk0 : Disk) :
  let final := run_batch env targets disk0 in
  total_games (start disk0) = 0 /\
  successful_providers (start disk0) = 0 /\
  map summary (checkpoints (trace final))
  = tally (load_checkpoint disk0) 0 0 (trace final) /\
  counted (load_checkpoint disk0) 0 0 (trace final)
  = (completed_providers final, total_games final, successful_providers final) /\
  checkpoint_file (disk final)
  = match List.rev (checkpoints (trace final)) with
    | [] => checkpoint_file disk0
    | latest :: _ => Some (checkpoint_text latest)
    end.
Proof.
  intros final.
  destruct (@visit_all_consistent (load_checkpoint disk0) (checkpoint_file disk0)
              targets 1 (start disk0)) as (Hc & Ht & Hf).
  { repeat split. }
  repeat split; assumption.
Qed.

End BatchOrchestrator.

Section BatchRuns.
Import Scraper.


(** C9 as written fails: the earlier run left a checkpoint with ten games
    and one successful provider; the resumed run skips that provider,
    completes the next one with two games, and persists a total of two
    games and one successful provider, not twelve and two. *)
Lemma resumed_run_restarts_counters :
  let final := run_batch sample_env two_providers resumed_disk in
  checkpoint_file resumed_disk = Some (checkpoint_text earlier_checkpoint) /\
  cp_total_games_so_far earlier_checkpoint = 10 /\
  cp_successful_providers earlier_checkpoint = 1 /\
  map summary (checkpoints (trace final))
  = [([Json.JStr (lit "Ace Roll"); Json.JStr (lit "All41")], 2, 1)] /\
  checkpoint_file (disk final)
  = Some (checkpoint_text
            {| cp_completed_providers :=
                 [Json.JStr (lit "Ace Roll"); Json.JStr (lit "All41")];
               cp_last_updated := lit "2025-01-02T09:30:00";
               cp_total_games_so_far := 2;
               cp_successful_providers := 1 |}).
Proof. vm_compute. repeat split. Qed.

End BatchRuns.
(** ** The text of a checkpoint, cut short *)

Module JsonFacts.
Import Json.

Lemma scan_app (st : scan_state) (a b : str) :
  scan st (a ++ b) = scan (scan st a) b.
Proof. apply fold_left_app. Qed.

Lemma passage_nil (d : nat) (st : scan_state) :
  d <= depth st -> passage d st [] st.
Proof.
  intros H. split; [reflexivity|]. intros k. now rewrite firstn_nil.
Qed.

Lemma passage_app (d : nat) (st1 st2 st3 : scan_state) (a b : str) :
  passage d st1 a st2 -> passage d st2 b st3 -> passage d st1 (a ++ b) st3.
Proof.
  intros [Ha Ka] [Hb Kb]. split.
  - now rewrite scan_app, Ha.
  - intros k. rewrite firstn_app, scan_app.
    destruct (Nat.le_gt_cases k (List.length a)) as [Hle|Hgt].
    + replace (k - List.length a) with 0 by lia. simpl. apply Ka.
    + rewrite firstn_all2 by lia. rewrite Ha. apply Kb.
Qed.

Lemma passage_char (d : nat) (st : scan_state) (c : ascii) :
  d <= depth st -> d <= depth (scan_char st c) ->
  passage d st [c] (scan_char st c).
Proof.
  intros H1 H2. split; [reflexivity|].
  intros [|k]; simpl; [exact H1|]. now rewrite firstn_nil.
Qed.

Lemma passage_weaken (d d' : nat) (st st' : scan_state) (s : str) :
  d' <= d -> passage d st s st' -> passage d' st s st'.
Proof.
  intros Hd [H K]. split; [exact H|]. intros k. specialize (K k). lia.
Qed.

Lemma neutral_nil : neutral [].
Proof. intros d. now apply passage_nil. Qed.

Lemma neutral_app (a b : str) : neutral a -> neutral b -> neutral (a ++ b).
Proof. intros Ha Hb d. eapply passage_app; [apply Ha | apply Hb]. Qed.

Lemma scan_char_plain (d : nat) (c : ascii) :
  plain c = true -> scan_char (outside d) c = outside d.
Proof.
  unfold plain, scan_char. simpl. intros H.
  apply negb_true_iff in H.
  repeat (apply orb_false_iff in H as [? H]).
  now repeat match goal with E : Ascii.eqb c _ = false |- _ => rewrite E; clear E end.
Qed.

Lemma neutral_plain (s : str) : forallb plain s = true -> neutral s.
Proof.
  induction s as [|c s IH]; intros H; [apply neutral_nil|].
  simpl in H. apply andb_true_iff in H as [Hc Hs].
  change (c :: s) with ([c] ++ s). apply neutral_app; [|now apply IH].
  intros d. pose proof (scan_char_plain d c Hc) as E.
  rewrite <- E at 2. apply passage_char; [|rewrite E]; simpl; lia.
Qed.

(** Brackets around a neutral text make a neutral text, and the inside
    stays one level up. *)
Lemma passage_bracketed (d : nat) (opening closing : ascii) (s : str) :
  scan_char (outside d) opening = outside (S d) ->
  scan_char (outside (S d)) closing = outside d ->
  neutral s ->
  passage (S d) (outside (S d)) s (outside (S d)) /\
  passage d (outside d) (opening :: s ++ [closing]) (outside d).
Proof.
  intros Ho Hc Hs. split; [apply Hs|].
  change (opening :: s ++ [closing]) with ([opening] ++ s ++ [closing]).
  apply (@passage_app d _ (outside (S d)) _ [opening] (s ++ [closing])).
  - rewrite <- Ho. apply passage_char; [|rewrite Ho]; simpl; lia.
  - apply (@passage_app d _ (outside (S d)) _ s [closing]).
    + apply (@passage_weaken (S d) d); [lia | apply Hs].
    + rewrite <- Hc. apply passage_char; [|rewrite Hc]; simpl; lia.
Qed.

(** Inside a string literal the depth does not move. *)
Lemma escape_char_inside (c : ascii) (d : nat) :
  passage d (inside d) (escape_char c) (inside d).
Proof.
  destruct c as [[] [] [] [] [] [] [] []];
    (split; [reflexivity|]);
    intros k; do 7 (destruct k as [|k]; [apply Nat.le_refl|]);
    apply Nat.le_refl.
Qed.

Lemma escaped_inside (s : str) (d : nat) :
  passage d (inside d) (flat_map escape_char s) (inside d).
Proof.
  induction s as [|c s IH]; simpl.
  - now apply passage_nil.
  - eapply passage_app; [apply escape_char_inside | exact IH].
Qed.

Lemma neutral_encode_string (s : str) : neutral (encode_string s).
Proof.
  intros d. unfold encode_string.
  change (double_quote :: flat_map escape_char s ++ [double_quote])
    with ([double_quote] ++ flat_map escape_char s ++ [double_quote]).
  apply (@passage_app d _ (inside d)).
  - apply (@passage_char d (outside d) double_quote); simpl; lia.
  - apply (@passage_app d _ (inside d)); [apply escaped_inside|].
    apply (@passage_char d (inside d) double_quote); simpl; lia.
Qed.

Lemma json_induction (P : json -> Prop) :
  P JNull ->
  (forall b, P (JBool b)) ->
  (forall n, P (JNum n)) ->
  (forall s, P (JStr s)) ->
  (forall items, Forall P items -> P (JArr items)) ->
  (forall members, Forall (fun m => P (snd m)) members -> P (JObj members)) ->
  forall v, P v.
Proof.
  intros Hnull Hbool Hnum Hstr Harr Hobj.
  fix IH 1. intros [| b | n | s | items | members].
  - exact Hnull.
  - apply Hbool.
  - apply Hnum.
  - apply Hstr.
  - apply Harr. revert items. fix IHitems 1.
    intros [|x items]; constructor; [apply IH | apply IHitems].
  - apply Hobj. revert members. fix IHmembers 1.
    intros [|[k x] members]; constructor; [apply IH | apply IHmembers].
Qed.

Lemma plain_digits (u : Decimal.uint) :
  forallb plain (lit (NilEmpty.string_of_uint u)) = true.
Proof. induction u; simpl; try reflexivity; exact IHu. Qed.

Lemma neutral_str_of_nat (n : nat) : neutral (str_of_nat n).
Proof. apply neutral_plain, plain_digits. Qed.

Lemma plain_break (level : nat) : forallb plain (break level) = true.
Proof.
  unfold break. generalize (2 * level) as n.
  induction n as [|n IH]; [reflexivity | exact IH].
Qed.

Lemma neutral_break (level : nat) : neutral (break level).
Proof. apply neutral_plain, plain_break. Qed.

Lemma neutral_flat_map {A : Type} (f : A -> str) (l : list A) :
  Forall (fun x => neutral (f x)) l -> neutral (flat_map f l).
Proof.
  induction 1 as [|x l Hx _ IH]; simpl;
    [apply neutral_nil | now apply neutral_app].
Qed.

Lemma bracketed_neutral (opening closing : ascii) (inner : str) :
  bracketed opening closing inner -> neutral (opening :: inner ++ [closing]).
Proof. intros H d. apply H. Qed.

Lemma braces (inner : str) : neutral inner -> bracketed "{" "}" inner.
Proof.
  intros H d. apply passage_bracketed; [reflexivity | | exact H].
  unfold scan_char. simpl. now rewrite Nat.sub_0_r.
Qed.

Lemma square_brackets (inner : str) : neutral inner -> bracketed "[" "]" inner.
Proof.
  intros H d. apply passage_bracketed; [reflexivity | | exact H].
  unfold scan_char. simpl. now rewrite Nat.sub_0_r.
Qed.

Ltac neutral_parts :=
  repeat first
    [ apply neutral_break
    | apply neutral_encode_string
    | apply neutral_str_of_nat
    | apply neutral_nil
    | apply neutral_plain; reflexivity
    | assumption
    | apply neutral_app ].

Lemma neutral_encode (v : json) : forall level, neutral (encode level v).
Proof.
  induction v as [| b | n | s | items IH | members IH] using json_induction;
    intros level.
  - now apply neutral_plain.
  - destruct b; now apply neutral_plain.
  - apply neutral_str_of_nat.
  - apply neutral_encode_string.
  - destruct items as [|first rest].
    + apply (bracketed_neutral (square_brackets neutral_nil)).
    + cbn [encode]. apply (@bracketed_neutral "[" "]").
      apply square_brackets. inversion IH as [|? ? Hfirst Hrest]; subst.
      neutral_parts; [apply Hfirst|].
      apply neutral_flat_map.
      eapply Forall_impl; [|exact Hrest]. cbv beta.
      intros x Hx. neutral_parts. apply Hx.
  - destruct members as [|[key first] rest].
    + apply (bracketed_neutral (braces neutral_nil)).
    + cbn [encode]. apply (@bracketed_neutral "{" "}").
      apply braces. inversion IH as [|? ? Hfirst Hrest]; subst.
      neutral_parts; [apply Hfirst|].
      apply neutral_flat_map.
      eapply Forall_impl; [|exact Hrest]. cbv beta.
      intros m Hm. neutral_parts. apply Hm.
Qed.

Lemma encode_object_shape (level : nat) (key : str) (first : json)
    (rest : list (str * json)) :
  exists inner,
    encode level (JObj ((key, first) :: rest)) = "{"%char :: inner ++ ["}"%char] /\
    bracketed "{" "}" inner.
Proof.
  eexists. split; [reflexivity|].
  apply braces. neutral_parts; try apply neutral_encode.
  apply neutral_flat_map, Forall_forall. intros m _.
  neutral_parts. apply neutral_encode.
Qed.

(** A bracketed text that is cut short does not parse. *)
Lemma loads_cut_short (inner : str) (k : nat) :
  bracketed "{" "}" inner ->
  k < List.length ("{"%char :: inner ++ ["}"%char]) ->
  loads (firstn k ("{"%char :: inner ++ ["}"%char])) = None.
Proof.
  intros Hb Hk. destruct k as [|k]; [reflexivity|].
  unfold loads.
  assert (Hopen : unfinished
                    (scan scan_start (firstn (S k) ("{"%char :: inner ++ ["}"%char])))
                  = true); [|now rewrite Hopen].
  cbn [firstn]. simpl in Hk. rewrite length_app in Hk. simpl in Hk.
  rewrite firstn_app.
  replace (k - List.length inner) with 0 by lia.
  cbn [firstn]. rewrite app_nil_r.
  destruct (Hb 0) as [[_ Hdepth] _]. specialize (Hdepth k).
  unfold unfinished. change (scan scan_start ("{"%char :: firstn k inner))
    with (scan (outside 1) (firstn k inner)).
  apply orb_true_iff. left. apply Nat.ltb_lt. lia.
Qed.

(** *** Reading back what was written *)

Lemma read_string_escape_char (c : ascii) (tail : str) :
  read_string (escape_char c ++ tail) = cons_char (Some c) (read_string tail).
Proof.
  destruct c as [[] [] [] [] [] [] [] []]; reflexivity.
Qed.

Lemma read_string_encoded (s rest : str) :
  read_string (flat_map escape_char s ++ double_quote :: rest) = Some (s, rest).
Proof.
  induction s as [|c s IH]; [reflexivity|].
  simpl. rewrite <- app_assoc, read_string_escape_char, IH. reflexivity.
Qed.

Lemma read_digits_uint (u : Decimal.uint) : forall acc rest,
  delimited rest ->
  read_digits acc (lit (NilEmpty.string_of_uint u) ++ rest)
  = (Nat.of_uint_acc u acc, rest).
Proof.
  induction u; intros acc rest Hrest; simpl;
    rewrite ?IHu by assumption;
    rewrite ?Nat.tail_addmul_spec, ?Nat.tail_add_spec, ?Nat.tail_mul_spec;
    try (f_equal; f_equal; lia).
  destruct rest as [|c rest]; [reflexivity|]. simpl.
  destruct Hrest as [-> _]. reflexivity.
Qed.

Lemma to_uint_leading_zero (n : nat) (u : Decimal.uint) :
  Nat.to_uint n = Decimal.D0 u -> u = Decimal.Nil /\ n = 0.
Proof.
  intros H.
  assert (Hnorm : Decimal.unorm (Decimal.D0 u) = Decimal.D0 u).
  { rewrite <- H, <- DecimalNat.Unsigned.to_of, DecimalNat.Unsigned.of_to. reflexivity. }
  assert (Hu : u = Decimal.Nil).
  { destruct (Decimal.uint_eq_dec u Decimal.Nil) as [|Hne]; [assumption|].
    rewrite DecimalFacts.unorm_D0 in Hnorm.
    pose proof (DecimalFacts.nb_digits_unorm u Hne) as Hlen.
    rewrite Hnorm in Hlen. simpl in Hlen. lia. }
  split; [exact Hu|]. subst u.
  rewrite <- (DecimalNat.Unsigned.of_to n), H. reflexivity.
Qed.

Lemma read_number_str_of_nat (n : nat) (rest : str) :
  delimited rest ->
  read_number (str_of_nat n ++ rest) = Some (n, rest).
Proof.
  intros Hrest. unfold str_of_nat.
  pose proof (DecimalNat.Unsigned.of_to n) as Hval. unfold Nat.of_uint in Hval.
  pose proof (DecimalNat.Unsigned.to_of (Nat.to_uint n)) as Hnorm.
  rewrite DecimalNat.Unsigned.of_to in Hnorm.
  destruct (Nat.to_uint n) as [|u|u|u|u|u|u|u|u|u|u] eqn:E;
    try (simpl in *; rewrite read_digits_uint by assumption;
         rewrite ?Nat.tail_addmul_spec, ?Nat.tail_add_spec,
                 ?Nat.tail_mul_spec in Hval;
         simpl in Hval; rewrite Hval;
         destruct rest as [|c rest]; [reflexivity|];
         destruct Hrest as [_ Hf]; now rewrite Hf).
  - discriminate Hnorm.
  - apply to_uint_leading_zero in E as [-> ->]. simpl.
    destruct rest as [|c rest]; [reflexivity|].
    destruct Hrest as [Hd Hf]. now rewrite Hd, Hf.
Qed.

Lemma skip_ws_break (level : nat) (s : str) :
  skip_ws (break level ++ s) = skip_ws s.
Proof.
  unfold break. simpl. generalize (level + (level + 0)) as n.
  induction n as [|n IH]; [reflexivity | exact IH].
Qed.

Lemma read_value_skip (fuel : nat) (a b : str) :
  skip_ws a = skip_ws b -> read_value fuel a = read_value fuel b.
Proof. intros H. destruct fuel; simpl; [reflexivity | now rewrite H]. Qed.

Lemma read_value_break (fuel level : nat) (s : str) :
  read_value fuel (break level ++ s) = read_value fuel s.
Proof. apply read_value_skip, skip_ws_break. Qed.

Lemma digit_first (n : nat) :
  exists c tail k, str_of_nat n = c :: tail /\ digit_value c = Some k.
Proof.
  unfold str_of_nat.
  pose proof (DecimalNat.Unsigned.to_of (Nat.to_uint n)) as Hnorm.
  rewrite DecimalNat.Unsigned.of_to in Hnorm.
  destruct (Nat.to_uint n); [discriminate Hnorm | ..];
    simpl; eexists _, _, _; split; reflexivity.
Qed.

Lemma digit_plain (c : ascii) (k : nat) :
  digit_value c = Some k ->
  is_ws c = false /\ Ascii.eqb c "]" = false /\ Ascii.eqb c "}" = false /\
  Ascii.eqb c "n" = false /\ Ascii.eqb c "t" = false /\
  Ascii.eqb c "f" = false /\ Ascii.eqb c double_quote = false /\
  Ascii.eqb c "[" = false /\ Ascii.eqb c "{" = false.
Proof.
  destruct c as [[] [] [] [] [] [] [] []]; intros H;
    try discriminate H; repeat split.
Qed.

Lemma skip_ws_start (s : str) : value_start s -> skip_ws s = s.
Proof.
  destruct s as [|c s]; [contradiction|]. intros [H _]. simpl. now rewrite H.
Qed.

Lemma value_start_encode (v : json) (level : nat) (tail : str) :
  value_start (encode level v ++ tail).
Proof.
  destruct v as [| [] | n | s | [|x l] | [|[k x] l]]; try (repeat split).
  cbn [encode].
  destruct (digit_first n) as (c & t & k & -> & Hd).
  apply digit_plain in Hd. simpl. tauto.
Qed.

Lemma read_value_number (fuel n : nat) (rest : str) :
  delimited rest ->
  read_value (S fuel) (str_of_nat n ++ rest) = Some (JNum n, rest).
Proof.
  intros Hrest.
  pose proof (read_number_str_of_nat n rest Hrest) as Hnum.
  destruct (digit_first n) as (c & t & k & E & Hd).
  rewrite E in *. apply digit_plain in Hd.
  destruct Hd as (Hws & _ & _ & Hn & Ht & Hf & Hq & Hb & Hc).
  cbn [read_value app skip_ws]. rewrite Hws, Hn, Ht, Hf, Hq, Hb, Hc.
  cbn [app] in Hnum. now rewrite Hnum.
Qed.

Lemma delimited_break (level : nat) (s : str) : delimited (break level ++ s).
Proof. now split. Qed.

Lemma skip_ws_nonblank (c : ascii) (s : str) :
  is_ws c = false -> skip_ws (c :: s) = c :: s.
Proof. intros H. simpl. now rewrite H. Qed.

Lemma read_items_last (fuel : nat) (s rest1 tail : str) (v : json) :
  read_value fuel s = Some (v, rest1) ->
  skip_ws rest1 = "]"%char :: tail ->
  read_items (S fuel) s = Some ([v], tail).
Proof. intros H E. cbn [read_items]. now rewrite H, E. Qed.

Lemma read_items_more (fuel : nat) (s rest1 tail : str) (v : json) :
  read_value fuel s = Some (v, rest1) ->
  skip_ws rest1 = ","%char :: tail ->
  read_items (S fuel) s
  = match read_items fuel tail with
    | Some (l, rest2) => Some (v :: l, rest2)
    | None => None
    end.
Proof. intros H E. cbn [read_items]. now rewrite H, E. Qed.

Lemma read_items_encoded (others : list json) :
  forall first level level0 rest fuel,
    reads_back first -> Forall reads_back others ->
    List.length (break level ++ encode level first
                   ++ flat_map (item_text level) others
                   ++ break level0 ++ lit "]") < fuel ->
    read_items fuel (break level ++ encode level first
                       ++ flat_map (item_text level) others
                       ++ break level0 ++ lit "]" ++ rest)
    = Some (first :: others, rest).
Proof.
  induction others as [|x others IH];
    intros first level level0 rest fuel Hfirst Hothers Hfuel;
    (destruct fuel as [|fuel]; [inversion Hfuel|]);
    rewrite !length_app in Hfuel.
  - eapply read_items_last.
    + rewrite read_value_break. cbn [flat_map app].
      apply (Hfirst level); [simpl in Hfuel; lia | apply delimited_break].
    + now rewrite skip_ws_break.
  - inversion Hothers as [|? ? Hx Hrest]; subst.
    cbn [flat_map] in *. unfold item_text at 1 in Hfuel. unfold item_text at 1.
    rewrite <- !app_assoc. rewrite !length_app in Hfuel.
    erewrite read_items_more.
    + rewrite (IH x level level0 rest fuel Hx Hrest); [reflexivity|].
      rewrite !length_app. simpl in *. lia.
    + rewrite read_value_break.
      apply (Hfirst level); [simpl in Hfuel; lia | now split].
    + reflexivity.
Qed.

Lemma encode_string_app (key tail : str) :
  encode_string key ++ tail
  = double_quote :: flat_map escape_char key ++ double_quote :: tail.
Proof. unfold encode_string. simpl. now rewrite <- app_assoc. Qed.

Lemma read_members_last (fuel : nat) (s s1 s2 s3 rest1 tail key : str)
    (v : json) :
  skip_ws s = double_quote :: s1 ->
  read_string s1 = Some (key, s2) ->
  skip_ws s2 = ":"%char :: s3 ->
  read_value fuel s3 = Some (v, rest1) ->
  skip_ws rest1 = "}"%char :: tail ->
  read_members (S fuel) s = Some ([(key, v)], tail).
Proof.
  intros E1 E2 E3 E4 E5. cbn [read_members]. rewrite E1.
  change (Ascii.eqb double_quote double_quote) with true. cbv iota.
  now rewrite E2, E3, E4, E5.
Qed.

Lemma read_members_more (fuel : nat) (s s1 s2 s3 rest1 tail key : str)
    (v : json) :
  skip_ws s = double_quote :: s1 ->
  read_string s1 = Some (key, s2) ->
  skip_ws s2 = ":"%char :: s3 ->
  read_value fuel s3 = Some (v, rest1) ->
  skip_ws rest1 = ","%char :: tail ->
  read_members (S fuel) s
  = match read_members fuel tail with
    | Some (l, rest2) => Some ((key, v) :: l, rest2)
    | None => None
    end.
Proof.
  intros E1 E2 E3 E4 E5. cbn [read_members]. rewrite E1.
  change (Ascii.eqb double_quote double_quote) with true. cbv iota.
  now rewrite E2, E3, E4, E5.
Qed.

Lemma skip_ws_member (level : nat) (key tail : str) :
  skip_ws (break level ++ encode_string key ++ tail)
  = double_quote :: flat_map escape_char key ++ double_quote :: tail.
Proof. rewrite skip_ws_break, encode_string_app. reflexivity. Qed.

Lemma read_value_space (fuel : nat) (s : str) :
  read_value fuel (" "%char :: s) = read_value fuel s.
Proof. now apply read_value_skip. Qed.

Lemma read_members_encoded (others : list (str * json)) :
  forall key first level level0 rest fuel,
    reads_back first -> Forall (fun m => reads_back (snd m)) others ->
    List.length (break level ++ encode_string key ++ lit ": "
                   ++ encode level first
                   ++ flat_map (member_text level) others
                   ++ break level0 ++ lit "}") < fuel ->
    read_members fuel (break level ++ encode_string key ++ lit ": "
                         ++ encode level first
                         ++ flat_map (member_text level) others
                         ++ break level0 ++ lit "}" ++ rest)
    = Some ((key, first) :: others, rest).
Proof.
  induction others as [|[k x] others IH];
    intros key first level level0 rest fuel Hfirst Hothers Hfuel;
    (destruct fuel as [|fuel]; [inversion Hfuel|]);
    rewrite !length_app in Hfuel.
  - eapply read_members_last.
    + apply skip_ws_member.
    + apply read_string_encoded.
    + reflexivity.
    + rewrite read_value_space. cbn [flat_map app].
      apply (Hfirst level); [simpl in Hfuel; lia | apply delimited_break].
    + now rewrite skip_ws_break.
  - inversion Hothers as [|? ? Hx Hrest]; subst. cbn [snd] in Hx.
    cbn [flat_map] in *. unfold member_text at 1 in Hfuel.
    unfold member_text at 1. cbn [fst snd] in *.
    rewrite <- !app_assoc. rewrite !length_app in Hfuel.
    erewrite read_members_more.
    + rewrite (IH k x level level0 rest fuel Hx Hrest); [reflexivity|].
      rewrite !length_app. simpl in *. lia.
    + apply skip_ws_member.
    + apply read_string_encoded.
    + reflexivity.
    + rewrite read_value_space.
      apply (Hfirst level); [simpl in Hfuel; lia | now split].
    + reflexivity.
Qed.

Lemma read_value_array (fuel : nat) (s t rest : str) (c : ascii)
    (l : list json) :
  skip_ws s = c :: t -> Ascii.eqb c "]" = false ->
  read_items fuel s = Some (l, rest) ->
  read_value (S fuel) ("["%char :: s) = Some (JArr l, rest).
Proof.
  intros E1 E2 E3. cbn [read_value].
  rewrite skip_ws_nonblank by reflexivity. now rewrite E1, E2, E3.
Qed.

Lemma read_value_items (fuel : nat) (s rest : str) (l : list json) :
  value_start (skip_ws s) ->
  read_items fuel s = Some (l, rest) ->
  read_value (S fuel) ("["%char :: s) = Some (JArr l, rest).
Proof.
  intros Hstart. destruct (skip_ws s) as [|c t] eqn:E; [contradiction|].
  destruct Hstart as (_ & Hc & _). intros H.
  exact (@read_value_array fuel s t rest c l E Hc H).
Qed.

Lemma read_value_object (fuel : nat) (s t rest : str) (c : ascii)
    (l : list (str * json)) :
  skip_ws s = c :: t -> Ascii.eqb c "}" = false ->
  read_members fuel s = Some (l, rest) ->
  read_value (S fuel) ("{"%char :: s) = Some (JObj l, rest).
Proof.
  intros E1 E2 E3. cbn [read_value].
  rewrite skip_ws_nonblank by reflexivity. now rewrite E1, E2, E3.
Qed.

Lemma read_value_string (fuel : nat) (s rest : str) :
  read_value (S fuel) (encode_string s ++ rest) = Some (JStr s, rest).
Proof.
  rewrite encode_string_app.
  cbn [read_value]. rewrite skip_ws_nonblank by reflexivity.
  now rewrite read_string_encoded.
Qed.

Theorem reads_back_all (v : json) : reads_back v.
Proof.
  induction v as [| b | n | s | items IH | members IH]
    using json_induction;
    intros level rest fuel Hfuel Hrest;
    (destruct fuel as [|fuel]; [inversion Hfuel|]).
  - reflexivity.
  - destruct b; reflexivity.
  - now apply read_value_number.
  - apply read_value_string.
  - destruct items as [|first others]; [reflexivity|].
    inversion IH as [|? ? Hfirst Hothers]; subst.
    cbn [encode] in *. rewrite <- !app_assoc. cbn [lit list_ascii_of_string app].
    change (fun x => lit "," ++ break (S level) ++ encode (S level) x)
      with (item_text (S level)).
    apply read_value_items.
    + rewrite skip_ws_break, skip_ws_start; apply value_start_encode.
    + apply read_items_encoded; try assumption.
      change (fun x => lit "," ++ break (S level) ++ encode (S level) x)
        with (item_text (S level)) in Hfuel.
      rewrite !length_app in *.
      change (List.length (lit "[")) with 1 in Hfuel. lia.
  - destruct members as [|[key first] others]; [reflexivity|].
    inversion IH as [|? ? Hfirst Hothers]; subst. cbn [snd] in Hfirst.
    cbn [encode] in *. rewrite <- !app_assoc. cbn [lit list_ascii_of_string app].
    eapply read_value_object.
    + apply skip_ws_member.
    + reflexivity.
    + apply read_members_encoded; try assumption.
      change (fun m => lit "," ++ break (S level) ++ encode_string (fst m)
                         ++ lit ": " ++ encode (S level) (snd m))
        with (member_text (S level)) in Hfuel.
      rewrite !length_app in *.
      change (List.length (lit "{")) with 1 in Hfuel. lia.
Qed.

Theorem loads_dumps (v : json) : loads (dumps v) = Some v.
Proof.
  unfold loads, dumps.
  destruct (neutral_encode v 0 0) as [Hscan _].
  change scan_start with (outside 0). rewrite Hscan. cbn [unfinished outside depth in_string Nat.ltb Nat.leb orb].
  pose proof (@reads_back_all v 0 [] (S (List.length (encode 0 v)))) as H.
  rewrite app_nil_r in H. rewrite H; [reflexivity | lia | exact I].
Qed.

End JsonFacts.

(** ** CheckpointStore: writing the checkpoint *)

Section CheckpointStore.
Import Scraper.

Lemma checkpoint_text_cut_short (d : CheckpointData) (k : nat) :
  k < List.length (checkpoint_text d) ->
  Json.loads (firstn k (checkpoint_text d)) = None.
Proof.
  unfold checkpoint_text, Json.dumps, checkpoint_json.
  destruct (JsonFacts.encode_object_shape 0 (lit "completed_providers")
              (Json.JArr (cp_completed_providers d))
              [(lit "last_updated", Json.JStr (cp_last_updated d));
               (lit "total_games_so_far", Json.JNum (cp_total_games_so_far d));
               (lit "successful_providers",
                Json.JNum (cp_successful_providers d))])
    as (inner & -> & Hb).
  now apply JsonFacts.loads_cut_short.
Qed.

(** C2 as written fails: the checkpoint is not written to the side and
    then put in place.  An interruption right after the file was opened for
    writing leaves it empty: neither the text of the earlier checkpoint nor
    the new text, and the provider the earlier checkpoint listed is
    forgotten. *)
Lemma interrupted_write_loses_checkpoint :
  let text := checkpoint_text
                {| cp_completed_providers :=
                     [Json.JStr (lit "Ace Roll"); Json.JStr (lit "All41")];
                   cp_last_updated := lit "2025-01-02T09:30:00";
                   cp_total_games_so_far := 2;
                   cp_successful_providers := 1 |} in
  let interrupted := write_checkpoint text 0 resumed_disk in
  load_checkpoint resumed_disk = [Json.JStr (lit "Ace Roll")] /\
  checkpoint_file interrupted = Some [] /\
  checkpoint_file interrupted <> checkpoint_file resumed_disk /\
  checkpoint_file interrupted <> Some text /\
  load_checkpoint interrupted = [].
Proof.
  vm_compute. repeat split; discriminate.
Qed.

Lemma checkpoint_text_reads_back (d : CheckpointData) :
  Json.loads (checkpoint_text d) = Some (checkpoint_json d).
Proof. apply JsonFacts.loads_dumps. Qed.

(** C2 (amended): the checkpoint block rewrites the file in place: opening
    it for writing empties it, and the whole state is dumped into it front
    to back.  After an interruption the file holds a proper prefix of the
    new text; such a prefix never parses, and the load at the next start
    treats it as no checkpoint (the earlier state is gone with it).  After a
    complete write the file holds the complete new text, and a load reads
    the complete new state back.  A partially updated state is never read
    back. *)
Theorem checkpoint_write_in_place (d : CheckpointData) (disk0 : Disk)
    (flushed : nat) :
  let text := checkpoint_text d in
  let disk' := write_checkpoint text flushed disk0 in
  checkpoint_file disk' = Some (firstn flushed text) /\
  (flushed < List.length text ->
   Json.loads (firstn flushed text) = None /\ load_checkpoint disk' = []) /\
  (List.length text <= flushed ->
   checkpoint_file disk' = Some text /\
   Json.loads text = Some (checkpoint_json d) /\
   load_checkpoint disk' = cp_completed_providers d).
Proof.
  intros text disk'. split; [reflexivity|]. split.
  - intros Hcut.
    pose proof (@checkpoint_text_cut_short d flushed Hcut) as Hnone.
    split; [exact Hnone|].
    unfold load_checkpoint, disk', write_checkpoint.
    cbn [checkpoint_file]. fold text in Hnone. now rewrite Hnone.
  - intros Hall.
    assert (Hfile : checkpoint_file disk' = Some text).
    { unfold disk', write_checkpoint. cbn [checkpoint_file].
      now rewrite firstn_all2. }
    pose proof (checkpoint_text_reads_back d) as Hback. fold text in Hback.
    split; [exact Hfile|]. split; [exact Hback|].
    unfold load_checkpoint. rewrite Hfile, Hback. reflexivity.
Qed.

Lemma checkpoint_write_in_place_witness :
  let text := checkpoint_text earlier_checkpoint in
  Json.loads (firstn 40 text) = None /\
  load_checkpoint (write_checkpoint text 40 resumed_disk) = [] /\
  load_checkpoint (write_checkpoint text 500 resumed_disk)
  = [Json.JStr (lit "Ace Roll")].
Proof.
  destruct (checkpoint_write_in_place earlier_checkpoint resumed_disk 40)
    as (_ & Hcut & _).
  destruct (checkpoint_write_in_place earlier_checkpoint resumed_disk 500)
    as (_ & _ & Hall).
  assert (H40 : 40 < List.length (checkpoint_text earlier_checkpoint))
    by (vm_compute; lia).
  assert (H500 : List.length (checkpoint_text earlier_checkpoint) <= 500)
    by (vm_compute; lia).
  destruct (Hcut H40) as [Hnone Hfresh].
  destruct (Hall H500) as (_ & _ & Hloaded).
  exact (conj Hnone (conj Hfresh Hloaded)).
Defined.

(** *** From one run to the next *)

Lemma load_checkpoint_written (d : CheckpointData) (files : list str) :
  load_checkpoint {| checkpoint_file := Some (checkpoint_text d);
                     provider_files := files |}
  = cp_completed_providers d.
Proof.
  unfold load_checkpoint, checkpoint_text. cbn [checkpoint_file].
  now rewrite JsonFacts.loads_dumps.
Qed.

Lemma load_checkpoint_file (disk1 disk2 : Disk) :
  checkpoint_file disk1 = checkpoint_file disk2 ->
  load_checkpoint disk1 = load_checkpoint disk2.
Proof. unfold load_checkpoint. now intros ->. Qed.

(** At every point of a run the checkpoint on disk reads back as the
    completed list in memory. *)
Lemma visit_keeps_checkpoint (env : Env) (i : nat) (target : str * str)
    (st : RunState) :
  load_checkpoint (disk st) = completed_providers st ->
  load_checkpoint (disk (visit env i target st))
  = completed_providers (visit env i target st).
Proof.
  intros H. destruct target as [url name].
  destruct (visit_cases env i url name st)
    as [[_ ->] | [(_ & _ & ->) | (_ & _ & ->)]]; try exact H.
  unfold record_completion, write_checkpoint, log.
  cbn [disk completed_providers total_games successful_providers
       checkpoint_file provider_files trace].
  rewrite firstn_all. apply load_checkpoint_written.
Qed.

Lemma visit_all_keeps_checkpoint (env : Env) (targets : list (str * str)) :
  forall i st,
    load_checkpoint (disk st) = completed_providers st ->
    load_checkpoint (disk (visit_all env i targets st))
    = completed_providers (visit_all env i targets st).
Proof.
  induction targets as [|t targets IH]; intros i st H; simpl; [exact H|].
  apply IH. now apply visit_keeps_checkpoint.
Qed.




End CheckpointStore.

(* ================================================================== *)
(** * Further properties of the two stages *)
(* ================================================================== *)

(** ** [sanitize_filename] *)

Section SanitizeFilename.
Import Fixer.

Lemma lstrip_suffix (f : ascii -> bool) (s : str) :
  exists dropped, s = dropped ++ lstrip f s /\ forallb f dropped = true.
Proof.
  induction s as [|c s (dropped & IH & Hd)]; [now exists []|].
  simpl. destruct (f c) eqn:E.
  - exists (c :: dropped). simpl. rewrite E, Hd. now rewrite <- IH.
  - now exists [].
Qed.

Lemma lstrip_head (f : ascii -> bool) (s : str) :
  match lstrip f s with
  | c :: _ => f c = false
  | [] => True
  end.
Proof.
  induction s as [|c s IH]; simpl; [exact I|].
  destruct (f c) eqn:E; [exact IH | exact E].
Qed.

(** [strip] keeps a contiguous piece of the text. *)
Lemma strip_infix (f : ascii -> bool) (s : str) :
  exists front back, s = front ++ strip f s ++ back.
Proof.
  unfold strip.
  destruct (lstrip_suffix f s) as (front & Hs & _).
  destruct (lstrip_suffix f (List.rev (lstrip f s))) as (back & Hr & _).
  exists front, (List.rev back).
  rewrite <- rev_app_distr, <- Hr, rev_involutive. exact Hs.
Qed.

Lemma strip_in (f : ascii -> bool) (s : str) (c : ascii) :
  In c (strip f s) -> In c s.
Proof.
  destruct (strip_infix f s) as (front & back & E). intros H.
  rewrite E. apply in_or_app. right. apply in_or_app. now left.
Qed.

(** Neither end of a stripped text is a stripped character. *)
Lemma strip_ends (f : ascii -> bool) (s : str) :
  (forall c rest, strip f s = c :: rest -> f c = false) /\
  (forall c front, strip f s = front ++ [c] -> f c = false).
Proof.
  unfold strip. split.
  - intros c rest E.
    apply (f_equal (@List.rev ascii)) in E.
    rewrite rev_involutive in E. simpl in E.
    destruct (lstrip_suffix f (List.rev (lstrip f s))) as (dropped & Hr & _).
    rewrite E in Hr.
    apply (f_equal (@List.rev ascii)) in Hr.
    rewrite rev_involutive, !rev_app_distr, rev_involutive in Hr.
    simpl in Hr. pose proof (lstrip_head f s) as Hh.
    rewrite Hr in Hh. exact Hh.
  - intros c front E.
    apply (f_equal (@List.rev ascii)) in E.
    rewrite rev_involutive, rev_app_distr in E. simpl in E.
    pose proof (lstrip_head f (List.rev (lstrip f s))) as Hh.
    now rewrite E in Hh.
Qed.

Lemma collapse_spaces_in (s : str) :
  forall in_run c, In c (collapse_spaces in_run s) -> In c s \/ c = " "%char.
Proof.
  induction s as [|x s IH]; intros in_run c H; simpl in H; [contradiction|].
  destruct (is_space x); [destruct in_run|]; simpl in H.
  - destruct (IH _ _ H); [left; now right | now right].
  - destruct H as [<- | H]; [now right|].
    destruct (IH _ _ H); [left; now right | now right].
  - destruct H as [<- | H]; [left; now left|].
    destruct (IH _ _ H); [left; now right | now right].
Qed.

(** Where the characters of a sanitised name come from: a blank, or a
    character of the name after the replacement of the invalid ones. *)
Lemma sanitize_filename_in (filename : str) (c : ascii) :
  In c (sanitize_filename filename) ->
  c = " "%char \/
  exists x, In x filename /\
            c = if existsb (Ascii.eqb x) invalid_chars then "_"%char else x.
Proof.
  unfold sanitize_filename. intros H.
  apply strip_in, strip_in, collapse_spaces_in in H.
  destruct H as [H | ->]; [right | now left].
  apply in_map_iff in H as (x & <- & Hx). now exists x.
Qed.

(** X1: a sanitised file name holds none of the nine characters of
    [invalid_chars], so in particular no path separator. *)
Theorem sanitize_filename_no_invalid (filename : str) (c : ascii) :
  In c (sanitize_filename filename) ->
  existsb (Ascii.eqb c) invalid_chars = false.
Proof.
  intros H.
  destruct (sanitize_filename_in _ _ H) as [-> | (x & _ & ->)]; [reflexivity|].
  destruct (existsb (Ascii.eqb x) invalid_chars) eqn:E; [reflexivity | exact E].
Qed.

Lemma sanitize_filename_no_invalid_witness :
  existsb (Ascii.eqb "_"%char) invalid_chars = false.
Proof.
  apply (@sanitize_filename_no_invalid (lit "a/b") "_"%char).
  vm_compute. tauto.
Defined.

End SanitizeFilename.

(** ** File names and paths of the asset stage *)

Section FileNames.
Import Fixer.

Lemma no_space_run_cons (a b : ascii) (rest : str) :
  no_space_run (a :: b :: rest)
  = negb (is_space a && is_space b) && no_space_run (b :: rest).
Proof. reflexivity. Qed.

Lemma collapse_spaces_shape (s : str) :
  forall in_run,
    no_space_run (collapse_spaces in_run s) = true /\
    (in_run = true ->
     match collapse_spaces in_run s with
     | c :: _ => is_space c = false
     | [] => True
     end).
Proof.
  induction s as [|x s IH]; intros in_run; simpl; [now split|].
  destruct (is_space x) eqn:Ex; [destruct in_run|].
  - apply IH.
  - destruct (IH true) as [Hrun Hhead]. specialize (Hhead eq_refl).
    split; [|discriminate].
    destruct (collapse_spaces true s) as [|c rest] eqn:E; [reflexivity|].
    rewrite no_space_run_cons, Hhead, andb_false_r. exact Hrun.
  - destruct (IH false) as [Hrun _]. split; [|now intros _].
    destruct (collapse_spaces false s) as [|c rest] eqn:E; [reflexivity|].
    rewrite no_space_run_cons, Ex. exact Hrun.
Qed.

Lemma collapse_spaces_blank (s : str) :
  forall in_run c, In c (collapse_spaces in_run s) ->
                   is_space c = true -> c = " "%char.
Proof.
  induction s as [|x s IH]; intros in_run c H Hc; simpl in H; [contradiction|].
  destruct (is_space x) eqn:Ex; [destruct in_run|]; simpl in H.
  - eapply IH; eassumption.
  - destruct H as [<- | H]; [reflexivity | eapply IH; eassumption].
  - destruct H as [<- | H]; [congruence | eapply IH; eassumption].
Qed.

Lemma no_space_run_app (a b : str) :
  no_space_run (a ++ b) = true ->
  no_space_run a = true /\ no_space_run b = true.
Proof.
  induction a as [|x a IH]; intros H; [now split|].
  destruct a as [|y a].
  - split; [reflexivity|]. destruct b as [|z b]; [reflexivity|].
    cbn [app] in H. rewrite no_space_run_cons in H.
    now apply andb_true_iff in H.
  - cbn [app] in H. rewrite no_space_run_cons in H.
    apply andb_true_iff in H as [H1 H2].
    destruct (IH H2) as [Ha Hb]. split; [|exact Hb].
    rewrite no_space_run_cons. now rewrite H1.
Qed.

Lemma strip_no_space_run (f : ascii -> bool) (s : str) :
  no_space_run s = true -> no_space_run (strip f s) = true.
Proof.
  destruct (strip_infix f s) as (front & back & E). intros H.
  rewrite E in H. apply no_space_run_app in H as [_ H].
  now apply no_space_run_app in H.
Qed.

(** X2: a sanitised name neither starts nor ends with a dot, has no two
    whitespace characters in a row, and its only whitespace character is
    the blank. *)
Theorem sanitize_filename_shape (filename : str) :
  (forall c rest, sanitize_filename filename = c :: rest -> c <> "."%char) /\
  (forall c front, sanitize_filename filename = front ++ [c] -> c <> "."%char) /\
  no_space_run (sanitize_filename filename) = true /\
  (forall c, In c (sanitize_filename filename) -> is_space c = true ->
             c = " "%char).
Proof.
  unfold sanitize_filename.
  set (mapped := map _ filename).
  destruct (strip_ends (Ascii.eqb ".") (strip is_space (collapse_spaces false mapped)))
    as [Hfirst Hlast].
  split; [|split; [|split]].
  - intros c rest E ->. apply Hfirst in E. discriminate.
  - intros c front E ->. apply Hlast in E. discriminate.
  - do 2 apply strip_no_space_run. apply collapse_spaces_shape.
  - intros c H Hc. apply strip_in, strip_in in H.
    eapply collapse_spaces_blank; eassumption.
Qed.

(** The dots are stripped after the whitespace: a blank that a dot
    protected stays at the end of the name. *)
Example sanitize_filename_keeps_inner_blank :
  sanitize_filename (lit ". a .") = lit " a ".
Proof. reflexivity. Qed.

Lemma sanitize_filename_no_slash (filename : str) :
  ~ In "/"%char (sanitize_filename filename).
Proof.
  intros H. destruct (sanitize_filename_in _ _ H) as [E | (x & _ & E)];
    [discriminate|].
  destruct (existsb (Ascii.eqb x) invalid_chars) eqn:Hx; [discriminate|].
  subst x. vm_compute in Hx. discriminate.
Qed.

Lemma file_name_for_no_slash (provider_name game_name : str) :
  ~ In "/"%char (file_name_for provider_name game_name).
Proof.
  unfold file_name_for. intros H.
  repeat (apply in_app_or in H as [H|H]);
    try (now apply sanitize_filename_no_slash in H).
  - simpl in H. intuition discriminate.
  - simpl in H. intuition discriminate.
Qed.

Lemma file_name_for_nonempty (provider_name game_name : str) :
  file_name_for provider_name game_name <> [].
Proof.
  unfold file_name_for. intros H.
  apply app_eq_nil in H as [_ H]. discriminate.
Qed.

Lemma last_of_rev (a : str) (x : ascii) (r : str) :
  List.rev a = x :: r -> a = List.rev r ++ [x].
Proof.
  intros H. apply (f_equal (@List.rev ascii)) in H.
  now rewrite rev_involutive in H.
Qed.

(** Joining a directory and a name without separators. *)
Lemma path_join_name (a b : str) :
  b <> [] -> ~ In "/"%char b ->
  (a = [] -> path_join a b = b) /\
  (forall parent, a = parent ++ lit "/" -> path_join a b = a ++ b) /\
  (a <> [] -> (forall parent, a <> parent ++ lit "/") ->
   path_join a b = a ++ lit "/" ++ b).
Proof.
  intros Hne Hb. unfold path_join.
  destruct b as [|c b]; [contradiction|].
  assert (Hc : c <> "/"%char) by (intros ->; apply Hb; now left).
  assert (Hrel : forall (X : str) (y : str),
             match c with "/"%char => y | _ => X end = X).
  { intros X y. destruct c as [[] [] [] [] [] [] [] []]; try reflexivity.
    now contradiction Hc. }
  rewrite Hrel. split; [|split].
  - now intros ->.
  - intros parent ->. rewrite rev_app_distr. reflexivity.
  - intros Ha Hend. destruct (List.rev a) as [|x r] eqn:E.
    + apply (f_equal (@List.rev ascii)) in E.
      rewrite rev_involutive in E. contradiction.
    + apply last_of_rev in E.
      destruct (Ascii.eqb_spec x "/"%char) as [->|Hx].
      * now contradiction (Hend (List.rev r)).
      * destruct x as [[] [] [] [] [] [] [] []]; try reflexivity.
        now contradiction Hx.
Qed.

Lemma provider_dir_shape (provider_name : str) :
  provider_name <> [] -> ~ In "/"%char provider_name ->
  let provider_dir := path_join (lit "Final_Quality_Fixed") provider_name in
  provider_dir = lit "Final_Quality_Fixed/" ++ provider_name /\
  provider_dir <> [] /\
  forall parent, provider_dir <> parent ++ lit "/".
Proof.
  intros Hne Hslash provider_dir.
  assert (Hdir : provider_dir = lit "Final_Quality_Fixed/" ++ provider_name).
  { destruct (path_join_name (lit "Final_Quality_Fixed") Hne Hslash)
      as (_ & _ & H).
    unfold provider_dir. rewrite H; [reflexivity | discriminate|].
    intros parent E. apply (f_equal (@List.rev ascii)) in E.
    rewrite rev_app_distr in E. discriminate E. }
  split; [exact Hdir|]. rewrite Hdir. split; [discriminate|].
  intros parent E. apply (f_equal (@List.rev ascii)) in E.
  rewrite !rev_app_distr in E. cbn [List.rev lit list_ascii_of_string app] in E.
  destruct (List.rev provider_name) as [|y t] eqn:Er.
  - apply (f_equal (@List.rev ascii)) in Er.
    rewrite rev_involutive in Er. contradiction.
  - cbn [app] in E. injection E as -> _.
    apply Hslash. apply in_rev. rewrite Er. now left.
Qed.

(** X3: the file of a record lies directly in the directory of its
    provider.  Its name has no separator and ends in [.webp]; its local
    path is the directory followed by the name, with one separator between
    them exactly when the directory is not empty and does not end in one.
    For the directory the program uses, and a provider name that is not
    empty and has no separator, the path is [Final_Quality_Fixed/], the
    provider name, a separator and the file name. *)
Theorem local_path_in_provider_dir (provider_name provider_dir : str)
    (i : nat) (game : GameEntry) :
  let asset := asset_for provider_name provider_dir i game in
  ~ In "/"%char (file_name asset) /\
  (exists stem, file_name asset = stem ++ lit ".webp") /\
  (provider_dir = [] -> local_path asset = file_name asset) /\
  (forall parent, provider_dir = parent ++ lit "/" ->
                  local_path asset = provider_dir ++ file_name asset) /\
  (provider_dir <> [] -> (forall parent, provider_dir <> parent ++ lit "/") ->
   local_path asset = provider_dir ++ lit "/" ++ file_name asset) /\
  (provider_name <> [] -> ~ In "/"%char provider_name ->
   local_path
     (asset_for provider_name
        (path_join (lit "Final_Quality_Fixed") provider_name) i game)
   = lit "Final_Quality_Fixed/" ++ provider_name ++ lit "/"
       ++ file_name asset).
Proof.
  intros asset.
  assert (Hname : forall dir,
            file_name (asset_for provider_name dir i game) = file_name asset)
    by reflexivity.
  assert (Hjoin : forall dir,
            (dir = [] ->
             local_path (asset_for provider_name dir i game)
             = file_name asset) /\
            (forall parent, dir = parent ++ lit "/" ->
             local_path (asset_for provider_name dir i game)
             = dir ++ file_name asset) /\
            (dir <> [] -> (forall parent, dir <> parent ++ lit "/") ->
             local_path (asset_for provider_name dir i game)
             = dir ++ lit "/" ++ file_name asset)).
  { intros dir. apply path_join_name;
      [apply file_name_for_nonempty | apply file_name_for_no_slash]. }
  split; [apply file_name_for_no_slash|]. split.
  { eexists. unfold asset, asset_for. cbn [file_name]. unfold file_name_for.
    rewrite !app_assoc. reflexivity. }
  destruct (Hjoin provider_dir) as (H1 & H2 & H3).
  split; [exact H1|]. split; [exact H2|]. split; [exact H3|].
  intros Hne Hslash.
  destruct (provider_dir_shape Hne Hslash) as (Hdir & Hfull & Hend).
  destruct (Hjoin (path_join (lit "Final_Quality_Fixed") provider_name))
    as (_ & _ & H). rewrite (H Hfull Hend), Hdir.
  now rewrite <- app_assoc.
Qed.

Lemma local_path_in_provider_dir_witness :
  local_path
    (asset_for (lit "Acme") (path_join (lit "Final_Quality_Fixed") (lit "Acme"))
       1 sample_game)
  = lit "Final_Quality_Fixed/Acme/Acme - Big Bass.webp".
Proof.
  destruct (local_path_in_provider_dir (lit "Acme") [] 1 sample_game)
    as (_ & _ & _ & _ & _ & H).
  rewrite H; [reflexivity | discriminate|].
  vm_compute. intuition discriminate.
Defined.

End FileNames.

(** ** A pass of the asset stage over one provider *)

Section AssetRuns.
Import Fixer.

Variable web : Web.
Variables provider_name provider_dir : str.

(** How one turn of the loop changes the loop variables. *)
Lemma process_game_turn (i : nat) (game : GameEntry) (p : Progress) :
  let asset := asset_for provider_name provider_dir i game in
  let p' := process_game web provider_name provider_dir i game p in
  (has_image_url game = false /\ p' = p) \/
  (has_image_url game = true /\
   processed_games p' = processed_games p ++ [asset] /\
   bad_quality_fixed p'
   = bad_quality_fixed p
     + (if Str.contains bad_quality (original_url asset) then 1 else 0) /\
   ((path_exists (world p) (local_path asset) = true /\
     world p' = world p /\
     successful_downloads p' = S (successful_downloads p)) \/
    (path_exists (world p) (local_path asset) = false /\
     requests (world p') = requests (world p) ++ [fixed_url asset] /\
     ((web (requests (world p)) (fixed_url asset) = Ok tt /\
       disk (world p') = local_path asset :: disk (world p) /\
       successful_downloads p' = S (successful_downloads p)) \/
      ((exists e, web (requests (world p)) (fixed_url asset) = Raise e) /\
       disk (world p') = disk (world p) /\
       successful_downloads p' = successful_downloads p))))).
Proof.
  intros asset p'. subst p'. unfold process_game, has_image_url.
  destruct (get (entry_image_url game) []) as [|c url] eqn:E; [now left|].
  right. split; [reflexivity|]. fold asset.
  assert (Hbad : (if Str.contains bad_quality (c :: url)
                  then S (bad_quality_fixed p) else bad_quality_fixed p)
                 = bad_quality_fixed p
                   + (if Str.contains bad_quality (original_url asset)
                      then 1 else 0)).
  { unfold asset, asset_for. cbn [original_url]. rewrite E.
    destruct (Str.contains bad_quality (c :: url)); lia. }
  destruct (path_exists (world p) (local_path asset)) eqn:Hex.
  - cbn [processed_games bad_quality_fixed world successful_downloads].
    repeat split; try assumption. left. now repeat split.
  - unfold download_and_convert_image.
    destruct (web (requests (world p)) (fixed_url asset)) as [[]|e] eqn:Hweb;
      cbn [processed_games bad_quality_fixed world successful_downloads
           requests disk];
      (split; [reflexivity|]); (split; [exact Hbad|]); right;
      (split; [reflexivity|]); (split; [reflexivity|]).
    + left. now repeat split.
    + right. split; [now exists e | now split].
Qed.

Lemma fixed_url_normalised (i : nat) (game : GameEntry) :
  normalised (fixed_url (asset_for provider_name provider_dir i game)).
Proof.
  unfold asset_for. cbn [fixed_url]. split;
    [apply fix_removes_bad | apply fix_removes_good_pattern].
Qed.

(** What a whole pass over the records keeps. *)
Lemma process_games_account (games : list GameEntry) :
  forall i p,
    let p' := process_games web provider_name provider_dir i games p in
    exists new,
      requests (world p') = requests (world p) ++ new /\
      Forall normalised new /\
      incl (disk (world p)) (disk (world p')) /\
      List.length (processed_games p')
      = List.length (processed_games p) + List.length (filter has_image_url games) /\
      successful_downloads p' <= successful_downloads p
                                + List.length (filter has_image_url games) /\
      successful_downloads p + List.length (filter has_image_url games)
      <= successful_downloads p' + List.length new /\
      List.length new <= List.length (filter has_image_url games) /\
      bad_quality_fixed p'
      = bad_quality_fixed p
        + List.length
            (filter (fun g => Str.contains bad_quality (get (entry_image_url g) []))
                    games).
Proof.
  induction games as [|g games IH]; intros i p; cbv zeta; cbn [process_games].
  - exists []. rewrite app_nil_r. simpl.
    repeat split; try lia; [constructor | apply incl_refl].
  - destruct (IH (S i) (process_game web provider_name provider_dir i g p))
      as (new & Hreq & Hnorm & Hdisk & Hlen & Hs1 & Hs2 & Hn & Hbad).
    pose proof (process_game_turn i g p) as Hturn. cbv zeta in Hturn.
    destruct Hturn as [[Hurl Hp] | (Hurl & Hlist & Hb & Hcase)].
    + rewrite Hp in *. exists new. simpl. rewrite Hurl.
      assert (Str.contains bad_quality (get (entry_image_url g) []) = false) as ->.
      { unfold has_image_url in Hurl.
        now destruct (get (entry_image_url g) []). }
      now repeat split.
    + assert (Hb' : bad_quality_fixed
                      (process_game web provider_name provider_dir i g p)
                    = bad_quality_fixed p
                      + (if Str.contains bad_quality (get (entry_image_url g) [])
                         then 1 else 0)) by exact Hb.
      simpl filter. rewrite Hurl.
      destruct Hcase as [(Hex & Hw & Hs) | (Hex & Hr & Hdl)].
      * exists new. rewrite Hw in *. rewrite Hlist, length_app in Hlen.
        simpl in *. repeat split; try assumption; try lia.
        rewrite Hbad, Hb'.
        destruct (Str.contains bad_quality (get (entry_image_url g) [])); simpl; lia.
      * exists (fixed_url (asset_for provider_name provider_dir i g) :: new).
        rewrite Hlist, length_app in Hlen. rewrite Hr, <- app_assoc in Hreq.
        simpl in *.
        assert (Hd : incl (disk (world p))
                       (disk (world (process_game web provider_name
                                       provider_dir i g p)))).
        { destruct Hdl as [(_ & -> & _) | (_ & -> & _)];
            [apply incl_tl|]; apply incl_refl. }
        repeat split; try assumption.
        -- constructor; [apply (fixed_url_normalised i g) | exact Hnorm].
        -- eapply incl_tran; eassumption.
        -- lia.
        -- destruct Hdl as [(_ & _ & Hs) | (_ & _ & Hs)]; lia.
        -- destruct Hdl as [(_ & _ & Hs) | (_ & _ & Hs)]; lia.
        -- lia.
        -- rewrite Hbad, Hb'.
           destruct (Str.contains bad_quality (get (entry_image_url g) []));
             simpl; lia.
Qed.

Lemma path_exists_incl (w w' : World) (path : str) :
  incl (disk w) (disk w') ->
  path_exists w path = true -> path_exists w' path = true.
Proof.
  unfold path_exists. intros Hincl H.
  apply existsb_exists in H as (x & Hx & E).
  apply existsb_exists. exists x. split; [now apply Hincl | exact E].
Qed.

(** With a server that always answers, every turn ends with the file of
    its record on disk. *)
Lemma process_games_all_fetched (games : list GameEntry) :
  (forall history url, web history url = Ok tt) ->
  forall i p,
    let p' := process_games web provider_name provider_dir i games p in
    exists entries,
      processed_games p' = processed_games p ++ entries /\
      successful_downloads p' = successful_downloads p + List.length entries /\
      Forall (fun a => path_exists (world p') (local_path a) = true) entries.
Proof.
  intros Hweb. induction games as [|g games IH]; intros i p; cbv zeta;
    cbn [process_games].
  - exists []. rewrite app_nil_r. simpl. repeat split; [lia | constructor].
  - destruct (IH (S i) (process_game web provider_name provider_dir i g p))
      as (entries & Hlist & Hcount & Hall).
    destruct (process_games_account games (S i)
                (process_game web provider_name provider_dir i g p))
      as (_ & _ & _ & Hdisk & _).
    pose proof (process_game_turn i g p) as Hturn. cbv zeta in Hturn.
    destruct Hturn as [[_ Hp] | (_ & Hl & _ & Hcase)].
    + rewrite Hp in *. now exists entries.
    + exists (asset_for provider_name provider_dir i g :: entries).
      rewrite Hl, <- app_assoc in Hlist.
      assert (Hnow : path_exists
                       (world (process_game web provider_name provider_dir i g p))
                       (local_path (asset_for provider_name provider_dir i g))
                     = true /\
                     successful_downloads
                       (process_game web provider_name provider_dir i g p)
                     = S (successful_downloads p)).
      { destruct Hcase as [(Hex & -> & Hs) | (_ & _ & [(_ & Hd & Hs) | ([e He] & _)])].
        - now split.
        - split; [|exact Hs]. unfold path_exists. rewrite Hd. simpl.
          now rewrite str_eqb_refl.
        - rewrite Hweb in He. discriminate. }
      destruct Hnow as [Hex Hs].
      split; [exact Hlist|]. split; [simpl; lia|].
      constructor; [|exact Hall].
      eapply path_exists_incl; eassumption.
Qed.

(** When the file of every record is there already, a pass asks the server
    for nothing. *)
Lemma process_games_all_present (games : list GameEntry) :
  forall i p,
    (forall j g, In (j, g) (combine (seq i (List.length games)) games) ->
       has_image_url g = true ->
       path_exists (world p)
         (local_path (asset_for provider_name provider_dir j g)) = true) ->
    let p' := process_games web provider_name provider_dir i games p in
    world p' = world p /\
    successful_downloads p'
    = successful_downloads p + List.length (filter has_image_url games).
Proof.
  induction games as [|g games IH]; intros i p Hall; cbv zeta;
    cbn [process_games].
  - simpl. split; [reflexivity | lia].
  - pose proof (process_game_turn i g p) as Hturn. cbv zeta in Hturn.
    assert (Hrest : forall j g',
               In (j, g') (combine (seq (S i) (List.length games)) games) ->
               has_image_url g' = true ->
               path_exists (world p)
                 (local_path (asset_for provider_name provider_dir j g')) = true).
    { intros j g' Hin. apply Hall. simpl. now right. }
    destruct Hturn as [[Hurl Hp] | (Hurl & _ & _ & Hcase)].
    + rewrite Hp. simpl. rewrite Hurl. now apply IH.
    + destruct Hcase as [(_ & Hw & Hs) | (Hex & _)].
      * destruct (IH (S i) (process_game web provider_name provider_dir i g p))
          as [Hw' Hs'].
        { now rewrite Hw. }
        simpl. rewrite Hurl, Hw', Hs', Hw, Hs. simpl.
        split; [reflexivity | lia].
      * rewrite Hall in Hex; [discriminate | simpl; now left | exact Hurl].
Qed.

End AssetRuns.

Section AssetExtras.
Import Fixer.

Lemma process_provider_cases (web : Web) (provider_name : str)
    (file : outcome (list GameEntry)) (w : World) :
  let p := process_provider_with_fixed_urls web provider_name file w in
  let provider_dir := path_join (lit "Final_Quality_Fixed") provider_name in
  (p = initial_progress w /\ entries_of (provider_name, file) = []) \/
  (exists games,
     file = Ok games /\
     p = process_games web provider_name provider_dir 1 games
           (initial_progress (makedirs provider_dir w))).
Proof.
  destruct file as [[|g games]|e]; cbv zeta.
  - left. now split.
  - right. now exists (g :: games).
  - left. now split.
Qed.

Lemma bad_count_entries (provider_name provider_dir : str)
    (games : list GameEntry) :
  forall i,
    List.length
      (filter (fun g => Str.contains bad_quality (get (entry_image_url g) []))
              games)
    = List.length
        (filter (fun a => Str.contains bad_quality (original_url a))
           (map (fun ig => asset_for provider_name provider_dir (fst ig) (snd ig))
              (filter (fun ig => has_image_url (snd ig))
                      (combine (seq i (List.length games)) games)))).
Proof.
  induction games as [|g games IH]; intros i; [reflexivity|].
  cbn [List.length seq combine filter snd].
  unfold has_image_url at 1.
  destruct (get (entry_image_url g) []) as [|c url] eqn:E.
  - cbn [Str.contains Str.is_prefix bad_quality lit list_ascii_of_string].
    apply IH.
  - cbn [map filter fst snd]. unfold asset_for at 1. cbn [original_url].
    rewrite E.
    destruct (Str.contains bad_quality (c :: url)); simpl; now rewrite <- IH.
Qed.

(** What a pass asks the server for, and what it leaves on disk. *)
Lemma process_provider_account (web : Web) (provider_name : str)
    (file : outcome (list GameEntry)) (w : World) :
  let p := process_provider_with_fixed_urls web provider_name file w in
  exists new,
    requests (world p) = requests w ++ new /\
    Forall normalised new /\
    List.length new <= List.length (processed_games p) /\
    incl (disk w) (disk (world p)).
Proof.
  destruct (process_provider_cases web provider_name file w)
    as [[-> _] | (games & -> & Hp)]; cbv zeta.
  - exists []. rewrite app_nil_r. simpl.
    repeat split; [constructor | lia | apply incl_refl].
  - rewrite Hp.
    destruct (process_games_account web provider_name
                (path_join (lit "Final_Quality_Fixed") provider_name) games 1
                (initial_progress (makedirs
                   (path_join (lit "Final_Quality_Fixed") provider_name) w)))
      as (new & Hreq & Hnorm & Hdisk & Hlen & _ & _ & Hn & _).
    cbn [initial_progress makedirs requests world processed_games disk
         List.length Nat.add] in *.
    exists new. repeat split; try assumption; [lia|].
    intros x Hx. apply Hdisk. now right.
Qed.

(** X5: the counters a pass prints.  The successes never exceed the
    records; every record that is no success was requested; and the count
    of repaired URLs is the number of records whose original URL holds the
    low-quality marker. *)
Theorem download_counters (web : Web) (provider_name : str)
    (file : outcome (list GameEntry)) (w : World) :
  let p := process_provider_with_fixed_urls web provider_name file w in
  successful_downloads p <= List.length (processed_games p) /\
  List.length (processed_games p)
  <= successful_downloads p
     + (List.length (requests (world p)) - List.length (requests w)) /\
  bad_quality_fixed p
  = List.length (filter (fun a => Str.contains bad_quality (original_url a))
                        (processed_games p)).
Proof.
  destruct (process_provider_cases web provider_name file w)
    as [[-> _] | (games & -> & Hp)]; cbv zeta.
  - simpl. repeat split; lia.
  - rewrite Hp.
    destruct (process_games_account web provider_name
                (path_join (lit "Final_Quality_Fixed") provider_name) games 1
                (initial_progress (makedirs
                   (path_join (lit "Final_Quality_Fixed") provider_name) w)))
      as (new & Hreq & _ & _ & Hlen & Hs1 & Hs2 & _ & Hbad).
    cbn [initial_progress makedirs requests world processed_games
         successful_downloads bad_quality_fixed List.length Nat.add] in *.
    rewrite Hreq, Hlen, Hbad, length_app.
    repeat split; try lia.
    rewrite process_games_processed. apply bad_count_entries.
Qed.

Lemma process_provider_files_there (web : Web) (provider_name : str)
    (file : outcome (list GameEntry)) (w : World) :
  (forall history url, web history url = Ok tt) ->
  let p := process_provider_with_fixed_urls web provider_name file w in
  Forall (fun a => path_exists (world p) (local_path a) = true)
         (processed_games p).
Proof.
  intros Hweb.
  destruct (process_provider_cases web provider_name file w)
    as [[-> _] | (games & -> & Hp)]; cbv zeta; [constructor|].
  rewrite Hp.
  destruct (@process_games_all_fetched web provider_name
              (path_join (lit "Final_Quality_Fixed") provider_name) games
              Hweb 1
              (initial_progress (makedirs
                 (path_join (lit "Final_Quality_Fixed") provider_name) w)))
    as (entries & Hlist & _ & Hall).
  cbn [initial_progress processed_games app] in Hlist.
  now rewrite Hlist.
Qed.

(** X6: when every download attempt of a pass goes through (the request is
    answered, the image is decoded and converted, and the file is saved),
    the pass ends with as many successes as records, the file of every
    record is on disk, and never more than one request was made per
    record. *)
Theorem all_downloads_succeed (web : Web) (provider_name : str)
    (file : outcome (list GameEntry)) (w : World) :
  (forall history url, web history url = Ok tt) ->
  let p := process_provider_with_fixed_urls web provider_name file w in
  successful_downloads p = List.length (processed_games p) /\
  Forall (fun a => path_exists (world p) (local_path a) = true)
         (processed_games p) /\
  List.length (requests (world p)) - List.length (requests w)
  <= List.length (processed_games p).
Proof.
  intros Hweb p.
  pose proof (@process_provider_files_there web provider_name file w Hweb)
    as Hthere.
  destruct (process_provider_account web provider_name file w)
    as (new & Hreq & _ & Hn & _).
  fold p in Hthere, Hreq, Hn.
  assert (Hcount : successful_downloads p = List.length (processed_games p)).
  { subst p.
    destruct (process_provider_cases web provider_name file w)
      as [[-> _] | (games & -> & Hp)]; cbv zeta; [reflexivity|].
    rewrite Hp.
    destruct (@process_games_all_fetched web provider_name
                (path_join (lit "Final_Quality_Fixed") provider_name) games
                Hweb 1
                (initial_progress (makedirs
                   (path_join (lit "Final_Quality_Fixed") provider_name) w)))
      as (entries & Hlist & Hc & _).
    cbn [initial_progress processed_games successful_downloads app Nat.add]
      in Hlist, Hc.
    now rewrite Hlist, Hc. }
  split; [exact Hcount|]. split; [exact Hthere|].
  rewrite Hreq, length_app. lia.
Qed.

Lemma all_downloads_succeed_witness :
  let p := process_provider_with_fixed_urls live_web (lit "Acme")
             (Ok [sample_game]) no_files in
  successful_downloads p = List.length (processed_games p) /\
  Forall (fun a => path_exists (world p) (local_path a) = true)
         (processed_games p) /\
  List.length (requests (world p)) - List.length (requests no_files)
  <= List.length (processed_games p).
Proof.
  apply (@all_downloads_succeed live_web (lit "Acme") (Ok [sample_game])
           no_files).
  intros history url. reflexivity.
Defined.

(** X7: a second pass over a provider whose first pass met a server that
    answered every request asks the server for nothing, whatever the server
    would answer now; it lists the same records and counts every one of
    them as a success. *)
Theorem rerun_fetches_nothing (web1 web2 : Web) (provider_name : str)
    (file : outcome (list GameEntry)) (w : World) :
  (forall history url, web1 history url = Ok tt) ->
  let first := process_provider_with_fixed_urls web1 provider_name file w in
  let second :=
    process_provider_with_fixed_urls web2 provider_name file (world first) in
  requests (world second) = requests (world first) /\
  processed_games second = processed_games first /\
  successful_downloads second = List.length (processed_games second).
Proof.
  intros Hweb first second.
  pose proof (@process_provider_files_there web1 provider_name file w Hweb)
    as Hthere. fold first in Hthere.
  destruct file as [[|g games]|e]; try (now repeat split).
  set (gs := g :: games) in *.
  set (dir := path_join (lit "Final_Quality_Fixed") provider_name).
  assert (Hfirst : processed_games first
                   = map (fun ig => asset_for provider_name dir (fst ig) (snd ig))
                       (filter (fun ig => has_image_url (snd ig))
                               (combine (seq 1 (List.length gs)) gs))).
  { unfold first. rewrite process_provider_unfold by discriminate.
    now rewrite process_games_processed. }
  assert (Hsecond : second
                    = process_games web2 provider_name dir 1 gs
                        (initial_progress (makedirs dir (world first))))
    by reflexivity.
  destruct (@process_games_all_present web2 provider_name dir gs 1
              (initial_progress (makedirs dir (world first)))) as [Hw Hs].
  { intros j x Hin Hurl. cbn [initial_progress world].
    apply (@path_exists_incl (world first)); [intros y Hy; now right|].
    rewrite Forall_forall in Hthere. apply Hthere. rewrite Hfirst.
    apply in_map_iff. exists (j, x). split; [reflexivity|].
    apply filter_In. now split. }
  destruct (process_games_account web2 provider_name dir gs 1
              (initial_progress (makedirs dir (world first))))
    as (_ & _ & _ & _ & Hlen & _).
  rewrite <- Hsecond in Hw, Hs, Hlen.
  cbn [initial_progress world successful_downloads processed_games makedirs
       List.length Nat.add] in Hw, Hs, Hlen.
  split; [now rewrite Hw|]. split; [|now rewrite Hs, Hlen].
  rewrite Hfirst, Hsecond. now rewrite process_games_processed.
Qed.

Lemma rerun_fetches_nothing_witness :
  let first := process_provider_with_fixed_urls live_web (lit "Acme")
                 (Ok [sample_game]) no_files in
  let second := process_provider_with_fixed_urls dead_web (lit "Acme")
                  (Ok [sample_game]) (world first) in
  requests (world second) = requests (world first) /\
  processed_games second = processed_games first /\
  successful_downloads second = List.length (processed_games second).
Proof.
  apply (@rerun_fetches_nothing live_web dead_web (lit "Acme")
           (Ok [sample_game]) no_files).
  intros history url. reflexivity.
Defined.

End AssetExtras.

(** ** The metadata of the asset stage *)

Section Aggregation.
Import Fixer.

Lemma processed_games_entries (web : Web) (provider_name : str)
    (file : outcome (list GameEntry)) (w : World) :
  processed_games (process_provider_with_fixed_urls web provider_name file w)
  = entries_of (provider_name, file).
Proof.
  destruct file as [[|g games]|e]; try reflexivity.
  rewrite process_provider_unfold by discriminate.
  now rewrite process_games_processed.
Qed.

Lemma process_providers_entries (web : Web)
    (providers : list (str * outcome (list GameEntry))) :
  forall acc w,
    fst (process_providers web providers acc w)
    = acc ++ flat_map entries_of providers.
Proof.
  induction providers as [|[name file] providers IH]; intros acc w; simpl.
  - now rewrite app_nil_r.
  - now rewrite IH, processed_games_entries, <- app_assoc.
Qed.

Lemma entries_of_provider (provider : str * outcome (list GameEntry))
    (a : FetchedAsset) :
  In a (entries_of provider) -> game_provider a = fst provider.
Proof.
  unfold entries_of. destruct (snd provider) as [games|e]; [|contradiction].
  intros H. apply in_map_iff in H as (ig & <- & _). reflexivity.
Qed.

Lemma nodup_length_same (l1 l2 : list str) :
  (forall x, In x l1 <-> In x l2) ->
  List.length (nodup str_eq_dec l1) = List.length (nodup str_eq_dec l2).
Proof.
  intros H. apply Nat.le_antisymm; apply NoDup_incl_length;
    try apply NoDup_nodup; intros x Hx;
    apply nodup_In; apply nodup_In in Hx; now apply H.
Qed.

Lemma nodup_length_le (l : list str) :
  List.length (nodup str_eq_dec l) <= List.length l.
Proof.
  apply NoDup_incl_length; [apply NoDup_nodup|].
  intros x Hx. now apply nodup_In in Hx.
Qed.

Lemma providers_with_entries
    (providers : list (str * outcome (list GameEntry))) (x : str) :
  In x (map game_provider (flat_map entries_of providers)) <->
  In x (map fst (filter has_entries providers)).
Proof.
  split; intros H.
  - apply in_map_iff in H as (a & <- & Ha).
    apply in_flat_map in Ha as (p & Hp & Ha).
    apply in_map_iff. exists p. split; [symmetry; now apply entries_of_provider|].
    apply filter_In. split; [exact Hp|]. unfold has_entries.
    now destruct (entries_of p).
  - apply in_map_iff in H as (p & <- & Hp).
    apply filter_In in Hp as [Hp He]. unfold has_entries in He.
    destruct (entries_of p) as [|a rest] eqn:E; [discriminate|].
    apply in_map_iff. exists a. split.
    + apply entries_of_provider. rewrite E. now left.
    + apply in_flat_map. exists p. split; [exact Hp|]. rewrite E. now left.
Qed.

Lemma length_flat_map_sum {A B : Type} (f : A -> list B) (l : list A) :
  List.length (flat_map f l) = list_sum (map (fun x => List.length (f x)) l).
Proof.
  induction l as [|x l IH]; simpl; [reflexivity|].
  now rewrite length_app, IH.
Qed.

(** X8: the metadata of the asset stage, over provider files whose records
    hold strings (or nothing) under [name], [image_url] and [game_link], as
    the listing stage writes them.  When the input directory exists the
    stage writes its metadata whatever the downloads do.  The records are
    those of the providers in listing order; [total_games] is the sum of
    their numbers; [total_providers] counts the distinct names of the
    providers that gave at least one record, so it exceeds neither the
    providers found nor the records; the CSV has a header and one row per
    record. *)
Theorem aggregation_totals (web : Web) (now : str) (items : list DirItem)
    (w : World) :
  let providers := find_providers items in
  exists metadata,
    fst (main web now (Some items) w) = Some metadata /\
    metadata_games metadata = flat_map entries_of providers /\
    total_games metadata
    = list_sum (map (fun p => List.length (entries_of p)) providers) /\
    total_providers metadata
    = List.length (nodup str_eq_dec (map fst (filter has_entries providers))) /\
    total_providers metadata <= List.length providers /\
    total_providers metadata <= total_games metadata /\
    List.length (csv_rows metadata) = S (total_games metadata).
Proof.
  intros providers. unfold main.
  destruct (process_providers web (find_providers items) []
              (makedirs (lit "Final_Quality_Fixed") w)) as [all w'] eqn:E.
  pose proof (process_providers_entries web (find_providers items) []
                (makedirs (lit "Final_Quality_Fixed") w)) as Hall.
  rewrite E in Hall. cbn [fst app] in Hall. fold providers in Hall. subst all.
  eexists. split; [reflexivity|].
  cbn [create_metadata_files metadata_games total_games total_providers csv_rows].
  assert (Hdistinct :
    List.length (nodup str_eq_dec
                   (map game_provider (flat_map entries_of providers)))
    = List.length (nodup str_eq_dec (map fst (filter has_entries providers)))).
  { apply nodup_length_same, providers_with_entries. }
  split; [reflexivity|]. split; [apply length_flat_map_sum|].
  split; [exact Hdistinct|]. split; [|split].
  - rewrite Hdistinct.
    etransitivity; [apply nodup_length_le|].
    rewrite length_map. apply filter_length_le.
  - etransitivity; [apply nodup_length_le|]. now rewrite length_map.
  - simpl. now rewrite length_map.
Qed.

Lemma process_providers_account (web : Web)
    (providers : list (str * outcome (list GameEntry))) :
  forall acc w,
    exists new,
      requests (snd (process_providers web providers acc w))
      = requests w ++ new /\
      Forall normalised new /\
      List.length acc + List.length new
      <= List.length (fst (process_providers web providers acc w)) /\
      incl (disk w) (disk (snd (process_providers web providers acc w))).
Proof.
  induction providers as [|[name file] providers IH]; intros acc w;
    cbn [process_providers].
  - exists []. rewrite app_nil_r. cbn [fst snd List.length].
    repeat split; [constructor | lia | apply incl_refl].
  - destruct (process_provider_account web name file w)
      as (new1 & Hreq1 & Hnorm1 & Hlen1 & Hdisk1).
    destruct (IH (acc ++ processed_games
                          (process_provider_with_fixed_urls web name file w))
                 (world (process_provider_with_fixed_urls web name file w)))
      as (new2 & Hreq2 & Hnorm2 & Hlen2 & Hdisk2).
    exists (new1 ++ new2). rewrite Hreq2, Hreq1, <- app_assoc.
    rewrite length_app in Hlen2. rewrite length_app.
    repeat split.
    + now apply Forall_app.
    + lia.
    + eapply incl_tran; eassumption.
Qed.

(** X4: the asset stage as a whole, over provider files whose records hold
    strings (or nothing) under [name], [image_url] and [game_link], as the
    listing stage writes them.  Every URL it requests has gone through the
    normaliser: it holds neither the low-quality marker nor the pattern of
    the second replacement.  It makes at most one request per record of the
    metadata, keeps the earlier entries of the request log, and removes no
    file.  Without the input directory it does nothing at all; with it,
    both metadata files are on disk at the end. *)
Theorem requests_are_normalised (web : Web) (now : str)
    (listing : option (list DirItem)) (w : World) :
  let metadata := fst (main web now listing w) in
  let w' := snd (main web now listing w) in
  exists new,
    requests w' = requests w ++ new /\
    Forall normalised new /\
    incl (disk w) (disk w') /\
    match metadata with
    | None => listing = None /\ w' = w
    | Some m =>
        List.length new <= total_games m /\
        path_exists w' (lit "Final_Quality_Fixed/games_metadata.csv") = true /\
        path_exists w' (lit "Final_Quality_Fixed/games_metadata.json") = true
    end.
Proof.
  destruct listing as [items|]; cbv zeta; unfold main.
  - destruct (process_providers_account web (find_providers items) []
                (makedirs (lit "Final_Quality_Fixed") w))
      as (new & Hreq & Hnorm & Hlen & Hdisk).
    destruct (process_providers web (find_providers items) []
                (makedirs (lit "Final_Quality_Fixed") w)) as [all w1].
    cbn [fst snd makedirs write_file requests disk List.length Nat.add
         create_metadata_files total_games] in *.
    exists new. split; [exact Hreq|]. split; [exact Hnorm|]. split.
    + intros x Hx. right. right. apply Hdisk. now right.
    + split; [exact Hlen|]. split; reflexivity.
  - exists []. rewrite app_nil_r. cbn [fst snd].
    repeat split; [constructor | apply incl_refl].
Qed.

End Aggregation.

(** ** Two records that share a file *)

Section SharedFiles.
Import Fixer.

(** X20: two records of a provider whose names are the same once sanitised
    share one image file.  When the first is downloaded, the second finds
    the file there: its own image is never requested, it is counted as a
    success all the same, and its record points to the image of the
    first. *)
Theorem colliding_names_share_file (web : Web)
    (provider_name provider_dir : str) (i j : nat) (g1 g2 : GameEntry)
    (p : Progress) :
  let a1 := asset_for provider_name provider_dir i g1 in
  let a2 := asset_for provider_name provider_dir j g2 in
  let p2 := process_game web provider_name provider_dir j g2
              (process_game web provider_name provider_dir i g1 p) in
  has_image_url g1 = true ->
  has_image_url g2 = true ->
  sanitize_filename (game_title a1) = sanitize_filename (game_title a2) ->
  path_exists (world p) (local_path a1) = false ->
  web (requests (world p)) (fixed_url a1) = Ok tt ->
  local_path a2 = local_path a1 /\
  requests (world p2) = requests (world p) ++ [fixed_url a1] /\
  successful_downloads p2 = S (S (successful_downloads p)) /\
  processed_games p2 = processed_games p ++ [a1; a2].
Proof.
  intros a1 a2 p2 Hu1 Hu2 Hsame Hnew Hweb.
  assert (Hpath : local_path a2 = local_path a1).
  { unfold a1, a2, asset_for in *. cbn [local_path game_title] in *.
    unfold file_name_for. now rewrite Hsame. }
  split; [exact Hpath|].
  pose proof (process_game_turn web provider_name provider_dir i g1 p) as T1.
  cbv zeta in T1. fold a1 in T1.
  destruct T1 as [[E _] | (_ & Hl1 & _ & T1)]; [congruence|].
  destruct T1 as [(E & _) | (_ & Hr1 & T1)]; [congruence|].
  destruct T1 as [(_ & Hd1 & Hs1) | ([e E] & _)]; [|congruence].
  pose proof (process_game_turn web provider_name provider_dir j g2
                (process_game web provider_name provider_dir i g1 p)) as T2.
  cbv zeta in T2. fold a2 p2 in T2.
  destruct T2 as [[E _] | (_ & Hl2 & _ & T2)]; [congruence|].
  destruct T2 as [(_ & Hw2 & Hs2) | (E & _)].
  - rewrite Hw2, Hr1, Hs2, Hs1, Hl2, Hl1, <- app_assoc. now repeat split.
  - unfold path_exists in E. rewrite Hd1, Hpath in E. cbn [existsb] in E.
    now rewrite str_eqb_refl in E.
Qed.

Lemma colliding_names_share_file_witness :
  let second :=
    {| entry_name := Some (lit "Big Bass.");
       entry_image_url := Some (lit "https://cdn/i/other.png");
       entry_game_link := Some (lit "/game/big-bass-2") |} in
  let p2 := process_game live_web (lit "Acme") (lit "Final_Quality_Fixed/Acme")
              2 second
              (process_game live_web (lit "Acme")
                 (lit "Final_Quality_Fixed/Acme") 1 sample_game
                 (initial_progress no_files)) in
  requests (world p2) = [lit "https://cdn/i/quality=90,blur=0/bass.png"] /\
  successful_downloads p2 = 2 /\
  map local_path (processed_games p2)
  = [lit "Final_Quality_Fixed/Acme/Acme - Big Bass.webp";
     lit "Final_Quality_Fixed/Acme/Acme - Big Bass.webp"].
Proof.
  intros second p2.
  assert (Hsame : sanitize_filename (lit "Big Bass")
                  = sanitize_filename (lit "Big Bass."))
    by (vm_compute; reflexivity).
  assert (Hnew : path_exists (world (initial_progress no_files))
                   (local_path (asset_for (lit "Acme")
                                  (lit "Final_Quality_Fixed/Acme") 1
                                  sample_game)) = false)
    by reflexivity.
  destruct (@colliding_names_share_file live_web (lit "Acme")
              (lit "Final_Quality_Fixed/Acme") 1 2 sample_game second
              (initial_progress no_files)
              eq_refl eq_refl Hsame Hnew eq_refl)
    as (_ & Hreq & Hcount & Hlist).
  split; [exact Hreq|]. split; [exact Hcount|].
  exact (f_equal (map local_path) Hlist).
Defined.

End SharedFiles.

(** ** More on the extraction of one page *)

Section PageExtractorMore.
Import Scraper.

Lemma load_more_loop_clicks (button : nat -> bool) (budget : nat) :
  forall c n, load_more_loop budget button c = Some n ->
    (forall j, c <= j < n -> button j = true) /\
    (n < SAFETY_LIMIT -> button n = false).
Proof.
  induction budget as [|budget IH]; intros c n H;
    rewrite load_more_loop_eq in H;
    destruct (Nat.ltb_spec c SAFETY_LIMIT) as [Hlt|Hge];
    try discriminate;
    try (injection H as <-; split; [intros j Hj; lia | lia]).
  destruct (button c) eqn:Hc.
  - pose proof (load_more_loop_bound _ _ _ H) as [Hle _].
    apply IH in H as [Hall Hstop]. split; [|exact Hstop].
    intros j Hj. destruct (Nat.eq_dec j c) as [->|Hne]; [exact Hc|].
    apply Hall. lia.
  - injection H as <-. split; [intros j Hj; lia | now intros _].
Qed.

(** X9: the click count is the position of the first lookup of the
    control that fails, capped at fifty: every lookup before it found the
    control, and below the cap the next one did not. *)
Theorem click_count_exact (button : nat -> bool) :
  let k := click_load_more button in
  k <= 50 /\
  (forall j, j < k -> button j = true) /\
  (k < 50 -> button k = false).
Proof.
  intros k. destruct (click_load_more_spec button) as [Hrun Hle].
  apply load_more_loop_clicks in Hrun as [Hall Hstop].
  split; [exact Hle|]. split; [|exact Hstop].
  intros j Hj. apply Hall. lia.
Qed.

Lemma extract_games_indices (anchors : list Anchor) :
  forall i,
    StronglySorted lt (map index (extract_games i anchors)) /\
    Forall (fun g => i <= index g < i + List.length anchors /\ name g <> [])
           (extract_games i anchors) /\
    List.length (extract_games i anchors)
    = List.length (filter anchor_ok anchors).
Proof.
  induction anchors as [|a anchors IH]; intros i; simpl.
  - repeat split; constructor.
  - destruct (IH (S i)) as (Hsorted & Hall & Hlen).
    assert (Hall' : Forall (fun g => i <= index g < i + S (List.length anchors)
                                     /\ name g <> [])
                           (extract_games (S i) anchors)).
    { eapply Forall_impl; [|exact Hall]. cbv beta. intros g [Hg Hn]. split; [lia | exact Hn]. }
    destruct (extract_game i a) as [g|e] eqn:E.
    + pose proof (extract_game_ok _ _ E) as [Hi Hok]. rewrite Hok.
      split; [|split].
      * simpl. constructor; [exact Hsorted|].
        rewrite Forall_map. eapply Forall_impl; [|exact Hall].
        cbv beta. intros g' [Hg' _]. lia.
      * constructor; [|exact Hall']. split; [lia|].
        unfold extract_game, bind in E.
        destruct (img a) as [im|]; [|discriminate].
        destruct (alt im) as [al|]; [|discriminate].
        destruct (src im); [|discriminate].
        destruct (href a); [|discriminate].
        injection E as <-. cbn [name].
        destruct al as [[|c s]|]; discriminate.
      * simpl. now rewrite Hlen.
    + apply extract_game_raise in E. rewrite E. now repeat split.
Qed.

Lemma scrape_games_cases (session : Session) (anchors : list Anchor) :
  find_anchors session = Ok anchors ->
  let result := scrape_single_provider session in
  (success result = true /\ games result = extract_games 1 anchors) \/
  (success result = false /\ games result = []).
Proof.
  intros Hfind. cbv zeta. unfold scrape_single_provider, bind.
  destruct (navigate session) as [[]|e]; [|now right].
  rewrite Hfind.
  destruct (page_source session) as [snapshot|e]; [now left | now right].
Qed.

(** X11: the records of a result carry strictly increasing indices, each
    the position of its anchor among the anchors found, counted from one,
    and a name that is not empty; a successful result has one record per
    anchor whose extraction went through. *)
Theorem harvested_records (session : Session) (anchors : list Anchor) :
  find_anchors session = Ok anchors ->
  let result := scrape_single_provider session in
  StronglySorted lt (map index (games result)) /\
  Forall (fun g => 1 <= index g <= List.length anchors /\ name g <> [])
         (games result) /\
  (success result = true ->
   List.length (games result) = List.length (filter anchor_ok anchors)).
Proof.
  intros Hfind result.
  destruct (extract_games_indices anchors 1) as (Hsorted & Hall & Hlen).
  destruct (@scrape_games_cases session anchors Hfind) as [(Hs & Hg) | (Hs & Hg)];
    fold result in Hs, Hg; rewrite Hg.
  - split; [exact Hsorted|]. split; [|now intros _].
    eapply Forall_impl; [|exact Hall]. cbv beta. intros g [Hi Hn].
    split; [lia | exact Hn].
  - split; [constructor|]. split; [constructor|]. rewrite Hs. discriminate.
Qed.

Lemma harvested_records_witness :
  let result := scrape_single_provider sample_page in
  StronglySorted lt (map index (games result)) /\
  Forall (fun g => 1 <= index g <= 3 /\ name g <> []) (games result) /\
  (success result = true -> List.length (games result) = 2).
Proof.
  apply (@harvested_records sample_page
           [tile "Alpha" "https://cdn/a.png" "/game/alpha";
            broken_tile;
            tile "" "https://cdn/c.png" "/game/gamma"]).
  reflexivity.
Defined.

End PageExtractorMore.

(** ** More on a run of the batch *)

Section BatchMore.
Import Scraper.

Variable env : Env.

Lemma saved_names_app (a b : list Event) :
  saved_names (a ++ b) = saved_names a ++ saved_names b.
Proof.
  induction a as [|ev a IH]; simpl; [reflexivity|].
  destruct ev; simpl; now rewrite ?IH.
Qed.

Lemma is_completed_app (name : str) (a b : list Json.json) :
  is_completed name (a ++ b) = is_completed name a || is_completed name b.
Proof. apply existsb_app. Qed.

Lemma is_completed_names (name : str) (names : list str) :
  is_completed name (map Json.JStr names) = true <-> In name names.
Proof.
  unfold is_completed. rewrite existsb_exists. split.
  - intros (x & Hx & E). apply in_map_iff in Hx as (n & <- & Hn).
    apply str_eqb_eq in E. now subst.
  - intros H. exists (Json.JStr name). split; [now apply in_map|].
    apply str_eqb_refl.
Qed.

Section Appending.
Variable loaded : list Json.json.
Variable files0 : list str.

(** The completed list is the loaded one followed by the names saved so
    far, each once and none of them loaded; the provider files are the old
    ones followed by three per saved name. *)
Let appended (st : RunState) : Prop :=
  completed_providers st = loaded ++ map Json.JStr (saved_names (trace st)) /\
  NoDup (saved_names (trace st)) /\
  Forall (fun n => is_completed n loaded = false) (saved_names (trace st)) /\
  provider_files (disk st)
  = files0 ++ flat_map provider_paths (saved_names (trace st)).

Lemma visit_appended (i : nat) (target : str * str) (st : RunState) :
  appended st -> appended (visit env i target st).
Proof.
  intros (Hc & Hnd & Hnew & Hf). destruct target as [url name].
  destruct (visit_cases env i url name st)
    as [[_ ->] | [(_ & _ & ->) | (Hn & _ & ->)]];
    unfold appended;
    cbn -[checkpoint_text firstn List.length provider_paths];
    rewrite <- ?app_assoc, ?saved_names_app;
    cbn -[checkpoint_text firstn List.length provider_paths];
    rewrite ?app_nil_r; try (now repeat split).
  rewrite Hc, is_completed_app in Hn.
  apply orb_false_iff in Hn as [Hl Hs].
  assert (Hfresh : ~ In name (saved_names (trace st))).
  { intros Hin. apply is_completed_names in Hin. congruence. }
  repeat split.
  - now rewrite Hc, map_app, <- app_assoc.
  - apply NoDup_app; [exact Hnd | repeat constructor; now intros [] |].
    intros x Hx [<- | []]. contradiction.
  - apply Forall_app. split; [exact Hnew | now repeat constructor].
  - rewrite Hf, flat_map_app, <- app_assoc. cbn [flat_map].
    now rewrite app_nil_r.
Qed.

Lemma visit_all_appended (targets : list (str * str)) :
  forall i st, appended st -> appended (visit_all env i targets st).
Proof.
  induction targets as [|t targets IH]; intros i st H; simpl; [exact H|].
  apply IH. now apply visit_appended.
Qed.

End Appending.

(** X12: the completed list only grows at its end.  After a run it is
    the list loaded from the checkpoint followed by the names this run
    saved, in order; no name is saved twice, none of them was loaded as
    completed; and the provider files are the old ones followed by the
    three files of each saved name. *)
Theorem completed_list_append_only (targets : list (str * str)) (disk0 : Disk) :
  let final := run_batch env targets disk0 in
  let saved := saved_names (trace final) in
  completed_providers final = load_checkpoint disk0 ++ map Json.JStr saved /\
  NoDup saved /\
  Forall (fun n => is_completed n (load_checkpoint disk0) = false) saved /\
  provider_files (disk final)
  = provider_files disk0 ++ flat_map provider_paths saved.
Proof.
  intros final saved.
  apply (@visit_all_appended (load_checkpoint disk0) (provider_files disk0)
           targets 1 (start disk0)).
  repeat split; simpl; [now rewrite app_nil_r | constructor | constructor
                       | now rewrite app_nil_r].
Qed.

Lemma log_log (a b : list Event) (st : RunState) :
  log b (log a st) = log (a ++ b) st.
Proof. unfold log. simpl. now rewrite app_assoc. Qed.

Lemma log_nil (st : RunState) : log [] st = st.
Proof. destruct st. unfold log. simpl. now rewrite app_nil_r. Qed.

(** What one turn of the loop does to the trace and the completed list. *)
Lemma visit_effect (i : nat) (url name : str) (st : RunState) :
  let st' := visit env i (url, name) st in
  (is_completed name (completed_providers st) = true /\
   trace st' = trace st ++ [Skipped name] /\
   completed_providers st' = completed_providers st) \/
  (is_completed name (completed_providers st) = false /\
   trace st' = trace st ++ [CloseAllChrome; Scrape url name; Sleep 5] /\
   completed_providers st' = completed_providers st) \/
  (is_completed name (completed_providers st) = false /\
   (exists result data,
      trace st' = trace st ++ [CloseAllChrome; Scrape url name;
                               SaveProviderData name result;
                               CheckpointSaved data; Sleep 5]) /\
   completed_providers st' = completed_providers st ++ [Json.JStr name]).
Proof.
  destruct (visit_cases env i url name st)
    as [[Hn E] | [(Hn & _ & E) | (Hn & _ & E)]]; cbv zeta; rewrite E.
  - left. now repeat split.
  - right; left. repeat split; [exact Hn|].
    cbn [log trace]. now rewrite <- app_assoc.
  - right; right. split; [exact Hn|]. split; [|reflexivity].
    eexists _, _. unfold record_completion, log. cbn [trace].
    rewrite <- !app_assoc. reflexivity.
Qed.

(** *** Attempts *)

Section Attempts.
Variable loaded : list Json.json.

(** Whoever is completed was loaded as such or has been extracted. *)
Let accounted (st : RunState) : Prop :=
  forall n, is_completed n (completed_providers st) = true ->
            is_completed n loaded = true \/
            exists url, In (Scrape url n) (trace st).

Lemma visit_accounted (i : nat) (url name : str) (st : RunState) :
  accounted st ->
  accounted (visit env i (url, name) st) /\
  (is_completed name loaded = true \/
   exists url', In (Scrape url' name) (trace (visit env i (url, name) st))).
Proof.
  intros Hacc. unfold accounted in *.
  assert (Hgrow : forall n,
            (is_completed n loaded = true \/
             exists u, In (Scrape u n) (trace st)) ->
            forall events,
              is_completed n loaded = true \/
              exists u, In (Scrape u n) (trace st ++ events)).
  { intros n [H | [u H]] events; [now left|].
    right. exists u. apply in_or_app. now left. }
  assert (Hnow : forall events,
            exists u, In (Scrape u name)
                        (trace st ++ CloseAllChrome :: Scrape url name :: events)).
  { intros events. exists url. apply in_or_app. right. right. now left. }
  destruct (visit_effect i url name st)
    as [(Hn & Et & Ec) | [(Hn & Et & Ec) | (Hn & (result & data & Et) & Ec)]];
    rewrite Et; setoid_rewrite Ec.
  - split; [|now apply Hgrow, Hacc].
    intros n H. now apply Hgrow, Hacc.
  - split; [|right; apply Hnow].
    intros n H. now apply Hgrow, Hacc.
  - split; [|right; apply Hnow].
    intros n H. rewrite is_completed_app in H.
    apply orb_true_iff in H as [H | H]; [now apply Hgrow, Hacc|].
    simpl in H. rewrite orb_false_r in H. apply str_eqb_eq in H. subst n.
    right. apply Hnow.
Qed.

Lemma visit_all_accounted (targets : list (str * str)) :
  forall i st,
    accounted st ->
    accounted (visit_all env i targets st) /\
    forall url name, In (url, name) targets ->
      is_completed name loaded = true \/
      exists url', In (Scrape url' name) (trace (visit_all env i targets st)).
Proof.
  induction targets as [|[u n] targets IH]; intros i st Hacc;
    cbn [visit_all].
  - split; [exact Hacc | intros ? ? []].
  - destruct (@visit_accounted i u n st Hacc) as [Hacc1 Hnow].
    destruct (IH (S i) _ Hacc1) as [Hacc2 Hrest].
    split; [exact Hacc2|].
    intros url name [E | Hin]; [|now apply (Hrest url name)].
    injection E as <- <-.
    destruct Hnow as [H | [u' H]]; [now left|]. right. exists u'.
    destruct (visit_all_trace_grows env targets (S i) (visit env i (u, n) st))
      as [events ->].
    apply in_or_app. now left.
Qed.

End Attempts.

(** *** A run in which nothing succeeds *)

Lemma visit_all_failing (targets : list (str * str)) :
  (forall i url, success (scrape_single_provider (browser env i url)) = false) ->
  forall i st,
    visit_all env i targets st
    = log (flat_map (failed_attempt (completed_providers st)) targets) st.
Proof.
  intros Hfail. induction targets as [|[url name] targets IH]; intros i st;
    cbn [visit_all flat_map].
  - now rewrite log_nil.
  - rewrite IH.
    destruct (visit_cases env i url name st)
      as [[Hn ->] | [(Hn & _ & ->) | (_ & Hs & _)]];
      [| | rewrite Hfail in Hs; discriminate];
      unfold failed_attempt at 2; cbn [fst snd]; rewrite Hn;
      rewrite ?log_log; reflexivity.
Qed.

(** *** A run in which everything is completed already *)

Lemma visit_all_skipping (targets : list (str * str)) :
  forall i st,
    (forall t, In t targets ->
               is_completed (snd t) (completed_providers st) = true) ->
    visit_all env i targets st
    = log (map (fun t => Skipped (snd t)) targets) st.
Proof.
  induction targets as [|[url name] targets IH]; intros i st Hdone;
    cbn [visit_all map].
  - now rewrite log_nil.
  - assert (Hthis : is_completed name (completed_providers st) = true)
      by (apply (Hdone (url, name)); now left).
    destruct (visit_cases env i url name st)
      as [[Hn ->] | [(Hn & _) | (Hn & _)]]; try congruence.
    rewrite IH; [now rewrite log_log|].
    intros t Ht. apply Hdone. now right.
Qed.

(** *** Counting events *)

Lemma count_app (kind : Event -> bool) (a b : list Event) :
  count kind (a ++ b) = count kind a + count kind b.
Proof. unfold count. now rewrite filter_app, length_app. Qed.

Lemma visit_successful (i : nat) (url name : str) (st : RunState) :
  successful_providers (visit env i (url, name) st) + count is_save (trace st)
  = successful_providers st
    + count is_save (trace (visit env i (url, name) st)).
Proof.
  destruct (visit_cases env i url name st)
    as [[_ ->] | [(_ & _ & ->) | (_ & _ & ->)]];
    unfold record_completion, log; cbn [successful_providers trace];
    rewrite <- ?app_assoc, ?count_app; unfold count;
    cbn [filter is_save List.length app]; lia.
Qed.

(** The counts of two kinds of events that a turn raises together. *)
Let paired (a b : Event -> bool) (st st' : RunState) : Prop :=
  count a (trace st') + count b (trace st)
  = count a (trace st) + count b (trace st').

Lemma visit_counts (i : nat) (url name : str) (st : RunState) :
  let st' := visit env i (url, name) st in
  count is_skip (trace st') + count is_scrape (trace st')
  = S (count is_skip (trace st) + count is_scrape (trace st)) /\
  paired is_sweep is_scrape st st' /\
  paired is_sleep is_scrape st st' /\
  paired is_save is_checkpoint st st' /\
  count is_save (trace st') + count is_scrape (trace st)
  <= count is_save (trace st) + count is_scrape (trace st').
Proof.
  unfold paired.
  destruct (visit_effect i url name st)
    as [(_ & Et & _) | [(_ & Et & _) | (_ & (result & data & Et) & _)]];
    cbv zeta; rewrite Et, !count_app; unfold count;
    cbn [filter is_skip is_scrape is_sweep is_sleep is_save is_checkpoint
         List.length]; repeat split; lia.
Qed.

Lemma visit_all_counts (targets : list (str * str)) :
  forall i st,
    let st' := visit_all env i targets st in
    count is_skip (trace st') + count is_scrape (trace st')
    = count is_skip (trace st) + count is_scrape (trace st)
      + List.length targets /\
    paired is_sweep is_scrape st st' /\
    paired is_sleep is_scrape st st' /\
    paired is_save is_checkpoint st st' /\
    count is_save (trace st') + count is_scrape (trace st)
    <= count is_save (trace st) + count is_scrape (trace st') /\
    successful_providers st' + count is_save (trace st)
    = successful_providers st + count is_save (trace st').
Proof.
  unfold paired.
  induction targets as [|[url name] targets IH]; intros i st;
    cbn [visit_all List.length]; cbv zeta.
  - repeat split; lia.
  - destruct (IH (S i) (visit env i (url, name) st))
      as (H1 & H2 & H3 & H4 & H5 & H6).
    destruct (visit_counts i url name st) as (V1 & V2 & V3 & V4 & V5).
    unfold paired in V2, V3, V4.
    pose proof (visit_successful i url name st) as V6.
    repeat split; lia.
Qed.

End BatchMore.

Section BatchRunsMore.
Import Scraper.

Lemma visit_all_completes (env : Env) (targets : list (str * str)) :
  (forall i url, success (scrape_single_provider (browser env i url)) = true) ->
  forall i st t,
    In t targets ->
    is_completed (snd t) (completed_providers (visit_all env i targets st))
    = true.
Proof.
  intros Hok. induction targets as [|[url name] targets IH];
    intros i st t Hin; [contradiction|].
  cbn [visit_all]. destruct Hin as [<- | Hin]; [|now apply IH].
  cbn [snd].
  apply (@visit_all_completed env name targets (S i)).
  destruct (visit_cases env i url name st)
    as [[Hn ->] | [(_ & Hs & _) | (_ & _ & ->)]].
  - exact Hn.
  - rewrite Hok in Hs. discriminate.
  - cbn [log record_completion completed_providers].
    rewrite is_completed_app. simpl. rewrite str_eqb_refl.
    now rewrite orb_true_r.
Qed.

(** X16: after a run in which every extraction succeeded, a second run
    over the same targets only skips, whatever the web does then: it
    leaves the disk and the completed list as the first run left them. *)
Theorem nothing_left_after_full_run (env1 env2 : Env)
    (targets : list (str * str)) (disk0 : Disk) :
  (forall i url, success (scrape_single_provider (browser env1 i url)) = true) ->
  let first := run_batch env1 targets disk0 in
  let second := run_batch env2 targets (disk first) in
  trace second = map (fun t => Skipped (snd t)) targets /\
  disk second = disk first /\
  completed_providers second = completed_providers first.
Proof.
  intros Hok first second.
  assert (Hload : load_checkpoint (disk first) = completed_providers first).
  { apply visit_all_keeps_checkpoint. reflexivity. }
  assert (Hsecond : second
                    = log (map (fun t => Skipped (snd t)) targets)
                          (start (disk first))).
  { apply visit_all_skipping. intros t Ht. cbn [start completed_providers].
    rewrite Hload. now apply visit_all_completes. }
  rewrite Hsecond. cbn [log start trace disk completed_providers app].
  now repeat split.
Qed.

Lemma nothing_left_after_full_run_witness :
  let first := run_batch sample_env two_providers resumed_disk in
  let second := run_batch dead_env two_providers (disk first) in
  trace second = map (fun t => Skipped (snd t)) two_providers /\
  disk second = disk first /\
  completed_providers second = completed_providers first.
Proof.
  apply (@nothing_left_after_full_run sample_env dead_env two_providers
           resumed_disk).
  intros i url. reflexivity.
Defined.

End BatchRunsMore.

(** ** The process sweep *)

Section ProcessSweep.
Import Scraper.

Lemma close_all_chrome_quiet (procs : list Process) :
  forallb (fun p => negb (raises p)) procs = true ->
  close_all_chrome procs = (filter spared procs, true).
Proof.
  induction procs as [|proc rest IH]; intros H; [reflexivity|].
  cbn [forallb] in H. apply andb_true_iff in H as [Hp Hrest].
  cbn [close_all_chrome filter]. unfold raises in Hp. unfold spared at 1.
  destruct (names_chrome proc) as [[]|]; try discriminate.
  - destruct (kill_raises proc); [discriminate | now apply IH].
  - now rewrite IH.
Qed.

Lemma close_all_chrome_stops (before : list Process) (proc : Process)
    (rest : list Process) :
  forallb (fun p => negb (raises p)) before = true ->
  raises proc = true ->
  close_all_chrome (before ++ proc :: rest)
  = (filter spared before ++ proc :: rest, false).
Proof.
  intros Hbefore Hproc. induction before as [|p before IH].
  - cbn [app close_all_chrome filter]. unfold raises in Hproc.
    destruct (names_chrome proc) as [[]|]; try discriminate; try reflexivity.
    now rewrite Hproc.
  - cbn [forallb] in Hbefore. apply andb_true_iff in Hbefore as [Hp Hb].
    rewrite <- app_comm_cons. cbn [close_all_chrome filter].
    unfold raises in Hp. unfold spared at 1.
    destruct (names_chrome p) as [[]|]; try discriminate.
    + destruct (kill_raises p); [discriminate | now apply IH].
    + now rewrite (IH Hb).
Qed.

(** The first process at which the sweep raises, if any. *)
Lemma first_raising (procs : list Process) :
  forallb (fun p => negb (raises p)) procs = true \/
  exists before proc rest,
    procs = before ++ proc :: rest /\
    forallb (fun p => negb (raises p)) before = true /\
    raises proc = true.
Proof.
  induction procs as [|p procs IH]; [now left|].
  destruct (raises p) eqn:Hp.
  - right. now exists [], p, procs.
  - destruct IH as [H | (before & proc & rest & -> & Hb & Hr)].
    + left. cbn [forallb]. now rewrite Hp, H.
    + right. exists (p :: before), proc, rest.
      repeat split; [|exact Hr]. cbn [forallb]. now rewrite Hp, Hb.
Qed.

(** X17: what the process sweep does.  When nothing raises, exactly the
    processes whose name holds [chrome], in any letter case, are gone and
    the sleep is reached.  Otherwise the sweep ends at the first process
    whose name cannot be read or whose kill raises: the chrome processes
    before it are gone, that process and all after it stay, chrome or not,
    and the sleep is left out.  In no case does a process go whose name was
    read and does not hold [chrome]. *)
Theorem close_all_chrome_spec (procs : list Process) :
  let '(after, slept) := close_all_chrome procs in
  (if slept
   then after = filter spared procs /\
        forallb (fun p => negb (raises p)) procs = true
   else exists before proc rest,
          procs = before ++ proc :: rest /\
          forallb (fun p => negb (raises p)) before = true /\
          raises proc = true /\
          after = filter spared before ++ proc :: rest) /\
  (forall p, In p procs -> spared p = true -> In p after) /\
  incl after procs.
Proof.
  destruct (first_raising procs)
    as [Hquiet | (before & proc & rest & -> & Hbefore & Hproc)].
  - rewrite (close_all_chrome_quiet procs Hquiet).
    split; [now split|]. split.
    + intros p Hin Hp. apply filter_In. now split.
    + intros p Hp. now apply filter_In in Hp.
  - rewrite (close_all_chrome_stops before proc rest Hbefore Hproc).
    split; [now exists before, proc, rest|]. split.
    + intros p Hin Hp. apply in_app_or in Hin as [Hin | Hin];
        apply in_or_app; [left | now right].
      apply filter_In. now split.
    + intros p Hp. apply in_app_or in Hp as [Hp | Hp];
        apply in_or_app; [left | now right].
      now apply filter_In in Hp.
Qed.

End ProcessSweep.

(** ** From the listing stage to the asset stage *)

Section Handover.
Import Scraper.

Lemma ends_with_app (suffix stem : str) :
  Fixer.ends_with suffix (stem ++ suffix) = true.
Proof.
  unfold Fixer.ends_with. rewrite rev_app_distr. apply StrFacts.is_prefix_app.
Qed.

Lemma filter_single {A : Type} (keep : A -> bool) (x : A) (l : list A) :
  NoDup l -> In x l -> keep x = true ->
  (forall y, In y l -> keep y = true -> y = x) ->
  filter keep l = [x].
Proof.
  induction l as [|a l IH]; intros Hnd Hin Hx Huniq; [contradiction|].
  inversion Hnd as [|? ? Ha Hnd']; subst.
  assert (Hnone : ~ In x l -> filter keep l = []).
  { intros Hout.
    destruct (filter keep l) as [|y rest] eqn:E; [reflexivity|].
    assert (Hy : In y (filter keep l)) by (rewrite E; now left).
    apply filter_In in Hy as [Hy Hk].
    assert (y = x) by (apply Huniq; [now right | exact Hk]).
    subst y. contradiction. }
  cbn [filter]. destruct Hin as [-> | Hin].
  - rewrite Hx, (Hnone Ha). reflexivity.
  - destruct (keep a) eqn:Hka.
    + assert (a = x) by (apply Huniq; [now left | exact Hka]).
      subst a. contradiction.
    + apply IH; try assumption.
      intros y Hy. apply Huniq. now right.
Qed.

Lemma NoDup_map_fst {A B : Type} (l : list (A * B)) :
  NoDup (map fst l) ->
  NoDup l /\ forall a b1 b2, In (a, b1) l -> In (a, b2) l -> b1 = b2.
Proof.
  induction l as [|[a b] l IH]; intros H; [split; [constructor | intros ? ? ? []]|].
  cbn [map fst] in H. inversion H as [|? ? Ha Hnd]; subst.
  destruct (IH Hnd) as [Hl Hsame].
  assert (Hfresh : forall b', ~ In (a, b') l).
  { intros b' Hin. apply Ha. apply in_map_iff. now exists (a, b'). }
  split.
  - constructor; [apply Hfresh | exact Hl].
  - intros a' b1 b2 [E1 | H1] [E2 | H2].
    + congruence.
    + injection E1 as <- <-. now apply Hfresh in H2.
    + injection E2 as <- <-. now apply Hfresh in H1.
    + now apply (Hsame a').
Qed.

(** X18: the asset stage finds what the listing stage saved.  The three
    paths of [save_provider_data] are the three file names inside the
    directory of the provider; and for a directory that holds files of
    these names only, among them the JSON one, in any order, the asset
    stage takes the provider under the name of the directory with the
    reading of that JSON file, while an entry that is no directory (such as
    the checkpoint) gives no provider. *)
Theorem asset_stage_finds_export (provider_name : str)
    (files : list (str * outcome (list Fixer.GameEntry)))
    (file : outcome (list Fixer.GameEntry)) (other : Fixer.DirItem) :
  NoDup (map fst files) ->
  (forall f, In f files -> In (fst f) (provider_file_names provider_name)) ->
  In (provider_name ++ lit "_games_data.json", file) files ->
  Fixer.item_is_dir other = false ->
  provider_paths provider_name
  = map (fun f => lit "New_Providers_data/" ++ provider_name ++ lit "/" ++ f)
        (provider_file_names provider_name) /\
  Fixer.find_providers
    [other;
     {| Fixer.item_name := provider_name;
        Fixer.item_is_dir := true;
        Fixer.item_files := files |}]
  = [(provider_name, file)].
Proof.
  intros Hnd Hnames Hjson Hother. split.
  { unfold provider_paths, provider_file_names. cbn [map].
    now rewrite <- !app_assoc. }
  unfold Fixer.find_providers. cbn [flat_map Fixer.item_is_dir
    Fixer.item_files Fixer.item_name].
  rewrite Hother. cbn [app].
  destruct (NoDup_map_fst files Hnd) as [Hfiles Hsame].
  rewrite (@filter_single _ _ (provider_name ++ lit "_games_data.json", file));
    try assumption; try reflexivity.
  - cbn [fst]. apply ends_with_app.
  - intros [n f] Hin Hends. cbn [fst] in Hends.
    assert (Hn : n = provider_name ++ lit "_games_data.json").
    { destruct (Hnames _ Hin) as [E | [E | [E | []]]]; cbn [fst] in E;
        subst n; [|reflexivity|]; exfalso;
        unfold Fixer.ends_with in Hends; rewrite rev_app_distr in Hends;
        discriminate Hends. }
    subst n. f_equal. now apply (Hsame (provider_name ++ lit "_games_data.json")).
Qed.

Lemma asset_stage_finds_export_witness :
  Fixer.find_providers
    [{| Fixer.item_name := lit "checkpoint.json";
        Fixer.item_is_dir := false;
        Fixer.item_files := [] |};
     {| Fixer.item_name := lit "Acme";
        Fixer.item_is_dir := true;
        Fixer.item_files :=
          [(lit "Acme_complete.html", Raise (lit "JSONDecodeError"));
           (lit "Acme_games_data.json", Ok [Fixer.sample_game]);
           (lit "Acme_games_data.txt", Raise (lit "JSONDecodeError"))] |}]
  = [(lit "Acme", Ok [Fixer.sample_game])].
Proof.
  apply (@asset_stage_finds_export (lit "Acme")
           [(lit "Acme_complete.html", Raise (lit "JSONDecodeError"));
            (lit "Acme_games_data.json", Ok [Fixer.sample_game]);
            (lit "Acme_games_data.txt", Raise (lit "JSONDecodeError"))]
           (Ok [Fixer.sample_game])
           {| Fixer.item_name := lit "checkpoint.json";
              Fixer.item_is_dir := false;
              Fixer.item_files := [] |}).
  - repeat constructor; simpl; intuition discriminate.
  - intros f [<- | [<- | [<- | []]]]; vm_compute; tauto.
  - right. left. reflexivity.
  - reflexivity.
Defined.

End Handover.

(** ** The providers of [main] *)

Section MainProviders.
Import Scraper.

Lemma visit_all_scrapes_targets (env : Env) (url name : str)
    (targets : list (str * str)) :
  forall i st,
    In (Scrape url name) (trace (visit_all env i targets st)) ->
    In (Scrape url name) (trace st) \/ In (url, name) targets.
Proof.
  induction targets as [|[u n] targets IH]; intros i st H;
    cbn [visit_all] in H; [now left|].
  apply IH in H as [H | H]; [|right; now right].
  destruct (visit_effect env i u n st)
    as [(_ & Et & _) | [(_ & Et & _) | (_ & (result & data & Et) & _)]];
    rewrite Et in H; apply in_app_or in H as [H | H]; try (now left);
    simpl in H; repeat (destruct H as [H | H]; try discriminate H);
    try contradiction; injection H as <- <-; right; now left.
Qed.

Lemma same_name_same_url (targets : list (str * str)) (u1 u2 n : str) :
  NoDup (map snd targets) ->
  In (u1, n) targets -> In (u2, n) targets -> u1 = u2.
Proof.
  induction targets as [|[u m] targets IH]; intros Hnd H1 H2; [contradiction|].
  cbn [map snd] in Hnd. inversion Hnd as [|? ? Hm Hnd']; subst.
  assert (Hfresh : forall u', In (u', m) targets -> False).
  { intros u' Hin. apply Hm. apply in_map_iff. now exists (u', m). }
  destruct H1 as [E1 | H1], H2 as [E2 | H2].
  - congruence.
  - injection E1 as <- <-. now apply Hfresh in H2.
  - injection E2 as <- <-. now apply Hfresh in H1.
  - now apply IH.
Qed.

Lemma providers_distinct : NoDup (map snd providers).
Proof.
  replace (map snd providers)
    with (nodup Fixer.str_eq_dec (map snd providers))
    by (vm_compute; reflexivity).
  apply NoDup_nodup.
Qed.

Lemma providers_length : List.length providers = 31.
Proof. reflexivity. Qed.

Lemma run_batch_attempts (env : Env) (targets : list (str * str))
    (disk0 : Disk) :
  NoDup (map snd targets) ->
  (forall url name,
     In (url, name) targets ->
     is_completed name (load_checkpoint disk0) = false ->
     In (Scrape url name) (trace (run_batch env targets disk0))) /\
  (forall url name,
     In (Scrape url name) (trace (run_batch env targets disk0)) ->
     In (url, name) targets).
Proof.
  intros Hnd. unfold run_batch.
  assert (Hfrom : forall url name,
            In (Scrape url name)
               (trace (visit_all env 1 targets (start disk0))) ->
            In (url, name) targets).
  { intros url name H.
    apply visit_all_scrapes_targets in H. destruct H as [[] | H]. exact H. }
  split; [|exact Hfrom].
  intros url name Hin Hpending.
  destruct (@visit_all_accounted env (load_checkpoint disk0) targets 1
              (start disk0)) as [_ Hall].
  { intros n H. now left. }
  specialize (Hall url name Hin). destruct Hall as [H | [url' H]].
  { rewrite Hpending in H. discriminate H. }
  now rewrite (same_name_same_url targets url url' name Hnd Hin
                 (Hfrom _ _ H)).
Qed.

End MainProviders.

(** ** The whole loop: sweeps, and calls that raise *)

Section WholeRun.
Import Scraper.

Variable host : Host.

Lemma scrape_call_ok (i : nat) (url : str) (result : ScrapeResult) :
  scrape_call host i url = Ok result ->
  result = scrape_single_provider (browser (sessions host) i url).
Proof.
  unfold scrape_call, scrape_single_provider_call, bind.
  destruct (chrome_starts host i url); [|discriminate].
  destruct (chrome_quits host i url); [|discriminate].
  now intros [= <-].
Qed.

(** One turn of the loop: a skip, an exception that leaves [main], or the
    turn of [visit]. *)
Lemma main_loop_turn (i : nat) (url name : str) (rest : list (str * str))
    (st : RunState) (swept : list Sweep) :
  (is_completed name (completed_providers st) = true /\
   main_loop host i ((url, name) :: rest) st swept
   = main_loop host (S i) rest (visit (sessions host) i (url, name) st) swept)
  \/
  (is_completed name (completed_providers st) = false /\
   exists e,
     scrape_call host i url = Raise e /\
     main_loop host i ((url, name) :: rest) st swept
     = {| state := log [CloseAllChrome; Scrape url name] st;
          sweeps := swept ++ [sweep (process_table host i)];
          ending := Uncaught e |})
  \/
  (is_completed name (completed_providers st) = false /\
   exists result,
     scrape_call host i url = Ok result /\
     main_loop host i ((url, name) :: rest) st swept
     = main_loop host (S i) rest (visit (sessions host) i (url, name) st)
         (swept ++ [sweep (process_table host i)])).
Proof.
  cbn [main_loop]. unfold visit.
  destruct (is_completed name (completed_providers st)); [now left|].
  right. destruct (scrape_call host i url) as [result|e] eqn:E.
  - right. split; [reflexivity|]. exists result. split; [reflexivity|].
    now rewrite <- (@scrape_call_ok i url result E).
  - left. split; [reflexivity|]. now exists e.
Qed.

(** The state a run reaches: that of the loop without exceptions over all
    targets, or over those before the target whose call raised. *)
Lemma main_loop_reaches (targets : list (str * str)) :
  forall i st swept,
    let run := main_loop host i targets st swept in
    (ending run = Finished /\
     state run = visit_all (sessions host) i targets st) \/
    (exists e handled url name rest,
       targets = handled ++ (url, name) :: rest /\
       ending run = Uncaught e /\
       scrape_call host (i + List.length handled) url = Raise e /\
       is_completed name
         (completed_providers (visit_all (sessions host) i handled st))
       = false /\
       state run
       = log [CloseAllChrome; Scrape url name]
           (visit_all (sessions host) i handled st)).
Proof.
  induction targets as [|[url name] targets IH]; intros i st swept; cbv zeta.
  - left. now split.
  - assert (Hnext : forall swept',
              main_loop host i ((url, name) :: targets) st swept
              = main_loop host (S i) targets
                  (visit (sessions host) i (url, name) st) swept' ->
              (ending (main_loop host i ((url, name) :: targets) st swept)
               = Finished /\
               state (main_loop host i ((url, name) :: targets) st swept)
               = visit_all (sessions host) i ((url, name) :: targets) st) \/
              (exists e handled u n rest,
                 (url, name) :: targets = handled ++ (u, n) :: rest /\
                 ending (main_loop host i ((url, name) :: targets) st swept)
                 = Uncaught e /\
                 scrape_call host (i + List.length handled) u = Raise e /\
                 is_completed n
                   (completed_providers
                      (visit_all (sessions host) i handled st)) = false /\
                 state (main_loop host i ((url, name) :: targets) st swept)
                 = log [CloseAllChrome; Scrape u n]
                     (visit_all (sessions host) i handled st))).
    { intros swept' ->.
      destruct (IH (S i) (visit (sessions host) i (url, name) st) swept')
        as [[He Hs] | (e & handled & u & n & rest & -> & He & Hc & Hn & Hs)].
      - left. now split.
      - right. exists e, ((url, name) :: handled), u, n, rest.
        cbn [List.length visit_all app]. rewrite Nat.add_succ_r.
        now repeat split. }
    destruct (main_loop_turn i url name targets st swept)
      as [[_ E] | [(Hn & e & Hc & E) | (_ & result & _ & E)]].
    + exact (Hnext _ E).
    + right. exists e, [], url, name, targets. rewrite E.
      cbn [List.length visit_all app state ending]. rewrite Nat.add_0_r.
      now repeat split.
    + exact (Hnext _ E).
Qed.

(** *** Segments *)


End WholeRun.

Section WholeRunFacts.
Import Scraper.






(** *** Counting over the whole loop *)

Lemma main_loop_sweeps_count (host : Host) (targets : list (str * str)) :
  forall i st swept,
    let run := main_loop host i targets st swept in
    List.length (sweeps run) + count is_scrape (trace st)
    = List.length swept + count is_scrape (trace (state run)).
Proof.
  induction targets as [|[url name] targets IH]; intros i st swept; cbv zeta.
  - cbn [main_loop sweeps state]. lia.
  - destruct (main_loop_turn host i url name targets st swept)
      as [[Hn E] | [(Hn & e & Hc & E) | (Hn & result & Hc & E)]]; rewrite E.
    + specialize (IH (S i) (visit (sessions host) i (url, name) st) swept).
      cbv zeta in IH.
      destruct (visit_effect (sessions host) i url name st)
        as [(_ & Et & _) | [(Hn' & _) | (Hn' & _)]]; try congruence.
      rewrite Et, count_app in IH. unfold count in *.
      cbn [filter is_scrape List.length] in IH. lia.
    + cbn [sweeps state log trace]. rewrite length_app, count_app.
      unfold count. cbn [filter is_scrape List.length]. lia.
    + specialize (IH (S i) (visit (sessions host) i (url, name) st)
                     (swept ++ [sweep (process_table host i)])).
      cbv zeta in IH. rewrite length_app in IH.
      destruct (visit_effect (sessions host) i url name st)
        as [(Hn' & _) | [(_ & Et & _) | (_ & (r & d & Et) & _)]];
        try congruence; rewrite Et, count_app in IH; unfold count in *;
        cbn [filter is_scrape List.length] in IH; lia.
Qed.

Lemma main_loop_counts (host : Host) (targets : list (str * str)) :
  forall i st swept,
    let run := main_loop host i targets st swept in
    let st' := state run in
    let died := match ending run with Finished => 0 | Uncaught _ => 1 end in
    count is_skip (trace st') + count is_scrape (trace st')
    <= count is_skip (trace st) + count is_scrape (trace st)
       + List.length targets /\
    (ending run = Finished ->
     count is_skip (trace st') + count is_scrape (trace st')
     = count is_skip (trace st) + count is_scrape (trace st)
       + List.length targets) /\
    count is_sweep (trace st') + count is_scrape (trace st)
    = count is_sweep (trace st) + count is_scrape (trace st') /\
    count is_sleep (trace st') + died + count is_scrape (trace st)
    = count is_sleep (trace st) + count is_scrape (trace st') /\
    count is_save (trace st') + count is_checkpoint (trace st)
    = count is_save (trace st) + count is_checkpoint (trace st') /\
    count is_save (trace st') + count is_sleep (trace st)
    <= count is_save (trace st) + count is_sleep (trace st') /\
    successful_providers st' + count is_save (trace st)
    = successful_providers st + count is_save (trace st').
Proof.
  intros i st swept. cbv zeta.
  destruct (main_loop_reaches host targets i st swept)
    as [[He Hs] | (e & handled & url & name & rest & -> & He & _ & _ & Hs)];
    rewrite He, Hs.
  - destruct (visit_all_counts (sessions host) targets i st)
      as (H1 & H2 & H3 & H4 & H5 & H6).
    repeat split; intros; lia.
  - destruct (visit_all_counts (sessions host) handled i st)
      as (H1 & H2 & H3 & H4 & H5 & H6).
    cbn [log trace successful_providers]. unfold count in *.
    rewrite !filter_app, !length_app.
    cbn [filter is_skip is_scrape is_sweep is_sleep is_save is_checkpoint
         List.length].
    repeat split; try discriminate; lia.
Qed.

(** X15: the events of a run add up.  Every target the run gets to is
    either skipped or extracted, once; it gets to all of them when it ends
    without an exception.  There is one sweep for every extraction; one
    cooldown for every extraction but the one whose call raised; one
    checkpoint for every save; and the saves are the successful providers
    the run reports, at most one per cooldown. *)
Theorem trace_accounting (host : Host) (targets : list (str * str))
    (disk0 : Disk) :
  own_checkpoint disk0 ->
  let run := main_run host targets disk0 in
  let events := trace (state run) in
  let died := match ending run with Finished => 0 | Uncaught _ => 1 end in
  count is_skip events + count is_scrape events <= List.length targets /\
  (ending run = Finished ->
   count is_skip events + count is_scrape events = List.length targets) /\
  count is_sweep events = count is_scrape events /\
  List.length (sweeps run) = count is_scrape events /\
  count is_sleep events + died = count is_scrape events /\
  count is_save events = count is_checkpoint events /\
  count is_save events = successful_providers (state run) /\
  count is_save events <= count is_sleep events.
Proof.
  intros _ run events died. subst events died run. unfold main_run.
  destruct (main_loop_counts host targets 1 (start disk0) [])
    as (H1 & H2 & H3 & H4 & H5 & H6 & H7).
  pose proof (main_loop_sweeps_count host targets 1 (start disk0) []) as H8.
  cbv zeta in H8.
  cbn [start trace successful_providers] in H1, H2, H3, H4, H5, H6, H7, H8.
  unfold count in *.
  cbn [filter List.length] in H1, H2, H3, H4, H5, H6, H7, H8.
  repeat split; try lia.
  intros Hfin. specialize (H2 Hfin). lia.
Qed.

Lemma trace_accounting_witness :
  let run := main_run no_driver_host two_providers resumed_disk in
  let events := trace (state run) in
  count is_skip events = 1 /\
  count is_scrape events = 1 /\
  count is_sleep events = 0 /\
  List.length (sweeps run) = 1.
Proof.
  intros run events.
  assert (Hown : own_checkpoint resumed_disk).
  { right. exists earlier_checkpoint, 500. vm_compute. reflexivity. }
  pose proof (@trace_accounting no_driver_host two_providers resumed_disk
                Hown) as H.
  cbv zeta in H. fold run in H. fold events in H.
  destruct H as (_ & _ & _ & Hsweeps & Hsleep & _).
  assert (Hscrape : count is_scrape events = 1) by (vm_compute; reflexivity).
  assert (Hdied : ending run = Uncaught (lit "WebDriverException"))
    by (vm_compute; reflexivity).
  rewrite Hdied, Hscrape in Hsleep. rewrite Hscrape in Hsweeps.
  split; [vm_compute; reflexivity|]. split; [exact Hscrape|].
  split; [lia | exact Hsweeps].
Defined.

(** *** Targets that are reached *)

(** X13: a run that ends without an exception leaves out no target: every
    target whose name the checkpoint loaded at the start does not list as
    completed is extracted (this one, or an earlier target of the same
    name).  A run that an exception ends has dealt in this way with the
    targets up to the one whose call raised, and with none after it. *)
Theorem every_pending_target_attempted (host : Host)
    (targets : list (str * str)) (disk0 : Disk) :
  own_checkpoint disk0 ->
  let run := main_run host targets disk0 in
  exists reached rest,
    targets = reached ++ rest /\
    (forall url name,
       In (url, name) reached ->
       is_completed name (load_checkpoint disk0) = false ->
       exists url', In (Scrape url' name) (trace (state run))) /\
    (forall url name,
       In (Scrape url name) (trace (state run)) -> In (url, name) reached) /\
    match ending run with
    | Finished => rest = []
    | Uncaught e =>
        exists before url name,
          reached = before ++ [(url, name)] /\
          scrape_call host (List.length reached) url = Raise e
    end.
Proof.
  intros _ run. subst run. unfold main_run.
  destruct (main_loop_reaches host targets 1 (start disk0) [])
    as [[He Hs] | (e & handled & url & name & rest & -> & He & Hc & _ & Hs)];
    rewrite He, Hs.
  - exists targets, []. rewrite app_nil_r. split; [reflexivity|].
    split; [|split; [|reflexivity]].
    + intros url name Hin Hpending.
      destruct (@visit_all_accounted (sessions host) (load_checkpoint disk0)
                  targets 1 (start disk0)) as [_ Hall].
      { intros n H. now left. }
      destruct (Hall url name Hin) as [H | H]; [congruence | exact H].
    + intros url name H.
      apply visit_all_scrapes_targets in H. destruct H as [[] | H]. exact H.
  - exists (handled ++ [(url, name)]), rest. rewrite <- app_assoc.
    split; [reflexivity|]. cbn [log trace]. split; [|split].
    + intros u n Hin Hpending. apply in_app_or in Hin as [Hin | Hin].
      * destruct (@visit_all_accounted (sessions host)
                    (load_checkpoint disk0) handled 1 (start disk0))
          as [_ Hall].
        { intros m H. now left. }
        destruct (Hall u n Hin) as [H | [u' H]]; [congruence|].
        exists u'. apply in_or_app. now left.
      * destruct Hin as [[= <- <-] | []]. exists url.
        apply in_or_app. right. right. now left.
    + intros u n H. apply in_or_app. apply in_app_or in H as [H | H].
      * left. apply visit_all_scrapes_targets in H.
        destruct H as [[] | H]. exact H.
      * right. destruct H as [H | [H | []]]; [discriminate|].
        injection H as <- <-. now left.
    + exists handled, url, name. split; [reflexivity|].
      rewrite length_app. cbn [List.length].
      replace (List.length handled + 1) with (1 + List.length handled) by lia.
      exact Hc.
Qed.

Lemma every_pending_target_attempted_witness :
  let run := main_run no_driver_host two_providers resumed_disk in
  exists reached rest,
    two_providers = reached ++ rest /\
    (forall url name,
       In (url, name) reached ->
       is_completed name (load_checkpoint resumed_disk) = false ->
       exists url', In (Scrape url' name) (trace (state run))) /\
    (forall url name,
       In (Scrape url name) (trace (state run)) -> In (url, name) reached) /\
    match ending run with
    | Finished => rest = []
    | Uncaught e =>
        exists before url name,
          reached = before ++ [(url, name)] /\
          scrape_call no_driver_host (List.length reached) url = Raise e
    end.
Proof.
  apply (@every_pending_target_attempted no_driver_host two_providers
           resumed_disk).
  right. exists earlier_checkpoint, 500. vm_compute. reflexivity.
Defined.

(** X14: a run in which no extraction succeeds writes nothing: the
    checkpoint file and the provider files are as at the start, the
    completed list is the loaded one and both counters are zero.  For each
    target it gets to, the run did a skip (the checkpoint lists it) or a
    sweep, an extraction and the cooldown; if an exception ends it, the
    last events are the sweep and the extraction whose call raised. *)
Theorem failing_run_writes_nothing (host : Host)
    (targets : list (str * str)) (disk0 : Disk) :
  own_checkpoint disk0 ->
  (forall i url,
     success (scrape_single_provider (browser (sessions host) i url))
     = false) ->
  let run := main_run host targets disk0 in
  disk (state run) = disk0 /\
  completed_providers (state run) = load_checkpoint disk0 /\
  total_games (state run) = 0 /\
  successful_providers (state run) = 0 /\
  exists reached rest,
    targets = reached ++ rest /\
    match ending run with
    | Finished =>
        rest = [] /\
        trace (state run)
        = flat_map (failed_attempt (load_checkpoint disk0)) reached
    | Uncaught e =>
        exists url name rest',
          rest = (url, name) :: rest' /\
          is_completed name (load_checkpoint disk0) = false /\
          trace (state run)
          = flat_map (failed_attempt (load_checkpoint disk0)) reached
              ++ [CloseAllChrome; Scrape url name]
    end.
Proof.
  intros _ Hfail run. subst run. unfold main_run.
  destruct (main_loop_reaches host targets 1 (start disk0) [])
    as [[He Hs] | (e & handled & url & name & rest & -> & He & _ & Hn & Hs)];
    rewrite He, Hs.
  - rewrite (@visit_all_failing (sessions host) targets Hfail).
    cbn [log start disk completed_providers total_games successful_providers
         trace app].
    repeat split. exists targets, []. now rewrite app_nil_r.
  - rewrite (@visit_all_failing (sessions host) handled Hfail) in Hn |- *.
    cbn [log start disk completed_providers total_games successful_providers
         trace app] in Hn |- *.
    repeat split. exists handled, ((url, name) :: rest).
    split; [reflexivity|]. now exists url, name, rest.
Qed.

Lemma failing_run_writes_nothing_witness :
  let run := main_run {| sessions := dead_env;
                         chrome_starts := fun _ _ => Ok tt;
                         chrome_quits := fun _ _ => Ok tt;
                         process_table := fun _ => [leftover_chrome] |}
               two_providers resumed_disk in
  disk (state run) = resumed_disk /\
  completed_providers (state run) = load_checkpoint resumed_disk /\
  total_games (state run) = 0 /\
  successful_providers (state run) = 0.
Proof.
  intros run.
  assert (Hown : own_checkpoint resumed_disk).
  { right. exists earlier_checkpoint, 500. vm_compute. reflexivity. }
  destruct (@failing_run_writes_nothing
              {| sessions := dead_env;
                 chrome_starts := fun _ _ => Ok tt;
                 chrome_quits := fun _ _ => Ok tt;
                 process_table := fun _ => [leftover_chrome] |}
              two_providers resumed_disk Hown (fun _ _ => eq_refl))
    as (Hd & Hc & Ht & Hs & _).
  exact (conj Hd (conj Hc (conj Ht Hs))).
Defined.

(** *** The providers of [main] *)

Lemma main_run_attempts (host : Host) (targets : list (str * str))
    (disk0 : Disk) :
  NoDup (map snd targets) ->
  let run := main_run host targets disk0 in
  (forall url name,
     In (Scrape url name) (trace (state run)) -> In (url, name) targets) /\
  (ending run = Finished ->
   forall url name,
     In (url, name) targets ->
     is_completed name (load_checkpoint disk0) = false ->
     In (Scrape url name) (trace (state run))).
Proof.
  intros Hnd run. subst run. unfold main_run.
  destruct (main_loop_reaches host targets 1 (start disk0) [])
    as [[He Hs] | (e & handled & url & name & rest & -> & He & _ & _ & Hs)];
    rewrite He, Hs.
  - destruct (@run_batch_attempts (sessions host) targets disk0 Hnd)
      as [Hall Hfrom].
    split; [exact Hfrom | intros _; exact Hall].
  - split; [|discriminate]. cbn [log trace]. intros u n H.
    apply in_or_app. apply in_app_or in H as [H | H].
    + left. apply visit_all_scrapes_targets in H.
      destruct H as [[] | H]. exact H.
    + right. destruct H as [H | [H | []]]; [discriminate|].
      injection H as <- <-. now left.
Qed.

Lemma main_run_handled (host : Host) (targets : list (str * str))
    (disk0 : Disk) :
  let events := trace (state (main_run host targets disk0)) in
  count is_skip events + count is_scrape events <= List.length targets /\
  (ending (main_run host targets disk0) = Finished ->
   count is_skip events + count is_scrape events = List.length targets).
Proof.
  cbv zeta. unfold main_run.
  destruct (main_loop_counts host targets 1 (start disk0) [])
    as (Hle & Heq & _).
  split; [exact Hle | exact Heq].
Qed.

(** X19: [main] goes through its thirty-one providers, whose names are all
    different, in order.  It never extracts a page that is not in the list,
    and each provider is skipped or extracted at most once.  When it ends
    without an exception, each was skipped or extracted exactly once, and
    every provider that the checkpoint does not list as completed was
    extracted, from its own URL. *)
Theorem main_attempts_every_pending_provider (host : Host) (disk0 : Disk) :
  own_checkpoint disk0 ->
  let run := main_call host disk0 in
  let events := trace (state run) in
  count is_skip events + count is_scrape events <= 31 /\
  (forall url name, In (Scrape url name) events -> In (url, name) providers) /\
  (ending run = Finished ->
   count is_skip events + count is_scrape events = 31 /\
   forall url name,
     In (url, name) providers ->
     is_completed name (load_checkpoint disk0) = false ->
     In (Scrape url name) events).
Proof.
  intros _ run events. subst events run. unfold main_call.
  destruct (main_run_attempts host providers disk0 providers_distinct)
    as [Hfrom Hall].
  destruct (main_run_handled host providers disk0) as [Hle Heq].
  rewrite providers_length in Hle, Heq.
  split; [exact Hle|]. split; [exact Hfrom|].
  intros Hfin. split; [exact (Heq Hfin) | exact (Hall Hfin)].
Qed.

Lemma main_attempts_every_pending_provider_witness :
  let run := main_call sample_host resumed_disk in
  let events := trace (state run) in
  count is_skip events + count is_scrape events <= 31 /\
  (forall url name, In (Scrape url name) events -> In (url, name) providers) /\
  (ending run = Finished ->
   count is_skip events + count is_scrape events = 31 /\
   forall url name,
     In (url, name) providers ->
     is_completed name (load_checkpoint resumed_disk) = false ->
     In (Scrape url name) events).
Proof.
  apply (@main_attempts_every_pending_provider sample_host resumed_disk).
  right. exists earlier_checkpoint, 500. vm_compute. reflexivity.
Defined.

End WholeRunFacts.
